(** * MCPilot: the XML-style tool request parser

    A shallow embedding of [src/services/parser/xml-parser.ts] (class
    [XmlParser]) together with the JavaScript built-ins the class calls
    ([String.prototype.trim], [toLowerCase], [Number], [JSON.parse],
    [RegExp.prototype.exec], [typeof], truthiness and [ToString]).

    Conventions of the model.
    - A JavaScript string is the list of its UTF-16 code units, each a [N].
    - A JavaScript number is an IEEE binary64 value, a [spec_float] of the
      Standard Library ([S754_finite s m e] stands for (-1)^s * m * 2^e).
    - An object is a finite map of own data properties together with its
      prototype: a property read goes up the prototype chain, and an
      assignment to [__proto__] reaches the setter of [Object.prototype].
    - The call stack is a number of activations ([Stack]); the activation of
      [parseParameters] that does not fit raises [RangeError].  Strings and
      the heap are unbounded.
    - A thrown exception is a [Throw] result; [try]/[catch] is a match on it.
    - The [logger] is the list of the messages passed to [logger.warn]. *)

From Stdlib Require Import ZArith NArith List Ascii String SpecFloat Lia.
From stdpp Require Import gmap list.

Set Warnings "-register-all".

#[local] Open Scope N_scope.

(** ** Strings *)

Abbreviation jstring := (list N).

Definition chr (a : ascii) : N := N_of_ascii a.

Definition str (s : string) : jstring :=
  map N_of_ascii (list_ascii_of_string s).

(** WhiteSpace and LineTerminator code units, as removed by [trim] and as
    matched by [\s]. *)
Definition isWhiteSpace (c : N) : bool :=
  (c =? 9) || (c =? 10) || (c =? 11) || (c =? 12) || (c =? 13) || (c =? 32)
  || (c =? 160) || (c =? 5760) || ((8192 <=? c) && (c <=? 8202))
  || (c =? 8232) || (c =? 8233) || (c =? 8239) || (c =? 8287)
  || (c =? 12288) || (c =? 65279).

Fixpoint trimStart (s : jstring) : jstring :=
  match s with
  | [] => []
  | c :: s' => if isWhiteSpace c then trimStart s' else s
  end.

Definition trimEnd (s : jstring) : jstring := rev (trimStart (rev s)).

Definition trim (s : jstring) : jstring := trimEnd (trimStart s).

(** [toLowerCase] on the letters A-Z.  No code unit outside A-Z is mapped to
    a letter of the words [true] and [false], so the comparisons the parser
    makes on the result are exact for every string. *)
Definition lowerChar (c : N) : N :=
  if (65 <=? c) && (c <=? 90) then c + 32 else c.

Definition toLowerCase (s : jstring) : jstring := map lowerChar s.

Fixpoint startsWith (s p : jstring) {struct p} : bool :=
  match p, s with
  | [], _ => true
  | _ :: _, [] => false
  | a :: p', c :: s' => (a =? c) && startsWith s' p'
  end.

Definition endsWith (s p : jstring) : bool := startsWith (rev s) (rev p).

(** ** Numbers *)

Module Num.

#[local] Open Scope Z_scope.

Definition NaN : spec_float := S754_nan.

Definition isNaN (x : spec_float) : bool :=
  match x with S754_nan => true | _ => false end.

(** Nearest integer to [num / den], ties to even ([0 < den], [0 <= num]). *)
Definition div_half_even (num den : Z) : Z :=
  let q := num / den in
  match (2 * (num mod den)) ?= den with
  | Lt => q
  | Gt => q + 1
  | Eq => if Z.even q then q else q + 1
  end.

(** The binary64 value nearest to the positive rational [n / d]
    (round to nearest, ties to even), with sign [neg]. *)
Definition round_ratio (neg : bool) (n d : Z) : spec_float :=
  let e0 := Z.log2 n - Z.log2 d in
  let e := if d * 2 ^ Z.max 0 e0 <=? n * 2 ^ Z.max 0 (- e0) then e0 else e0 - 1 in
  let q := Z.max (e - 52) (-1074) in
  let m := div_half_even (n * 2 ^ Z.max 0 (- q)) (d * 2 ^ Z.max 0 q) in
  let '(m, q) := if m =? 2 ^ 53 then (2 ^ 52, q + 1) else (m, q) in
  match m with
  | Z.pos p => if 971 <? q then S754_infinity neg else S754_finite neg p q
  | _ => S754_zero neg
  end.

(** The Number value of [(-1)^neg * digits * 10^exp10]. *)
Definition of_decimal (neg : bool) (digits exp10 : Z) : spec_float :=
  if digits <=? 0 then S754_zero neg
  else if 0 <=? exp10 then round_ratio neg (digits * 10 ^ exp10) 1
  else round_ratio neg digits (10 ^ (- exp10)).

Definition of_Z (z : Z) : spec_float := of_decimal (z <? 0) (Z.abs z) 0.

(** *** Numeric literals *)

Definition isDigit (c : N) : bool := ((48 <=? c) && (c <=? 57))%N.

Definition digitValue (radix : Z) (c : N) : option Z :=
  let v :=
    if ((48 <=? c) && (c <=? 57))%N then Z.of_N c - 48
    else if ((97 <=? c) && (c <=? 122))%N then Z.of_N c - 87
    else if ((65 <=? c) && (c <=? 90))%N then Z.of_N c - 55
    else radix in
  if v <? radix then Some v else None.

(** The value of a non-empty digit string in [radix]; [None] when the
    string is empty or holds a code unit that is not a digit of the radix. *)
Fixpoint digitsValue_from (radix acc : Z) (s : jstring) : option Z :=
  match s with
  | [] => Some acc
  | c :: s' =>
      match digitValue radix c with
      | Some v => digitsValue_from radix (radix * acc + v) s'
      | None => None
      end
  end.

Definition digitsValue (radix : Z) (s : jstring) : option Z :=
  match s with
  | [] => None
  | _ => digitsValue_from radix 0 s
  end.

Fixpoint spanDigits (s : jstring) : jstring * jstring :=
  match s with
  | [] => ([], [])
  | c :: s' =>
      if isDigit c then let '(ds, r) := spanDigits s' in (c :: ds, r)
      else ([], s)
  end.

(** SignedInteger: an optional sign and one or more decimal digits. *)
Definition SignedInteger (s : jstring) : option Z :=
  match s with
  | c :: r =>
      if (c =? 43)%N then digitsValue 10 r
      else if (c =? 45)%N then option_map Z.opp (digitsValue 10 r)
      else digitsValue 10 s
  | [] => None
  end.

(** ExponentPart, optional: nothing, or [e]/[E] and a SignedInteger. *)
Definition ExponentPart_opt (s : jstring) : option Z :=
  match s with
  | [] => Some 0
  | c :: r => if ((c =? 101) || (c =? 69))%N then SignedInteger r else None
  end.

(** StrUnsignedDecimalLiteral other than [Infinity]: the pair (digits, exp10)
    of its mathematical value digits * 10^exp10. *)
Definition StrUnsignedDecimalLiteral (s : jstring) : option (Z * Z) :=
  let '(ip, r1) := spanDigits s in
  let '(fp, r2) :=
    match r1 with
    | c :: r => if (c =? 46)%N then spanDigits r else ([], r1)
    | [] => ([], r1)
    end in
  match ip, fp with
  | [], [] => None
  | _, _ =>
      match digitsValue_from 10 0 (ip ++ fp), ExponentPart_opt r2 with
      | Some m, Some e => Some (m, e - Z.of_nat (length fp))
      | _, _ => None
      end
  end.

Definition StrUnsignedLiteral (neg : bool) (s : jstring) : spec_float :=
  if bool_decide (s = str "Infinity") then S754_infinity neg
  else match StrUnsignedDecimalLiteral s with
       | Some (m, e) => of_decimal neg m e
       | None => NaN
       end.

Definition StrDecimalLiteral (s : jstring) : spec_float :=
  match s with
  | c :: r =>
      if (c =? 43)%N then StrUnsignedLiteral false r
      else if (c =? 45)%N then StrUnsignedLiteral true r
      else StrUnsignedLiteral false s
  | [] => StrUnsignedLiteral false s
  end.

(** NonDecimalIntegerLiteral: [0x], [0o] or [0b] (either case) and digits. *)
Definition NonDecimalIntegerLiteral (s : jstring) : option (option Z) :=
  match s with
  | z :: c :: r =>
      if negb (z =? 48)%N then None
      else if ((c =? 120) || (c =? 88))%N then Some (digitsValue 16 r)
      else if ((c =? 111) || (c =? 79))%N then Some (digitsValue 8 r)
      else if ((c =? 98) || (c =? 66))%N then Some (digitsValue 2 r)
      else None
  | _ => None
  end.

Definition StrNumericLiteral (s : jstring) : spec_float :=
  match NonDecimalIntegerLiteral s with
  | Some (Some z) => of_decimal false z 0
  | Some None => NaN
  | None => StrDecimalLiteral s
  end.

(** [Number(s)] for a string [s] (StringToNumber): white space is stripped,
    the empty string is [+0], a StrNumericLiteral has its value, correctly
    rounded, and every other string is [NaN]. *)
Definition Number (s : jstring) : spec_float :=
  match trim s with
  | [] => S754_zero false
  | t => StrNumericLiteral t
  end.

(** *** Number::toString *)

Fixpoint digits_of_aux (fuel : nat) (z : Z) (acc : jstring) : jstring :=
  match fuel with
  | O => acc
  | S f =>
      let acc' := (Z.to_N (z mod 10) + 48)%N :: acc in
      if z <? 10 then acc' else digits_of_aux f (z / 10) acc'
  end.

(** Decimal digits of a non-negative integer. *)
Definition digits_of (z : Z) : jstring :=
  digits_of_aux (S (Z.to_nat (Z.log2 z))) z [].

(** The least [j] in [0, fuel] with [d <= n * 10^j]. *)
Fixpoint scale_up (fuel : nat) (n d : Z) : Z :=
  match fuel with
  | O => 0
  | S f => if d <=? n then 0 else 1 + scale_up f (10 * n) d
  end.

(** The integer [n0] with [10^(n0-1) <= xn/xd < 10^n0]. *)
Definition decimal_exponent (xn xd : Z) : Z :=
  if xd <=? xn then Z.of_nat (length (digits_of (xn / xd)))
  else - scale_up (S (Z.to_nat (Z.log2 xd))) (10 * xn) xd.

(** The shortest digit string [s] of [k] digits, and the exponent [n], with
    [s * 10^(n-k)] rounding to the binary64 value [m * 2^e]; among the
    candidates of the least [k] the closest one, the even one on a tie. *)
Fixpoint shortest (fuel : nat) (k : Z) (m : positive) (e : Z) (xn xd n0 : Z) : Z * Z * Z :=
  let num := xn * 10 ^ Z.max 0 (k - n0) in
  let den := xd * 10 ^ Z.max 0 (n0 - k) in
  let lo := num / den in
  let r := num mod den in
  let hi := if lo + 1 <? 10 ^ k then (lo + 1, n0) else (10 ^ (k - 1), n0 + 1) in
  let ok (c : Z * Z) :=
    match of_decimal false (fst c) (snd c - k) with
    | S754_finite _ m' e' => bool_decide (m' = m) && (e' =? e)
    | _ => false
    end in
  let ok_lo := (10 ^ (k - 1) <=? lo) && ok (lo, n0) in
  let ok_hi := ok hi in
  let pick (c : Z * Z) := (fst c, k, snd c) in
  match fuel with
  | O => pick (lo, n0)
  | S f =>
      match ok_lo, ok_hi with
      | true, true =>
          match (2 * r) ?= den with
          | Lt => pick (lo, n0)
          | Gt => pick hi
          | Eq => if Z.even lo then pick (lo, n0) else pick hi
          end
      | true, false => pick (lo, n0)
      | false, true => pick hi
      | false, false => shortest f (k + 1) m e xn xd n0
      end
  end.

Definition zeros (n : Z) : jstring := repeat 48%N (Z.to_nat n).

Definition finite_to_string (m : positive) (e : Z) : jstring :=
  let xn := Z.pos m * 2 ^ Z.max 0 e in
  let xd := 2 ^ Z.max 0 (- e) in
  let '(s, k, n) := shortest 20 1 m e xn xd (decimal_exponent xn xd) in
  let ds := digits_of s in
  if (k <=? n) && (n <=? 21) then ds ++ zeros (n - k)
  else if (0 <? n) && (n <=? 21) then
    take (Z.to_nat n) ds ++ [46%N] ++ drop (Z.to_nat n) ds
  else if (-6 <? n) && (n <=? 0) then
    [48%N; 46%N] ++ zeros (- n) ++ ds
  else
    let ex := [101%N] ++ [if n - 1 <? 0 then 45%N else 43%N] ++ digits_of (Z.abs (n - 1)) in
    if k =? 1 then ds ++ ex
    else take 1 ds ++ [46%N] ++ drop 1 ds ++ ex.

Definition toString (x : spec_float) : jstring :=
  match x with
  | S754_nan => str "NaN"
  | S754_zero _ => str "0"
  | S754_infinity s => (if s then str "-" else []) ++ str "Infinity"
  | S754_finite s m e => (if s then str "-" else []) ++ finite_to_string m e
  end.

End Num.

(** ** Values, exceptions and the built-in conversions *)

(** A JavaScript value, the type [any] of the source.  An array is one that
    [JSON.parse] made: its prototype is [Array.prototype] and its own
    properties are its elements and [length].  An ordinary object has own
    data properties and a prototype: [None] stands for [Object.prototype],
    [Some VNull] for no prototype and [Some v] for the object [v]. *)
Inductive any :=
| VUndefined
| VNull
| VBool (b : bool)
| VNum (x : spec_float)
| VStr (s : jstring)
| VArr (elements : list any)
| VObj (proto : option any) (properties : gmap jstring any).

(** An ordinary object as the code holds it in a variable: its prototype
    and its own properties. *)
Definition object : Type := option any * gmap jstring any.

Definition prototype (o : object) : option any := o.1.
Definition own (o : object) : gmap jstring any := o.2.

(** The object literal [{}]. *)
Definition empty_object : object := (None, ∅).

Definition VObject (o : object) : any := VObj (prototype o) (own o).

Inductive error :=
| XmlParseError (message : jstring)
| SyntaxError
| TypeError
| RangeError.

Inductive result (A : Type) :=
| Ok (a : A)
| Throw (e : error).

Arguments Ok {A} a.
Arguments Throw {A} e.

Definition bind {A B : Type} (r : result A) (k : A -> result B) : result B :=
  match r with
  | Ok a => k a
  | Throw e => Throw e
  end.

Notation "x <- r ;; k" := (bind r (fun x => k))
  (at level 100, r at next level, right associativity).

(** [try { r } catch { h }] *)
Definition try_catch {A : Type} (r : result A) (h : error -> result A) : result A :=
  match r with
  | Ok a => Ok a
  | Throw e => h e
  end.

Definition isXmlParseError (e : error) : bool :=
  match e with XmlParseError _ => true | _ => false end.

(** [typeof v] *)
Definition typeof (v : any) : jstring :=
  match v with
  | VUndefined => str "undefined"
  | VNull => str "object"
  | VBool _ => str "boolean"
  | VNum _ => str "number"
  | VStr _ => str "string"
  | VArr _ => str "object"
  | VObj _ _ => str "object"
  end.

(** ToBoolean: the values [undefined], [null], [false], [+0], [-0], [NaN]
    and the empty string are falsy, every other value is truthy. *)
Definition truthy (v : any) : bool :=
  match v with
  | VUndefined => false
  | VNull => false
  | VBool b => b
  | VNum (S754_zero _) => false
  | VNum S754_nan => false
  | VNum _ => true
  | VStr s => negb (bool_decide (s = []))
  | VArr _ => true
  | VObj _ _ => true
  end.

(** *** Properties and the prototype chain *)

(** The index that an array-index key denotes: a canonical decimal
    numeral. *)
Definition array_index (k : jstring) : option nat :=
  match Num.digitsValue 10 k with
  | Some z => if bool_decide (Num.digits_of z = k) then Some (Z.to_nat z) else None
  | None => None
  end.

(** The key of the element at an index. *)
Definition index_key (i : nat) : jstring := Num.digits_of (Z.of_nat i).

(** [lookup v k]: the data property [k] that [v] has itself or inherits
    from the objects on its prototype chain.  The properties of the built-in
    prototypes are not data of the program and are not found here. *)
Fixpoint lookup (v : any) (k : jstring) : option any :=
  match v with
  | VObj proto properties =>
      match properties !! k with
      | Some x => Some x
      | None =>
          match proto with
          | Some p => lookup p k
          | None => None
          end
      end
  | VArr elements =>
      if bool_decide (k = str "length")
      then Some (VNum (Num.of_Z (Z.of_nat (length elements))))
      else match array_index k with
           | Some i => elements !! i
           | None => None
           end
  | _ => None
  end.

(** The built-in prototype at which the prototype chain of an object ends:
    [Object.prototype], [Array.prototype] (whose own prototype is
    [Object.prototype]), or none when the chain ends in [null]. *)
Inductive chain_end := ObjectPrototype | ArrayPrototype | NoPrototype.

Fixpoint chain_end_of (v : any) : chain_end :=
  match v with
  | VObj None _ => ObjectPrototype
  | VObj (Some p) _ => chain_end_of p
  | VArr _ => ArrayPrototype
  | _ => NoPrototype
  end.

(** Property read [o.k], for a name [k] that the built-in prototypes do not
    define: the own or inherited data property, [undefined] without one. *)
Definition get (o : object) (k : jstring) : any :=
  default VUndefined (lookup (VObject o) k).

(** The assignment [o[k] = v] on an ordinary object.  A name that [o] or
    an object of its chain has as a data property, and a name that is found
    nowhere, is written on [o] itself.  The built-in prototypes hold one
    accessor, [__proto__] of [Object.prototype]: where the search for
    [__proto__] reaches it, its setter makes an object or [null] the new
    prototype of [o] and ignores every other value. *)
Definition assign (o : object) (k : jstring) (v : any) : object :=
  if bool_decide (k = str "__proto__") then
    match lookup (VObject o) k, chain_end_of (VObject o) with
    | None, (ObjectPrototype | ArrayPrototype) =>
        match v with
        | VObj _ _ | VArr _ | VNull => (Some v, own o)
        | _ => o
        end
    | _, _ => (prototype o, <[k := v]> (own o))
    end
  else (prototype o, <[k := v]> (own o)).

(** *** ToString *)

(** The strings of a list joined with commas; the first error wins. *)
Fixpoint join_results (l : list (result jstring)) : result jstring :=
  match l with
  | [] => Ok []
  | [r] => r
  | r :: l' => s <- r ;; t <- join_results l' ;; Ok (s ++ str "," ++ t)
  end.

(** What [join] writes for an element: nothing for [undefined] and [null],
    the conversion [shown] of the element otherwise. *)
Definition element_string (x : any) (shown : result jstring) : result jstring :=
  match x with
  | VUndefined | VNull => Ok []
  | _ => shown
  end.

(** ToNumber of a value whose conversion to a string is [shown]: an object
    converts through its primitive, which is that string. *)
Definition ToNumber (x : any) (shown : result jstring) : result spec_float :=
  match x with
  | VUndefined => Ok S754_nan
  | VNull => Ok (S754_zero false)
  | VBool b => Ok (Num.of_Z (if b then 1 else 0))
  | VNum y => Ok y
  | VStr s => Ok (Num.Number s)
  | VArr _ | VObj _ _ => s <- shown ;; Ok (Num.Number s)
  end.

(** ToLength: the number truncated to an integer and clamped to
    [0, 2^53 - 1]. *)
Definition ToLength (x : spec_float) : nat :=
  match x with
  | S754_finite false m e =>
      Z.to_nat (Z.min (if 0 <=? e then Z.pos m * 2 ^ e else Z.pos m / 2 ^ (- e))
                      (2 ^ 53 - 1))
  | S754_infinity false => Z.to_nat (2 ^ 53 - 1)
  | _ => O
  end%Z.

Section Join.

(** The properties of the receiver, each with its conversion to a
    string. *)
Variable look : jstring -> option (any * result jstring).

(** [Array.prototype.join] called on an object that is not an array: the
    elements are the properties at the indices below [length]. *)
Definition generic_join : result jstring :=
  n <- match look (str "length") with
       | Some (x, shown) => num <- ToNumber x shown ;; Ok (ToLength num)
       | None => Ok O
       end ;;
  join_results
    (map (fun i => match look (index_key i) with
                   | Some (x, shown) => element_string x shown
                   | None => Ok []
                   end) (seq 0 n)).

End Join.

(** [convert v] is the conversion of [v] to a string, together with the
    data properties [v] has or inherits, each with its own conversion.

    An array joins the conversions of its elements.  An ordinary object is
    converted by the [toString] it inherits: a [toString] found as data is
    no function, and then [valueOf], data or the built-in one, gives no
    primitive either: [TypeError].  Without one, an object whose chain ends
    at [Object.prototype] is [[object Object]]; an object whose chain goes
    through an array inherits [Array.prototype.toString], which calls the
    [join] it finds: data is no function and leaves [[object Object]], and
    [Array.prototype.join] joins the properties at the indices below
    [length]. *)
Fixpoint convert (v : any)
  : result jstring * (jstring -> option (any * result jstring)) :=
  match v with
  | VUndefined => (Ok (str "undefined"), fun _ => None)
  | VNull => (Ok (str "null"), fun _ => None)
  | VBool true => (Ok (str "true"), fun _ => None)
  | VBool false => (Ok (str "false"), fun _ => None)
  | VNum x => (Ok (Num.toString x), fun _ => None)
  | VStr s => (Ok s, fun _ => None)
  | VArr l =>
      let children := map (fun x => (x, (convert x).1)) l in
      (join_results (map (fun c => element_string c.1 c.2) children),
       fun k =>
         if bool_decide (k = str "length")
         then let n := Num.of_Z (Z.of_nat (length l)) in
              Some (VNum n, Ok (Num.toString n))
         else match array_index k with
              | Some i => children !! i
              | None => None
              end)
  | VObj proto properties =>
      let mine := (fun x => (x, (convert x).1)) <$> properties in
      let inherited :=
        match proto with
        | Some p => (convert p).2
        | None => fun _ => None
        end in
      let look k :=
        match mine !! k with
        | Some c => Some c
        | None => inherited k
        end in
      (match look (str "toString") with
       | Some _ => Throw TypeError
       | None =>
           match chain_end_of (VObj proto properties) with
           | ObjectPrototype => Ok (str "[object Object]")
           | ArrayPrototype =>
               match look (str "join") with
               | Some _ => Ok (str "[object Object]")
               | None => generic_join look
               end
           | NoPrototype => Throw TypeError
           end
       end, look)
  end.

(** ToString *)
Definition ToString (v : any) : result jstring := (convert v).1.

(** The data properties a value has or inherits, each with its conversion
    to a string. *)
Definition shown_properties (v : any) (k : jstring)
  : option (any * result jstring) :=
  (fun x => (x, ToString x)) <$> lookup v k.

(** ** JSON.parse *)

Module JSON.

Definition isWhiteSpace (c : N) : bool :=
  (c =? 32) || (c =? 9) || (c =? 10) || (c =? 13).

Fixpoint skipWS (s : jstring) : jstring :=
  match s with
  | c :: s' => if isWhiteSpace c then skipWS s' else s
  | [] => []
  end.

Definition hex4 (a b c d : N) : option N :=
  match Num.digitsValue 16 [a; b; c; d] with
  | Some z => Some (Z.to_N z)
  | None => None
  end.

(** The rest of a string literal, after its opening quote: the code units
    it denotes (collected in reverse in [acc]) and what follows the closing
    quote. *)
Fixpoint parseString (s : jstring) (acc : jstring) : option (jstring * jstring) :=
  match s with
  | [] => None
  | c :: r =>
      if c =? 34 then Some (rev acc, r)
      else if c =? 92 then
        match r with
        | [] => None
        | e :: r' =>
            if (e =? 34) || (e =? 92) || (e =? 47) then parseString r' (e :: acc)
            else if e =? 98 then parseString r' (8 :: acc)
            else if e =? 102 then parseString r' (12 :: acc)
            else if e =? 110 then parseString r' (10 :: acc)
            else if e =? 114 then parseString r' (13 :: acc)
            else if e =? 116 then parseString r' (9 :: acc)
            else if e =? 117 then
              match r' with
              | h1 :: h2 :: h3 :: h4 :: r'' =>
                  match hex4 h1 h2 h3 h4 with
                  | Some u => parseString r'' (u :: acc)
                  | None => None
                  end
              | _ => None
              end
            else None
        end
      else if c <? 32 then None
      else parseString r (c :: acc)
  end.

(** A number token at the head of [s]: [-]? int frac? exp?, where int has
    no superfluous leading zero and frac and exp have at least one digit. *)
Definition parseNumber (s : jstring) : option (spec_float * jstring) :=
  let '(neg, u) :=
    match s with
    | c :: r => if c =? 45 then (true, r) else (false, s)
    | [] => (false, s)
    end in
  let '(ip, r1) := Num.spanDigits u in
  let int_ok :=
    match ip with
    | [] => false
    | [_] => true
    | d :: _ => negb (d =? 48)
    end in
  let '(frac_ok, fp, r2) :=
    match r1 with
    | c :: r =>
        if c =? 46 then
          let '(fp, r2) := Num.spanDigits r in
          (negb (bool_decide (fp = [])), fp, r2)
        else (true, [], r1)
    | [] => (true, [], r1)
    end in
  let '(exp_ok, ex, r3) :=
    match r2 with
    | c :: r =>
        if (c =? 101) || (c =? 69) then
          let '(sg, r') :=
            match r with
            | g :: t => if (g =? 43) || (g =? 45) then ([g], t) else ([], r)
            | [] => ([], r)
            end in
          let '(ds, r3) := Num.spanDigits r' in
          (negb (bool_decide (ds = [])), Num.SignedInteger (sg ++ ds), r3)
        else (true, Some 0%Z, r2)
    | [] => (true, Some 0%Z, r2)
    end in
  if int_ok && frac_ok && exp_ok then
    match Num.digitsValue_from 10 0 (ip ++ fp), ex with
    | Some m, Some e => Some (Num.of_decimal neg m (e - Z.of_nat (length fp)), r3)
    | _, _ => None
    end
  else None.

Section Composite.

(** The parser of one value, for the values nested in an array or object. *)
Variable parseValue : jstring -> option (any * jstring).

(** Array elements after [[]: [s] starts at an element. *)
Fixpoint parseElements (fuel : nat) (s : jstring) (acc : list any)
  : option (any * jstring) :=
  match fuel with
  | O => None
  | S f =>
      match parseValue s with
      | Some (v, r) =>
          match skipWS r with
          | c :: r' =>
              if c =? 44 then parseElements f r' (v :: acc)
              else if c =? 93 then Some (VArr (rev (v :: acc)), r')
              else None
          | [] => None
          end
      | None => None
      end
  end.

(** Object members after [{]: [s] starts at a member name.  A repeated
    name keeps the value of its last member. *)
Fixpoint parseMembers (fuel : nat) (s : jstring) (acc : gmap jstring any)
  : option (any * jstring) :=
  match fuel with
  | O => None
  | S f =>
      match skipWS s with
      | q :: r =>
          match (if q =? 34 then parseString r [] else None) with
          | Some (k, r1) =>
              match skipWS r1 with
              | colon :: r2 =>
                  match (if colon =? 58 then parseValue r2 else None) with
                  | Some (v, r3) =>
                      match skipWS r3 with
                      | c :: r4 =>
                          if c =? 44 then parseMembers f r4 (<[k := v]> acc)
                          else if c =? 125 then Some (VObj None (<[k := v]> acc), r4)
                          else None
                      | [] => None
                      end
                  | None => None
                  end
              | [] => None
              end
          | None => None
          end
      | [] => None
      end
  end.

End Composite.

Fixpoint parseValue (fuel : nat) (s : jstring) : option (any * jstring) :=
  match fuel with
  | O => None
  | S f =>
      match skipWS s with
      | [] => None
      | c :: r =>
          if c =? 123 then
            match skipWS r with
            | d :: r' =>
                if d =? 125 then Some (VObj None ∅, r')
                else parseMembers (parseValue f) (length r) r ∅
            | [] => None
            end
          else if c =? 91 then
            match skipWS r with
            | d :: r' =>
                if d =? 93 then Some (VArr [], r')
                else parseElements (parseValue f) (length r) r []
            | [] => None
            end
          else if c =? 34 then
            match parseString r [] with
            | Some (k, r') => Some (VStr k, r')
            | None => None
            end
          else if startsWith (c :: r) (str "true") then Some (VBool true, drop 4 (c :: r))
          else if startsWith (c :: r) (str "false") then Some (VBool false, drop 5 (c :: r))
          else if startsWith (c :: r) (str "null") then Some (VNull, drop 4 (c :: r))
          else match parseNumber (c :: r) with
               | Some (x, r') => Some (VNum x, r')
               | None => None
               end
      end
  end.

(** [JSON.parse(text)]: one value, white space allowed around it, and
    nothing else; [SyntaxError] otherwise. *)
Definition parse (text : jstring) : result any :=
  match parseValue (S (length text)) text with
  | Some (v, r) =>
      match skipWS r with
      | [] => Ok v
      | _ => Throw SyntaxError
      end
  | None => Throw SyntaxError
  end.

End JSON.

(** ** The regular expressions of the parser *)

Module RegExp.

Definition open_marker : jstring := str "<use_mcp_tool>".
Definition close_marker : jstring := str "</use_mcp_tool>".

(** A lazy [[\s\S]*?] followed by the literal [p]: the shortest prefix of
    [s] that [p] follows, and what comes after that occurrence of [p]. *)
Fixpoint lazy_until (p s : jstring) : option (jstring * jstring) :=
  if startsWith s p then Some ([], drop (length p) s)
  else match s with
       | [] => None
       | c :: s' =>
           match lazy_until p s' with
           | Some (body, rest) => Some (c :: body, rest)
           | None => None
           end
       end.

(** [<use_mcp_tool>[\s\S]*?<\/use_mcp_tool>] anchored at the head of [s]:
    the text between the markers and the text after the match. *)
Definition block_here (s : jstring) : option (jstring * jstring) :=
  if startsWith s open_marker then lazy_until close_marker (drop (length open_marker) s)
  else None.

(** A greedy [[^>]+] followed by [>]: the non-empty run of code units
    before the first [>], and what comes after that [>]. *)
Fixpoint name_until_gt (s : jstring) : option (jstring * jstring) :=
  match s with
  | [] => None
  | c :: s' =>
      if c =? 62 then None
      else match s' with
           | d :: s'' =>
               if d =? 62 then Some ([c], s'')
               else match name_until_gt s' with
                    | Some (name, rest) => Some (c :: name, rest)
                    | None => None
                    end
           | [] => None
           end
  end.

(** [<([^>]+)>([\s\S]*?)<\/\1>] anchored at the head of [s]: the two groups
    and the text after the match. *)
Definition tag_here (s : jstring) : option (jstring * jstring * jstring) :=
  match s with
  | c :: s1 =>
      if c =? 60 then
        match name_until_gt s1 with
        | Some (name, s2) =>
            match lazy_until (str "</" ++ name ++ str ">") s2 with
            | Some (body, rest) => Some (name, body, rest)
            | None => None
            end
        | None => None
        end
      else None
  | [] => None
  end.

(** [exec] of a global pattern: the leftmost position of [s] at which the
    anchored matcher [here] succeeds.  [s] is the text from [lastIndex] on,
    and the text after the match is where the next [exec] resumes. *)
Fixpoint exec {A : Type} (here : jstring -> option A) (s : jstring) : option A :=
  match here s with
  | Some m => Some m
  | None =>
      match s with
      | [] => None
      | _ :: s' => exec here s'
      end
  end.

Definition isLower (c : N) : bool := (97 <=? c) && (c <=? 122).

(** [/^[a-z][a-z0-9-]*$/] on a string *)
Definition serverNamePattern (s : jstring) : bool :=
  match s with
  | c :: r => isLower c && forallb (fun d => isLower d || Num.isDigit d || (d =? 45)) r
  | [] => false
  end.

(** [/^[a-z][a-z0-9_]*$/] on a string *)
Definition toolNamePattern (s : jstring) : bool :=
  match s with
  | c :: r => isLower c && forallb (fun d => isLower d || Num.isDigit d || (d =? 95)) r
  | [] => false
  end.

(** [pattern.test(v)]: the argument is converted to a string first. *)
Definition test (pattern : jstring -> bool) (v : any) : result bool :=
  s <- ToString v ;; Ok (pattern s).

End RegExp.

(** ** The class [XmlParser] *)

Record ParsedToolRequest := {
  toolName : any;
  serverName : any;
  arguments : any;
  raw : jstring
}.

(** The call stack of the engine, counted in activations of
    [parseParameters]: [stack] of them fit below the first one. *)
Class Stack := stack : nat.

Module XmlParser.

(** [normalizeValue(value)] *)
Definition normalizeValue (value : jstring) : any :=
  let trimmed := trim value in
  if negb (truthy (VStr trimmed)) then VStr []
  else if bool_decide (toLowerCase trimmed = str "true") then VBool true
  else if bool_decide (toLowerCase trimmed = str "false") then VBool false
  else if negb (Num.isNaN (Num.Number trimmed)) && negb (bool_decide (trimmed = []))
  then VNum (Num.Number trimmed)
  else
    if (startsWith trimmed (str "{") && endsWith trimmed (str "}"))
       || (startsWith trimmed (str "[") && endsWith trimmed (str "]"))
    then match JSON.parse trimmed with
         | Ok v => v
         | Throw _ => VStr trimmed
         end
    else VStr trimmed.

(** [hasNestedTags(content)] *)
Definition hasNestedTags (content : jstring) : bool :=
  match RegExp.exec RegExp.tag_here (trim content) with
  | Some _ => true
  | None => false
  end.

Section Activation.

(** The recursive call [this.parseParameters(paramValue)]. *)
Variable self : jstring -> result object.

(** The value stored for one matched pair. *)
Definition paramValueOf (paramValue : jstring) : any :=
  if hasNestedTags paramValue then
    match self paramValue with
    | Ok nested => VObject nested
    | Throw _ => normalizeValue paramValue
    end
  else normalizeValue paramValue.

(** The [while] loop of [parseParameters]: [content] is the text from
    the pattern's [lastIndex] on. *)
Fixpoint parseParameters_loop (fuel : nat) (content : jstring)
    (parameters : object) : object :=
  match fuel with
  | O => parameters
  | S f =>
      match RegExp.exec RegExp.tag_here content with
      | None => parameters
      | Some (paramName, paramValue, rest) =>
          parseParameters_loop f rest
            (assign parameters paramName (paramValueOf paramValue))
      end
  end.

End Activation.

(** [parseParameters] with [depth] activations left on the call stack; the
    call that finds none raises [RangeError]. *)
Fixpoint parseParameters_depth (depth : nat) (content : jstring)
  : result object :=
  match depth with
  | O => Throw RangeError
  | S d =>
      Ok (parseParameters_loop (parseParameters_depth d) (length content) content
            empty_object)
  end.

(** [isValidToolName(name)] *)
Definition isValidToolName (name : any) : result bool :=
  RegExp.test RegExp.toolNamePattern name.

(** [validateToolRequest(request)] *)
Definition validateToolRequest (request : ParsedToolRequest) : result unit :=
  if negb (truthy (toolName request)) then
    Throw (XmlParseError (str "Missing tool name"))
  else if negb (truthy (serverName request)) then
    Throw (XmlParseError (str "Missing server_name in tool request"))
  else if negb (truthy (arguments request))
          || negb (bool_decide (typeof (arguments request) = str "object")) then
    Throw (XmlParseError (str "Invalid or missing arguments in tool request"))
  else
    server_ok <- RegExp.test RegExp.serverNamePattern (serverName request) ;;
    if negb server_ok then
      shown <- ToString (serverName request) ;;
      Throw (XmlParseError (str "Invalid server name format: " ++ shown))
    else
      tool_ok <- isValidToolName (toolName request) ;;
      if negb tool_ok then
        shown <- ToString (toolName request) ;;
        Throw (XmlParseError (str "Invalid tool name format: " ++ shown))
      else Ok tt.

Section Engine.

Context {engine : Stack}.

(** [parseParameters(content)], called from [parseToolRequest]: this
    activation fits, and [stack] more below it. *)
Definition parseParameters (content : jstring) : result object :=
  parseParameters_depth (S stack) content.

(** [parseToolRequest(text)] *)
Definition parseToolRequest (text : jstring) : result ParsedToolRequest :=
  match RegExp.exec RegExp.block_here text with
  | None => Throw (XmlParseError (str "Invalid tool request format"))
  | Some (content, _) =>
      params <- parseParameters content ;;
      if negb (truthy (get params (str "server_name"))) then
        Throw (XmlParseError (str "Missing server_name in tool request"))
      else if negb (truthy (get params (str "tool_name"))) then
        Throw (XmlParseError (str "Missing tool_name in tool request"))
      else if negb (truthy (get params (str "arguments"))) then
        Throw (XmlParseError (str "Missing arguments in tool request"))
      else
        toolArguments <-
          match get params (str "arguments") with
          | VStr s =>
              try_catch (JSON.parse s)
                (fun _ => Throw (XmlParseError (str "Invalid JSON in tool arguments")))
          | v => Ok v
          end ;;
        let request := {| toolName := get params (str "tool_name");
                          serverName := get params (str "server_name");
                          arguments := toolArguments;
                          raw := text |} in
        _ <- validateToolRequest request ;;
        Ok request
  end.

(** The [while] loop of [parseToolRequests]: [text] is the input from the
    pattern's [lastIndex] on, [log] the messages passed to [logger.warn]. *)
Fixpoint parseToolRequests_loop (fuel : nat) (text : jstring)
    (requests : list ParsedToolRequest) (log : list jstring)
  : result (list ParsedToolRequest) * list jstring :=
  match fuel with
  | O => (Ok requests, log)
  | S f =>
      match RegExp.exec RegExp.block_here text with
      | None => (Ok requests, log)
      | Some (content, rest) =>
          let fullMatch := RegExp.open_marker ++ content ++ RegExp.close_marker in
          match parseToolRequest fullMatch with
          | Ok request => parseToolRequests_loop f rest (requests ++ [request]) log
          | Throw (XmlParseError message) =>
              parseToolRequests_loop f rest requests
                (log ++ [str "Skipping invalid tool request: " ++ message])
          | Throw e => (Throw e, log)
          end
      end
  end.

(** [parseToolRequests(text)], with the log it leaves. *)
Definition parseToolRequests (text : jstring)
  : result (list ParsedToolRequest) * list jstring :=
  parseToolRequests_loop (length text) text [] [].

End Engine.

End XmlParser.

#[local] Close Scope N_scope.

(** ** Vocabulary of the specification *)

Import XmlParser.

Arguments str : simpl never.

(** [s] splits as [pre ++ p ++ post] at the first occurrence of [p]. *)
Definition first_occurrence (p s pre post : jstring) : Prop :=
  s = pre ++ p ++ post /\
  forall pre' post', s = pre' ++ p ++ post' -> length pre <= length pre'.

(** The tool-call blocks of a text, in document order: a block runs from
    the first opening marker to the nearest closing marker after it, and the
    search resumes after that closing marker. *)
Inductive Blocks : jstring -> list jstring -> Prop :=
| Blocks_none text :
    (forall pre body post,
        text <> pre ++ RegExp.open_marker ++ body ++ RegExp.close_marker ++ post) ->
    Blocks text []
| Blocks_next text pre after body post bs :
    first_occurrence RegExp.open_marker text pre after ->
    first_occurrence RegExp.close_marker after body post ->
    Blocks post bs ->
    Blocks text ((RegExp.open_marker ++ body ++ RegExp.close_marker) :: bs).

(** The successive matches of the block pattern on a text. *)
Fixpoint blocks_loop (fuel : nat) (text : jstring) : list jstring :=
  match fuel with
  | O => []
  | S f =>
      match RegExp.exec RegExp.block_here text with
      | None => []
      | Some (content, rest) =>
          (RegExp.open_marker ++ content ++ RegExp.close_marker) :: blocks_loop f rest
      end
  end.

Definition blocks (text : jstring) : list jstring :=
  blocks_loop (length text) text.

Section Outcomes.

Context {engine : Stack}.

(** What one block contributes to an extraction: a request, a diagnostic,
    or an error that is not an [XmlParseError]. *)
Definition requestOf (block : jstring) : option ParsedToolRequest :=
  match parseToolRequest block with
  | Ok request => Some request
  | Throw _ => None
  end.

Definition diagnosticOf (block : jstring) : option jstring :=
  match parseToolRequest block with
  | Throw (XmlParseError message) =>
      Some (str "Skipping invalid tool request: " ++ message)
  | _ => None
  end.

Definition unexpectedOf (block : jstring) : option error :=
  match parseToolRequest block with
  | Throw e => if isXmlParseError e then None else Some e
  | Ok _ => None
  end.

(** Extraction in the words of the specification: the blocks are built in
    document order; a request is kept, an [XmlParseError] is logged and the
    block skipped, and any other error ends the extraction there. *)
Fixpoint extract_blocks (bs : list jstring)
  : result (list ParsedToolRequest) * list jstring :=
  match bs with
  | [] => (Ok [], [])
  | b :: bs' =>
      match parseToolRequest b with
      | Ok request =>
          (match (extract_blocks bs').1 with
           | Ok requests => Ok (request :: requests)
           | Throw e => Throw e
           end, (extract_blocks bs').2)
      | Throw (XmlParseError message) =>
          ((extract_blocks bs').1,
           (str "Skipping invalid tool request: " ++ message) :: (extract_blocks bs').2)
      | Throw e => (Throw e, [])
      end
  end.

(** The value [parseParameters], called from [parseToolRequest], stores for
    the inner content of a pair. *)
Definition paramValue (inner : jstring) : any :=
  paramValueOf (parseParameters_depth stack) inner.

End Outcomes.

(** The successive matches (name, inner content) of the tag pattern. *)
Fixpoint siblings_loop (fuel : nat) (content : jstring) : list (jstring * jstring) :=
  match fuel with
  | O => []
  | S f =>
      match RegExp.exec RegExp.tag_here content with
      | None => []
      | Some (paramName, paramValue, rest) =>
          (paramName, paramValue) :: siblings_loop f rest
      end
  end.

Definition siblings (content : jstring) : list (jstring * jstring) :=
  siblings_loop (length content) content.

(** The inner content of the last sibling called [name]. *)
Definition last_occurrence (name : jstring) (l : list (jstring * jstring))
  : option jstring :=
  snd <$> last (filter (fun p => p.1 = name) l).

(** The assignment [parameters[paramName] = ...] for one sibling, given
    the recursive call. *)
Definition store (self : jstring -> result object)
    (parameters : object) (p : jstring * jstring) : object :=
  assign parameters p.1 (paramValueOf self p.2).

(** No sibling is called [__proto__]. *)
Definition plain_names (l : list (jstring * jstring)) : Prop :=
  forall inner, (str "__proto__", inner) ∉ l.

(** The required keys of a tool request, in the order they are checked. *)
Definition required_keys : list jstring :=
  [str "server_name"; str "tool_name"; str "arguments"].

(** The first required key that the parameters lack: absent, or bound to a
    falsy value. *)
Definition first_missing (params : object) : option jstring :=
  List.find (fun k => negb (truthy (get params k))) required_keys.

Definition missing_message (k : jstring) : jstring :=
  str "Missing " ++ k ++ str " in tool request".

(** The request [parseToolRequest] assembles from the parameters and the
    resolved arguments. *)
Definition candidate (params : object) (toolArguments : any)
    (text : jstring) : ParsedToolRequest :=
  {| toolName := get params (str "tool_name");
     serverName := get params (str "server_name");
     arguments := toolArguments;
     raw := text |}.

(** The size of a value: its arrays and objects, nested ones and
    prototypes included. *)
Fixpoint size (v : any) : nat :=
  match v with
  | VArr l => S (list_sum (map size l))
  | VObj proto properties =>
      S (match proto with Some p => size p | None => O end
         + map_fold (fun _ x n => (size x + n)%nat) O properties)
  | _ => O
  end.

(** A structured value: an object or an array. *)
Definition is_structured (v : any) : Prop :=
  (exists proto properties, v = VObj proto properties) \/
  (exists elements, v = VArr elements).

Definition lower_letter (c : N) : Prop := (97 <= c <= 122)%N.
Definition decimal_digit (c : N) : Prop := (48 <= c <= 57)%N.

(** [^[a-z][a-z0-9-]*$] *)
Definition server_name_format (s : jstring) : Prop :=
  exists c r, s = c :: r /\ lower_letter c /\
    Forall (fun d => lower_letter d \/ decimal_digit d \/ d = 45%N) r.

(** [^[a-z][a-z0-9_]*$] *)
Definition tool_name_format (s : jstring) : Prop :=
  exists c r, s = c :: r /\ lower_letter c /\
    Forall (fun d => lower_letter d \/ decimal_digit d \/ d = 95%N) r.

(** The text starts with [open] and ends with [close]. *)
Definition enclosed (open close : N) (t : jstring) : Prop :=
  (exists r, t = open :: r) /\ (exists r, t = r ++ [close]).

(** Rule 4 of the cascade looks at a text in braces or in brackets. *)
Definition bracketed (t : jstring) : Prop :=
  enclosed 123 125 t \/ enclosed 91 93 t.

(** *** Numeric literals *)

Definition sign_opt (s : jstring) : Prop := s = [] \/ s = [43%N] \/ s = [45%N].

(** One or more decimal digits. *)
Definition DecimalDigits (s : jstring) : Prop := s <> [] /\ Forall decimal_digit s.

(** [e] or [E], an optional sign, and digits. *)
Definition ExponentPart (s : jstring) : Prop :=
  exists c sg ds, s = c :: sg ++ ds /\ (c = 101%N \/ c = 69%N) /\
    sign_opt sg /\ DecimalDigits ds.

(** Digits with an optional fraction (a digit on at least one side of the
    point), and an optional exponent. *)
Definition unsigned_decimal (s : jstring) : Prop :=
  exists m ex, s = m ++ ex /\ (ex = [] \/ ExponentPart ex) /\
    ((exists ip fp, m = ip ++ 46%N :: fp /\ Forall decimal_digit ip /\
        Forall decimal_digit fp /\ (ip <> [] \/ fp <> []))
     \/ DecimalDigits m).

(** A decimal literal with an optional sign and an optional exponent. *)
Definition decimal_literal (s : jstring) : Prop :=
  exists sg u, s = sg ++ u /\ sign_opt sg /\ unsigned_decimal u.

(** [Infinity] with an optional sign. *)
Definition infinity_literal (s : jstring) : Prop :=
  exists sg, s = sg ++ str "Infinity" /\ sign_opt sg.

Definition hex_digit (c : N) : Prop :=
  (48 <= c <= 57 \/ 97 <= c <= 102 \/ 65 <= c <= 70)%N.
Definition octal_digit (c : N) : Prop := (48 <= c <= 55)%N.
Definition binary_digit (c : N) : Prop := c = 48%N \/ c = 49%N.

(** [0x], [0o] or [0b], in either case, and digits of that radix; no sign. *)
Definition radix_literal (s : jstring) : Prop :=
  exists p ds, s = 48%N :: p :: ds /\ ds <> [] /\
    (((p = 120%N \/ p = 88%N) /\ Forall hex_digit ds)
     \/ ((p = 111%N \/ p = 79%N) /\ Forall octal_digit ds)
     \/ ((p = 98%N \/ p = 66%N) /\ Forall binary_digit ds)).

(** The strings [Number] converts to a number other than [NaN], the empty
    string apart: the StrNumericLiteral of the language. *)
Definition numeric_literal (s : jstring) : Prop :=
  decimal_literal s \/ infinity_literal s \/ radix_literal s.

Definition is_finite (x : spec_float) : Prop :=
  match x with
  | S754_zero _ | S754_finite _ _ _ => True
  | S754_infinity _ | S754_nan => False
  end.

(** Rule 3 of the cascade in the words of the specification: the text is a
    decimal literal, with an optional sign and an optional exponent, and
    converts to a finite number. *)
Definition finite_decimal (t : jstring) : Prop :=
  decimal_literal t /\ is_finite (Num.Number t).

(** The messages of the five checks of [validateToolRequest]. *)
Definition missing_tool_name : error :=
  XmlParseError (str "Missing tool name").
Definition missing_server_name : error :=
  XmlParseError (str "Missing server_name in tool request").
Definition invalid_arguments : error :=
  XmlParseError (str "Invalid or missing arguments in tool request").
Definition invalid_server_name (shown : jstring) : error :=
  XmlParseError (str "Invalid server name format: " ++ shown).
Definition invalid_tool_name (shown : jstring) : error :=
  XmlParseError (str "Invalid tool name format: " ++ shown).

(** The errors [parseToolRequest] can raise. *)
Definition invalid_format : error :=
  XmlParseError (str "Invalid tool request format").
Definition invalid_json : error :=
  XmlParseError (str "Invalid JSON in tool arguments").

Definition build_error (e : error) : Prop :=
  e = invalid_format \/
  (exists k, k ∈ required_keys /\ e = XmlParseError (missing_message k)) \/
  e = invalid_json \/ e = invalid_arguments \/
  (exists shown, e = invalid_server_name shown) \/
  (exists shown, e = invalid_tool_name shown) \/
  e = TypeError.

(** What a name of a returned request can be: a string in the format, the
    boolean [true], an array, or an object that inherits from an array and
    finds neither [toString] nor [join] as data. *)
Definition accepted_name (format : jstring -> Prop) (name : any) : Prop :=
  match name with
  | VStr s => format s
  | VBool b => b = true
  | VArr _ => True
  | VObj _ _ =>
      chain_end_of name = ArrayPrototype /\
      lookup name (str "toString") = None /\ lookup name (str "join") = None
  | VUndefined | VNull | VNum _ => False
  end.

(** The closing tag of a name. *)
Definition closing_tag (name : jstring) : jstring := str "</" ++ name ++ str ">".

(** An opening tag, content and the closing tag of the same name. *)
Definition tag_pair (name inner : jstring) : jstring :=
  60%N :: name ++ 62%N :: inner ++ closing_tag name.

(** The text holds a complete pair somewhere. *)
Definition has_pair (s : jstring) : Prop :=
  exists pre name inner rest,
    s = pre ++ tag_pair name inner ++ rest /\ name <> [] /\ 62%N ∉ name.

(** ** Sample inputs *)

Module Sample.

Definition tag (name : string) (inner : jstring) : jstring :=
  str "<" ++ str name ++ str ">" ++ inner ++ str "</" ++ str name ++ str ">".

Definition block (inner : jstring) : jstring :=
  RegExp.open_marker ++ inner ++ RegExp.close_marker.

Definition good_inner : jstring :=
  tag "server_name" (str "srv-1") ++ tag "tool_name" (str "do_it")
  ++ tag "arguments" (tag "path" (str "a.txt")).

(** No [tool_name]. *)
Definition no_tool_inner : jstring :=
  tag "server_name" (str "srv-1") ++ tag "arguments" (tag "path" (str "a.txt")).

(** A [server_name] that is a tree with a [toString] key. *)
Definition odd_server_inner : jstring :=
  tag "server_name" (tag "toString" (str "x")) ++ tag "tool_name" (str "do_it")
  ++ tag "arguments" (tag "path" (str "a.txt")).

(** [arguments] that are text, and not JSON. *)
Definition text_arguments_inner : jstring :=
  tag "server_name" (str "srv-1") ++ tag "tool_name" (str "do_it")
  ++ tag "arguments" (str "all of them").

Definition false_server_inner : jstring :=
  tag "server_name" (str "false") ++ tag "tool_name" (str "do_it")
  ++ tag "arguments" (tag "path" (str "a.txt")).

Definition zero_tool_inner : jstring :=
  tag "server_name" (str "srv-1") ++ tag "tool_name" (str "0")
  ++ tag "arguments" (tag "path" (str "a.txt")).

Definition blank_arguments_inner : jstring :=
  tag "server_name" (str "srv-1") ++ tag "tool_name" (str "do_it")
  ++ tag "arguments" (str "  ").

Definition three_blocks : jstring :=
  str "First " ++ block good_inner ++ str ", then " ++ block no_tool_inner
  ++ str " and " ++ block good_inner ++ str ".".

Definition aborted : jstring :=
  block no_tool_inner ++ block odd_server_inner ++ block good_inner.

(** The opening marker again before the first closing marker. *)
Definition reopened : jstring :=
  RegExp.open_marker ++ str "A" ++ RegExp.open_marker ++ str "B"
  ++ RegExp.close_marker ++ str "C" ++ RegExp.close_marker.

Definition repeated : jstring :=
  tag "a" (str "1") ++ tag "b" (str "x") ++ tag "a" (str "2").

Definition nested : jstring := tag "a" (tag "b" (str "1")).

(** The server name only inside a pair called [__proto__]. *)
Definition inherited_server_inner : jstring :=
  tag "__proto__" (tag "server_name" (str "srv-1")) ++ tag "tool_name" (str "do_it")
  ++ tag "arguments" (tag "path" (str "a.txt")).

(** Two pairs called [__proto__]: an array, then text. *)
Definition repeated_proto : jstring :=
  tag "__proto__" (str "[1]") ++ tag "__proto__" (str "x").

(** A server name that is a tree whose prototype is an array of one
    string. *)
Definition array_server_inner : jstring :=
  tag "server_name" (tag "__proto__" (str "[" ++ [34%N] ++ str "abc" ++ [34%N] ++ str "]"))
  ++ tag "tool_name" (str "do_it") ++ tag "arguments" (tag "path" (str "a.txt")).

(** A stack with room for sixteen nested calls. *)
Definition engine : Stack := 16%nat.

(** A stack with no room for a nested call. *)
Definition full_engine : Stack := 0%nat.

End Sample.


(** * Properties *)

Section Parser.

Context {engine : Stack}.

(** ** Strings and patterns *)

Lemma open_marker_length : length RegExp.open_marker = 14.
Proof. reflexivity. Qed.

Lemma close_marker_length : length RegExp.close_marker = 15.
Proof. reflexivity. Qed.

#[local] Opaque RegExp.open_marker RegExp.close_marker.

Lemma startsWith_app (s p : jstring) :
  startsWith s p = true <-> exists r, s = p ++ r.
Proof.
  revert s. induction p as [|a p IH]; intros s; simpl.
  - split; [intros _; by exists s | done].
  - destruct s as [|c s].
    + split; [done | intros [r Hr]; discriminate].
    + rewrite andb_true_iff, N.eqb_eq, IH. split.
      * intros [-> [r ->]]. by exists r.
      * intros [r Hr]. injection Hr as -> ->. split; [done | by exists r].
Qed.

Lemma startsWith_drop (s p : jstring) :
  startsWith s p = true -> s = p ++ drop (length p) s.
Proof.
  intros [r ->]%startsWith_app. by rewrite drop_app_length.
Qed.

Lemma lazy_until_unfold (p s : jstring) :
  RegExp.lazy_until p s =
  if startsWith s p then Some ([], drop (length p) s)
  else match s with
       | [] => None
       | c :: s' =>
           match RegExp.lazy_until p s' with
           | Some (body, rest) => Some (c :: body, rest)
           | None => None
           end
       end.
Proof. by destruct s. Qed.

Lemma lazy_until_Some (p s body rest : jstring) :
  RegExp.lazy_until p s = Some (body, rest) -> first_occurrence p s body rest.
Proof.
  revert body rest. induction s as [|c s IH]; intros body rest;
    rewrite lazy_until_unfold; destruct (startsWith _ p) eqn:Hp.
  - intros [= <- <-]. split; [by apply startsWith_drop | simpl; lia].
  - done.
  - intros [= <- <-]. split; [by apply startsWith_drop | simpl; lia].
  - destruct (RegExp.lazy_until p s) as [[b r]|] eqn:Hs; [|done].
    intros [= <- <-]. destruct (IH _ _ eq_refl) as [-> Hmin]. split; [done|].
    intros [|c' pre'] post' Heq.
    + assert (startsWith (c :: b ++ p ++ r) p = true) as Hp'
        by (apply startsWith_app; by exists post').
      congruence.
    + simpl in Heq. injection Heq as _ Heq. simpl.
      apply Hmin in Heq. lia.
Qed.

Lemma lazy_until_None (p s : jstring) :
  RegExp.lazy_until p s = None -> forall pre post, s <> pre ++ p ++ post.
Proof.
  induction s as [|c s IH]; rewrite lazy_until_unfold;
    destruct (startsWith _ p) eqn:Hp; try done.
  - intros _ [|c pre] post Heq; [|done].
    assert (startsWith [] p = true) by (apply startsWith_app; by exists post).
    congruence.
  - destruct (RegExp.lazy_until p s) as [[b r]|] eqn:Hs; [done|].
    intros _ [|c' pre] post Heq.
    + assert (startsWith (c :: s) p = true) by (apply startsWith_app; by exists post).
      congruence.
    + injection Heq as _ Heq. by eapply IH.
Qed.

Lemma lazy_until_length (p s body rest : jstring) :
  RegExp.lazy_until p s = Some (body, rest) ->
  length s = length body + length p + length rest.
Proof.
  intros [-> _]%lazy_until_Some. rewrite !length_app. lia.
Qed.

Lemma exec_unfold {A : Type} (here : jstring -> option A) (s : jstring) :
  RegExp.exec here s =
  match here s with
  | Some m => Some m
  | None => match s with [] => None | _ :: s' => RegExp.exec here s' end
  end.
Proof. by destruct s. Qed.

(** [exec] finds the leftmost position at which the anchored matcher
    succeeds. *)
Lemma exec_Some {A : Type} (here : jstring -> option A) (s : jstring) (m : A) :
  RegExp.exec here s = Some m ->
  exists pre suf, s = pre ++ suf /\ here suf = Some m /\
    forall pre' suf', s = pre' ++ suf' -> length pre' < length pre -> here suf' = None.
Proof.
  induction s as [|c s IH]; rewrite exec_unfold; destruct (here _) as [m'|] eqn:Hh.
  - intros [= ->]. exists [], []. repeat split; [done|]. simpl; lia.
  - done.
  - intros [= ->]. exists [], (c :: s). repeat split; [done|]. simpl; lia.
  - intros (pre & suf & -> & Hsuf & Hmin)%IH.
    exists (c :: pre), suf. repeat split; [done|].
    intros [|c' pre'] suf' Heq Hlt.
    + simpl in Heq. by subst suf'.
    + injection Heq as _ Heq. simpl in Hlt. apply (Hmin pre'); [done | lia].
Qed.

Lemma exec_None {A : Type} (here : jstring -> option A) (s : jstring) :
  RegExp.exec here s = None -> forall pre suf, s = pre ++ suf -> here suf = None.
Proof.
  induction s as [|c s IH]; rewrite exec_unfold; destruct (here _) as [m'|] eqn:Hh;
    try done.
  - intros _ [|? ?] suf Heq; [|done]. simpl in Heq. by subst.
  - intros Hs [|c' pre] suf Heq.
    + simpl in Heq. by subst.
    + injection Heq as _ Heq. by eapply IH.
Qed.
Lemma app_eq_le {A : Type} (a b c d : list A) :
  a ++ b = c ++ d -> length a <= length c -> exists x, c = a ++ x /\ b = x ++ d.
Proof.
  revert c. induction a as [|h a IH]; intros c Heq Hle.
  - exists c. by simpl in *.
  - destruct c as [|h' c]; [simpl in Hle; lia|].
    injection Heq as -> Heq. simpl in Hle.
    destruct (IH c Heq) as (x & -> & ->); [lia|]. by exists x.
Qed.

Lemma block_here_Some (s body post : jstring) :
  RegExp.block_here s = Some (body, post) ->
  exists after, s = RegExp.open_marker ++ after /\
    first_occurrence RegExp.close_marker after body post.
Proof.
  unfold RegExp.block_here. destruct (startsWith s RegExp.open_marker) eqn:Hs; [|done].
  intros H%lazy_until_Some. eexists. split; [by apply startsWith_drop | done].
Qed.

Lemma block_here_None (after : jstring) :
  RegExp.block_here (RegExp.open_marker ++ after) = None ->
  forall body post, after <> body ++ RegExp.close_marker ++ post.
Proof.
  unfold RegExp.block_here.
  assert (startsWith (RegExp.open_marker ++ after) RegExp.open_marker = true) as ->
    by (apply startsWith_app; by eexists).
  rewrite drop_app_length. apply lazy_until_None.
Qed.

Lemma exec_block_Some (text body post : jstring) :
  RegExp.exec RegExp.block_here text = Some (body, post) ->
  exists pre after,
    first_occurrence RegExp.open_marker text pre after /\
    first_occurrence RegExp.close_marker after body post.
Proof.
  intros (pre & suf & -> & (after & -> & Hclose)%block_here_Some & Hmin)%exec_Some.
  exists pre, after. split; [|done]. split; [done|].
  intros pre' post' Heq. destruct (decide (length pre' < length pre)) as [Hlt|]; [|lia].
  exfalso. pose proof (Hmin _ _ Heq Hlt) as Hnone.
  destruct Hclose as [-> _].
  rewrite (app_assoc pre), (app_assoc _ body), (app_assoc pre') in Heq.
  symmetry in Heq. apply app_eq_le in Heq as (x & _ & Hx).
  - by eapply block_here_None.
  - rewrite !length_app. lia.
Qed.

Lemma exec_block_None (text : jstring) :
  RegExp.exec RegExp.block_here text = None ->
  forall pre body post,
    text <> pre ++ RegExp.open_marker ++ body ++ RegExp.close_marker ++ post.
Proof.
  intros Hnone pre body post Heq.
  pose proof (exec_None _ _ Hnone _ _ Heq) as H.
  by eapply block_here_None.
Qed.

Lemma exec_block_length (text body post : jstring) :
  RegExp.exec RegExp.block_here text = Some (body, post) ->
  length post < length text.
Proof.
  intros (pre & after & [-> _] & [-> _])%exec_block_Some.
  rewrite !length_app, open_marker_length. lia.
Qed.

(** The matches of the block pattern are the blocks of the text. *)
Lemma blocks_loop_Blocks (fuel : nat) (text : jstring) :
  length text <= fuel -> Blocks text (blocks_loop fuel text).
Proof.
  revert text. induction fuel as [|f IH]; intros text Hlen; simpl.
  - destruct text; [|simpl in Hlen; lia].
    apply Blocks_none. intros pre body post Heq.
    apply (f_equal length) in Heq.
    rewrite !length_app, open_marker_length in Heq. simpl in Heq. lia.
  - destruct (RegExp.exec _ text) as [[body post]|] eqn:Hexec.
    + pose proof (exec_block_length _ _ _ Hexec).
      destruct (exec_block_Some _ _ _ Hexec) as (pre & after & Hopen & Hclose).
      eapply Blocks_next; eauto. apply IH. lia.
    + apply Blocks_none. by apply exec_block_None.
Qed.

Lemma first_occurrence_unique (p s pre1 post1 pre2 post2 : jstring) :
  first_occurrence p s pre1 post1 -> first_occurrence p s pre2 post2 ->
  pre1 = pre2 /\ post1 = post2.
Proof.
  intros [H1 Hmin1] [H2 Hmin2].
  pose proof (Hmin1 _ _ H2). pose proof (Hmin2 _ _ H1).
  assert (length pre1 = length pre2) as Hlen by lia.
  rewrite H1 in H2. apply app_inj_1 in H2 as [-> H2]; [|done].
  by apply app_inv_head in H2 as ->.
Qed.

(** A text has one sequence of blocks. *)
Lemma Blocks_unique (text : jstring) (bs1 bs2 : list jstring) :
  Blocks text bs1 -> Blocks text bs2 -> bs1 = bs2.
Proof.
  intros H1. revert bs2. induction H1 as [text Hno|text pre after body post bs Ho Hc _ IH];
    intros bs2 H2; destruct H2 as [text Hno'|text pre' after' body' post' bs' Ho' Hc' H2].
  - done.
  - exfalso. destruct Ho' as [-> _], Hc' as [-> _]. by eapply Hno.
  - exfalso. destruct Ho as [-> _], Hc as [-> _]. by eapply Hno'.
  - destruct (first_occurrence_unique _ _ _ _ _ _ Ho Ho') as [-> ->].
    destruct (first_occurrence_unique _ _ _ _ _ _ Hc Hc') as [-> ->].
    f_equal. by apply IH.
Qed.

(** Fuel beyond the length of the text changes nothing. *)
Lemma blocks_loop_enough (fuel : nat) (text : jstring) :
  length text <= fuel -> blocks_loop fuel text = blocks text.
Proof.
  intros Hlen. eapply Blocks_unique; by apply blocks_loop_Blocks.
Qed.

Lemma blocks_unfold (text : jstring) :
  blocks text =
  match RegExp.exec RegExp.block_here text with
  | None => []
  | Some (content, rest) =>
      (RegExp.open_marker ++ content ++ RegExp.close_marker) :: blocks rest
  end.
Proof.
  rewrite <- (blocks_loop_enough (S (length text))) by lia. simpl.
  destruct (RegExp.exec _ text) as [[content rest]|] eqn:Hexec; [|done].
  apply exec_block_length in Hexec. rewrite blocks_loop_enough by lia. done.
Qed.

Lemma blocks_Blocks (text : jstring) : Blocks text (blocks text).
Proof. by apply blocks_loop_Blocks. Qed.


(** ** Batch extraction *)

Lemma parseToolRequest_raw (text : jstring) (request : ParsedToolRequest) :
  parseToolRequest text = Ok request -> raw request = text.
Proof.
  unfold parseToolRequest.
  destruct (RegExp.exec _ text) as [[content rest]|]; [|done].
  destruct (parseParameters content) as [params|]; [simpl|done].
  repeat (match goal with |- context [if ?b then _ else _] => destruct b end; [done|]).
  match goal with |- (_ <- ?a ;; _) = _ -> _ => destruct a as [args|]; [simpl|done] end.
  match goal with |- (_ <- ?a ;; _) = _ -> _ => destruct a; [simpl|done] end.
  by intros [= <-].
Qed.

Lemma block_outcome (b : jstring) :
  (exists r, parseToolRequest b = Ok r /\ requestOf b = Some r /\
             diagnosticOf b = None /\ unexpectedOf b = None)
  \/ (exists m, parseToolRequest b = Throw (XmlParseError m) /\ requestOf b = None /\
                diagnosticOf b = Some (str "Skipping invalid tool request: " ++ m) /\
                unexpectedOf b = None)
  \/ (exists e, parseToolRequest b = Throw e /\ isXmlParseError e = false /\
                requestOf b = None /\ diagnosticOf b = None /\ unexpectedOf b = Some e).
Proof.
  unfold requestOf, diagnosticOf, unexpectedOf.
  destruct (parseToolRequest b) as [r|[m| | |]]; eauto 10.
Qed.

Lemma loop_tolerated (fuel : nat) (text : jstring)
    (requests : list ParsedToolRequest) (log : list jstring) :
  Forall (fun b => unexpectedOf b = None) (blocks_loop fuel text) ->
  parseToolRequests_loop fuel text requests log =
    (Ok (requests ++ omap requestOf (blocks_loop fuel text)),
     log ++ omap diagnosticOf (blocks_loop fuel text)).
Proof.
  revert text requests log. induction fuel as [|f IH]; intros text requests log; cbn.
  - by rewrite !app_nil_r.
  - destruct (RegExp.exec _ text) as [[content rest]|]; cbn; [|by rewrite !app_nil_r].
    intros [Hb Hrest]%Forall_cons.
    destruct (block_outcome (RegExp.open_marker ++ content ++ RegExp.close_marker))
      as [(r & -> & -> & -> & _)|[(m & -> & -> & -> & _)|(e & _ & _ & _ & _ & He)]].
    + rewrite IH by done. by rewrite <- app_assoc.
    + rewrite IH by done. by rewrite <- app_assoc.
    + congruence.
Qed.

Lemma loop_aborted (fuel : nat) (text : jstring)
    (requests : list ParsedToolRequest) (log : list jstring)
    (bs1 : list jstring) (b : jstring) (bs2 : list jstring) (e : error) :
  blocks_loop fuel text = bs1 ++ b :: bs2 ->
  Forall (fun b => unexpectedOf b = None) bs1 ->
  unexpectedOf b = Some e ->
  parseToolRequests_loop fuel text requests log = (Throw e, log ++ omap diagnosticOf bs1).
Proof.
  revert text requests log bs1.
  induction fuel as [|f IH]; intros text requests log bs1; cbn.
  - by destruct bs1.
  - destruct (RegExp.exec _ text) as [[content rest]|]; cbn; [|by destruct bs1].
    destruct bs1 as [|b1 bs1]; cbn.
    + intros [= <- Hrest] _ He. rewrite app_nil_r.
      destruct (block_outcome (RegExp.open_marker ++ content ++ RegExp.close_marker))
        as [(r & _ & _ & _ & Hu)|[(m & _ & _ & _ & Hu)|(e' & -> & Hx & _ & _ & Hu)]];
        try congruence.
      assert (e' = e) as -> by congruence. by destruct e.
    + intros [= <- Hrest] [Hb Hbs1]%Forall_cons He.
      destruct (block_outcome (RegExp.open_marker ++ content ++ RegExp.close_marker))
        as [(r & -> & _ & -> & _)|[(m & -> & _ & -> & _)|(e' & _ & _ & _ & _ & Hu)]];
        try congruence; cbn.
      * by apply IH.
      * rewrite (IH _ _ _ _ Hrest Hbs1 He). by rewrite <- app_assoc.
Qed.

Lemma omap_outcomes_length (bs : list jstring) :
  Forall (fun b => unexpectedOf b = None) bs ->
  length (omap requestOf bs) + length (omap diagnosticOf bs) = length bs.
Proof.
  induction 1 as [|b bs Hb _ IH]; [done|]. cbn.
  destruct (block_outcome b)
    as [(r & _ & -> & -> & _)|[(m & _ & -> & -> & _)|(e' & _ & _ & _ & _ & Hu)]];
    cbn; [lia | lia | congruence].
Qed.

Lemma requests_in_document_order (bs : list jstring) :
  map raw (omap requestOf bs) `sublist_of` bs.
Proof.
  induction bs as [|b bs IH]; [done|]. simpl.
  unfold requestOf at 1. destruct (parseToolRequest b) as [r|e] eqn:Hb; simpl.
  - rewrite (parseToolRequest_raw _ _ Hb). by apply sublist_skip.
  - by apply sublist_cons.
Qed.

Lemma loop_requests (fuel : nat) (text : jstring)
    (requests acc : list ParsedToolRequest) (log0 log : list jstring) :
  parseToolRequests_loop fuel text acc log0 = (Ok requests, log) ->
  requests = acc ++ omap requestOf (blocks_loop fuel text).
Proof.
  revert text acc log0. induction fuel as [|f IH]; intros text acc log0; cbn.
  - intros [= <- _]. by rewrite app_nil_r.
  - destruct (RegExp.exec _ text) as [[content rest]|]; cbn;
      [|intros [= <- _]; by rewrite app_nil_r].
    destruct (block_outcome (RegExp.open_marker ++ content ++ RegExp.close_marker))
      as [(r & -> & -> & _)|[(m & -> & -> & _)|(e' & -> & Hx & -> & _)]].
    + intros ->%IH. by rewrite <- app_assoc.
    + by intros ->%IH.
    + by destruct e'.
Qed.

(** C1.  Batch extraction isolates parse failures.  When no block raises
    anything but an [XmlParseError], the extraction returns the requests of
    the blocks that build, in order, and logs exactly one diagnostic for
    each block that fails, so requests and diagnostics together count the
    blocks.  When some block raises another error, the first such error
    leaves [parseToolRequests], and no later block is looked at. *)
Theorem extraction_isolates_parse_failures (text : jstring) :
  (Forall (fun b => unexpectedOf b = None) (blocks text) ->
     parseToolRequests text =
       (Ok (omap requestOf (blocks text)), omap diagnosticOf (blocks text)) /\
     length (omap requestOf (blocks text)) + length (omap diagnosticOf (blocks text))
       = length (blocks text)) /\
  (forall bs1 b bs2 e,
     blocks text = bs1 ++ b :: bs2 ->
     Forall (fun b => unexpectedOf b = None) bs1 ->
     unexpectedOf b = Some e ->
     parseToolRequests text = (Throw e, omap diagnosticOf bs1)).
Proof.
  split.
  - intros Hok. split; [|by apply omap_outcomes_length].
    unfold parseToolRequests, blocks. by rewrite loop_tolerated.
  - intros bs1 b bs2 e Hbs Hok He. unfold parseToolRequests.
    by rewrite (loop_aborted _ _ _ _ _ _ _ _ Hbs Hok He).
Qed.

(** The loop, whatever it has collected so far, goes through the blocks
    that are left as the specification says. *)
Lemma loop_extract (fuel : nat) (text : jstring)
    (requests : list ParsedToolRequest) (log : list jstring) :
  parseToolRequests_loop fuel text requests log =
  (match (extract_blocks (blocks_loop fuel text)).1 with
   | Ok found => Ok (requests ++ found)
   | Throw e => Throw e
   end, log ++ (extract_blocks (blocks_loop fuel text)).2).
Proof.
  revert text requests log. induction fuel as [|f IH]; intros text requests log; cbn.
  - by rewrite !app_nil_r.
  - destruct (RegExp.exec _ text) as [[content rest]|]; cbn; [|by rewrite !app_nil_r].
    destruct (parseToolRequest _) as [r|[m| | |]]; cbn; rewrite ?app_nil_r; try done.
    + rewrite IH. destruct (extract_blocks _).1; [|done]. by rewrite <- app_assoc.
    + rewrite IH. by rewrite <- app_assoc.
Qed.

(** C7.  The blocks an extraction works on are the blocks of the text: each
    runs from the first opening marker to the nearest closing marker after
    it, whatever lies between them, and the text has no other sequence of
    blocks.  For every text the extraction is what building these blocks one
    after the other in document order gives: it returns for every text, and
    the requests it returns are those of the blocks that build, in document
    order. *)
Theorem extraction_nearest_closing_marker_in_order (text : jstring) :
  Blocks text (blocks text) /\
  (forall bs, Blocks text bs -> bs = blocks text) /\
  parseToolRequests text = extract_blocks (blocks text) /\
  (forall requests log,
     parseToolRequests text = (Ok requests, log) ->
     requests = omap requestOf (blocks text) /\
     map raw requests `sublist_of` blocks text).
Proof.
  split; [apply blocks_Blocks|]. split; [|split].
  - intros bs Hbs. eapply Blocks_unique; [done | apply blocks_Blocks].
  - unfold parseToolRequests. rewrite loop_extract. fold (blocks text). simpl.
    destruct (extract_blocks (blocks text)) as [[found|e] log]; done.
  - intros requests log ->%loop_requests. simpl. split; [done|].
    apply requests_in_document_order.
Qed.

(** ** The parameter tree *)

Lemma name_until_gt_Some (s name rest : jstring) :
  RegExp.name_until_gt s = Some (name, rest) ->
  s = name ++ 62%N :: rest /\ name <> [] /\ 62%N ∉ name.
Proof.
  revert name rest. induction s as [|c s IH]; intros name rest; simpl; [done|].
  destruct (N.eqb_spec c 62) as [|Hc]; [done|].
  destruct s as [|d s]; [done|].
  destruct (N.eqb_spec d 62) as [->|Hd].
  - intros [= <- <-]. repeat split; [done|]. intros ?%list_elem_of_singleton. congruence.
  - destruct (RegExp.name_until_gt (d :: s)) as [[n r]|]; [|done].
    intros [= <- <-]. destruct (IH _ _ eq_refl) as (-> & _ & Hn).
    repeat split; [done|]. intros [?|?]%elem_of_cons; [congruence | done].
Qed.

Lemma tag_here_Some (s name body rest : jstring) :
  RegExp.tag_here s = Some (name, body, rest) ->
  name <> [] /\
  s = 60%N :: name ++ 62%N :: body ++ (str "</" ++ name ++ str ">") ++ rest.
Proof.
  unfold RegExp.tag_here. destruct s as [|c s]; [done|].
  destruct (N.eqb_spec c 60) as [->|Hc]; [|done].
  destruct (RegExp.name_until_gt s) as [[n s2]|] eqn:Hn; [|done].
  destruct (RegExp.lazy_until _ s2) as [[b r]|] eqn:Hb; [|done].
  intros [= <- <- <-]. apply name_until_gt_Some in Hn as (-> & Hne & _).
  apply lazy_until_Some in Hb as [-> _]. done.
Qed.

Lemma exec_tag_length (s name body rest : jstring) :
  RegExp.exec RegExp.tag_here s = Some (name, body, rest) ->
  length body < length s /\ length rest < length s.
Proof.
  intros (pre & suf & -> & (_ & ->)%tag_here_Some & _)%exec_Some.
  repeat (rewrite length_app || rewrite length_cons). lia.
Qed.

(** Fuel beyond the length of the content changes nothing. *)
Lemma siblings_loop_irrelevant (f1 f2 : nat) (content : jstring) :
  length content <= f1 -> length content <= f2 ->
  siblings_loop f1 content = siblings_loop f2 content.
Proof.
  revert f2 content. induction f1 as [|f1 IH]; intros [|f2] content H1 H2.
  - done.
  - destruct content; [done | simpl in H1; lia].
  - destruct content; [done | simpl in H2; lia].
  - simpl. destruct (RegExp.exec _ content) as [[[name value] rest]|] eqn:Hexec; [|done].
    apply exec_tag_length in Hexec as [_ Hrest]. f_equal. apply IH; lia.
Qed.

Lemma siblings_loop_enough (fuel : nat) (content : jstring) :
  length content <= fuel -> siblings_loop fuel content = siblings content.
Proof. intros Hlen. by apply siblings_loop_irrelevant. Qed.

Lemma siblings_unfold (content : jstring) :
  siblings content =
  match RegExp.exec RegExp.tag_here content with
  | None => []
  | Some (paramName, paramValue, rest) => (paramName, paramValue) :: siblings rest
  end.
Proof.
  rewrite <- (siblings_loop_enough (S (length content))) by lia. simpl.
  destruct (RegExp.exec _ content) as [[[name value] rest]|] eqn:Hexec; [|done].
  apply exec_tag_length in Hexec as [_ Hrest].
  rewrite siblings_loop_enough by lia. done.
Qed.

(** *** Assignment and the prototype chain *)

Lemma proto_key_required (k : jstring) :
  k ∈ required_keys -> k <> str "__proto__".
Proof.
  unfold required_keys. intros Hk ->.
  repeat (apply elem_of_cons in Hk as [Hk|Hk]; [by vm_compute in Hk|]).
  by apply elem_of_nil in Hk.
Qed.

(** A name other than [__proto__] is written on the object itself. *)
Lemma assign_plain (o : object) (k : jstring) (v : any) :
  k <> str "__proto__" -> assign o k v = (prototype o, <[k := v]> (own o)).
Proof. intros Hk. unfold assign. by rewrite bool_decide_eq_false_2. Qed.

(** An assignment leaves the other own properties alone. *)
Lemma assign_own_ne (o : object) (n k : jstring) (v : any) :
  n <> k -> own (assign o n v) !! k = own o !! k.
Proof.
  intros Hn. unfold assign.
  destruct (bool_decide _); [|by apply lookup_insert_ne].
  destruct (lookup _ _); [by apply lookup_insert_ne|].
  destruct (chain_end_of _); try (by apply lookup_insert_ne); by destruct v.
Qed.

(** An own property after an assignment is the value assigned or an own
    property from before. *)
Lemma assign_own_inv (o : object) (n k : jstring) (v x : any) :
  own (assign o n v) !! k = Some x -> (k = n /\ x = v) \/ own o !! k = Some x.
Proof.
  destruct (decide (n = k)) as [->|Hn]; [|rewrite assign_own_ne by done; by right].
  unfold assign.
  assert (<[k := v]> (own o) !! k = Some x -> (k = k /\ x = v) \/ own o !! k = Some x)
    as Hins by (rewrite lookup_insert_eq; intros [= <-]; by left).
  destruct (bool_decide _); [|done].
  destruct (lookup _ _); [done|].
  destruct (chain_end_of _); try done; destruct v; by right.
Qed.

(** A read finds an own property before it looks at the prototype. *)
Lemma get_own (o : object) (k : jstring) (v : any) :
  own o !! k = Some v -> get o k = v.
Proof. unfold get, VObject. simpl. by intros ->. Qed.


(** A list of siblings is checked for the name [__proto__] by running
    through it. *)
Lemma plain_names_check (l : list (jstring * jstring)) :
  forallb (fun p => negb (bool_decide (p.1 = str "__proto__"))) l = true ->
  plain_names l.
Proof.
  intros Hall inner Hin. rewrite forallb_forall in Hall.
  apply list_elem_of_In, Hall in Hin. cbn [fst] in Hin.
  apply negb_true_iff, bool_decide_eq_false in Hin. by destruct Hin.
Qed.

Section Activation_facts.

Variable self : jstring -> result object.

(** The loop stores the siblings one after the other. *)
Lemma parseParameters_loop_siblings (fuel : nat) (content : jstring)
    (parameters : object) :
  parseParameters_loop self fuel content parameters =
  fold_left (store self) (siblings_loop fuel content) parameters.
Proof.
  revert content parameters. induction fuel as [|f IH]; intros content parameters;
    simpl; [done|].
  destruct (RegExp.exec _ content) as [[[name value] rest]|]; [|done].
  simpl. by rewrite IH.
Qed.

(** The own property of a name other than [__proto__] is the value of the
    last sibling of that name. *)
Lemma fold_store_lookup (l : list (jstring * jstring))
    (parameters : object) (name : jstring) :
  name <> str "__proto__" ->
  own (fold_left (store self) l parameters) !! name =
  match last_occurrence name l with
  | Some v => Some (paramValueOf self v)
  | None => own parameters !! name
  end.
Proof.
  intros Hname. revert parameters.
  induction l as [|[n v] l IH]; intros parameters; [done|].
  simpl. rewrite IH. unfold last_occurrence, store. simpl.
  rewrite filter_cons. simpl. destruct (decide (n = name)) as [->|Hn].
  - destruct (filter _ l) as [|p l'] eqn:Hl; simpl.
    + rewrite assign_plain by done. simpl. by rewrite lookup_insert_eq.
    + rewrite last_cons. by destruct (last l').
  - destruct (last (filter _ l)); simpl; [done|]. by apply assign_own_ne.
Qed.

(** Every own property was assigned for a sibling of that name. *)
Lemma fold_store_own (l : list (jstring * jstring)) (parameters : object)
    (k : jstring) (x : any) :
  own (fold_left (store self) l parameters) !! k = Some x ->
  (exists inner, (k, inner) ∈ l /\ x = paramValueOf self inner) \/
  own parameters !! k = Some x.
Proof.
  revert parameters. induction l as [|[n v] l IH]; intros parameters; [by right|].
  simpl. intros [(inner & Hin & ->)|Hown]%IH.
  - left. exists inner. split; [by right | done].
  - apply assign_own_inv in Hown as [[-> ->]|Hown]; [|by right].
    left. exists v. split; [by left | done].
Qed.

(** Only a sibling called [__proto__] changes the prototype. *)
Lemma fold_store_prototype (l : list (jstring * jstring)) (parameters : object) :
  plain_names l ->
  prototype (fold_left (store self) l parameters) = prototype parameters.
Proof.
  revert parameters. induction l as [|[n v] l IH]; intros parameters Hplain; [done|].
  simpl. rewrite IH.
  - unfold store. simpl. rewrite assign_plain; [done|].
    intros ->. apply (Hplain v). by left.
  - intros inner Hin. apply (Hplain inner). by right.
Qed.

End Activation_facts.

(** One activation of [parseParameters] with the stack left to it. *)
Lemma parseParameters_depth_siblings (depth : nat) (content : jstring) :
  parseParameters_depth (S depth) content =
  Ok (fold_left (store (parseParameters_depth depth)) (siblings content) empty_object).
Proof. simpl. by rewrite parseParameters_loop_siblings. Qed.

Lemma parseParameters_siblings (content : jstring) :
  parseParameters content =
  Ok (fold_left (store (parseParameters_depth stack)) (siblings content) empty_object).
Proof. apply parseParameters_depth_siblings. Qed.

Lemma last_occurrence_app (name v : jstring) (l1 l2 : list (jstring * jstring)) :
  (forall v', (name, v') ∉ l2) ->
  last_occurrence name (l1 ++ (name, v) :: l2) = Some v.
Proof.
  intros Hl2. unfold last_occurrence.
  rewrite filter_app, filter_cons. simpl. rewrite decide_True by done.
  assert (filter (fun p : jstring * jstring => p.1 = name) l2 = []) as ->.
  { clear -Hl2. induction l2 as [|[n v'] l2 IH]; [done|].
    rewrite filter_cons. simpl. destruct (decide (n = name)) as [->|_].
    - exfalso. apply (Hl2 v'). by left.
    - apply IH. intros v'' Hin. apply (Hl2 v''). by right. }
  by rewrite last_snoc.
Qed.

Lemma parseParameters_lookup (content : jstring) (params : object)
    (name : jstring) :
  parseParameters content = Ok params ->
  name <> str "__proto__" ->
  own params !! name = paramValue <$> last_occurrence name (siblings content).
Proof.
  rewrite parseParameters_siblings. intros [= <-] Hname.
  rewrite fold_store_lookup by done.
  by destruct (last_occurrence name (siblings content)).
Qed.

(** In a tree built without a pair called [__proto__], a read is a read of
    an own property. *)
Lemma parseParameters_plain (content : jstring) (params : object) (k : jstring) :
  parseParameters content = Ok params ->
  plain_names (siblings content) ->
  prototype params = None /\ get params k = default VUndefined (own params !! k).
Proof.
  rewrite parseParameters_siblings. intros [= <-] Hplain.
  pose proof (fold_store_prototype (parseParameters_depth stack) _ empty_object Hplain)
    as Hproto.
  split; [done|]. unfold get, VObject. simpl. rewrite Hproto. simpl.
  by destruct (_ !! k).
Qed.

(** The only failure of [parseParameters] is the activation that does not
    fit on the stack. *)
Lemma parseParameters_depth_Throw (depth : nat) (content : jstring) (e : error) :
  parseParameters_depth depth content = Throw e -> depth = 0 /\ e = RangeError.
Proof. destruct depth; [by intros [= <-] | done]. Qed.

(** X18.  The tree [parseParameters] returns binds each name other than
    [__proto__] to the value of the last sibling pair with that name; when
    such a name is matched more than once, the values of its earlier pairs
    are gone.  Without a pair called [__proto__] the tree keeps the
    prototype of [{}]. *)
Theorem repeated_sibling_keeps_last (content : jstring) :
  exists params,
    parseParameters content = Ok params /\
    (forall name, name <> str "__proto__" ->
       own params !! name = paramValue <$> last_occurrence name (siblings content)) /\
    (forall name v1 v2 l1 l2 l3,
       name <> str "__proto__" ->
       siblings content = l1 ++ (name, v1) :: l2 ++ (name, v2) :: l3 ->
       (forall v, (name, v) ∉ l3) ->
       own params !! name = Some (paramValue v2) /\ get params name = paramValue v2) /\
    (plain_names (siblings content) -> prototype params = None).
Proof.
  eexists. split; [apply parseParameters_siblings|].
  pose proof (parseParameters_siblings content) as Hparams.
  assert (forall name, name <> str "__proto__" ->
    own (fold_left (store (parseParameters_depth stack)) (siblings content) empty_object)
      !! name =
    paramValue <$> last_occurrence name (siblings content)) as Hlookup.
  { intros name Hname. by apply parseParameters_lookup. }
  split; [done|]. split.
  - intros name v1 v2 l1 l2 l3 Hname Hs Hl3.
    assert (own (fold_left (store (parseParameters_depth stack)) (siblings content)
                   empty_object) !! name = Some (paramValue v2)) as Hown.
    { rewrite Hlookup, Hs by done.
      replace (l1 ++ (name, v1) :: l2 ++ (name, v2) :: l3)
        with ((l1 ++ (name, v1) :: l2) ++ (name, v2) :: l3)
        by (by rewrite <- app_assoc).
      by rewrite last_occurrence_app. }
    split; [done|]. by apply get_own.
  - intros Hplain. by apply (parseParameters_plain content _ [] Hparams).
Qed.

(** C9.  An activation of [parseParameters] that fits on the stack returns
    a tree, whatever the calls below it do: it assigns, pair after pair, the
    value it has for the inner content.  Where the inner content has nested
    tags and the recursive call on it raises an error, whichever it is, that
    value is the normalized inner content, and it is the own property of the
    name when this is the last pair of a name other than [__proto__].  The
    recursive call does raise an error, [RangeError], when the stack has no
    room for it, and only then. *)
Theorem nested_failure_falls_back (depth : nat) (content : jstring) :
  parseParameters_depth (S depth) content =
    Ok (fold_left
          (fun parameters p =>
             assign parameters p.1 (paramValueOf (parseParameters_depth depth) p.2))
          (siblings content) empty_object) /\
  (forall self inner e,
     hasNestedTags inner = true ->
     self inner = Throw e ->
     paramValueOf self inner = normalizeValue inner) /\
  (forall params name inner e,
     parseParameters_depth (S depth) content = Ok params ->
     last_occurrence name (siblings content) = Some inner ->
     name <> str "__proto__" ->
     hasNestedTags inner = true ->
     parseParameters_depth depth inner = Throw e ->
     own params !! name = Some (normalizeValue inner)) /\
  (forall inner, parseParameters_depth 0 inner = Throw RangeError) /\
  (forall inner e,
     parseParameters_depth depth inner = Throw e -> depth = 0 /\ e = RangeError).
Proof.
  split; [apply parseParameters_depth_siblings|].
  assert (forall self inner e,
     hasNestedTags inner = true ->
     self inner = Throw e ->
     paramValueOf self inner = normalizeValue inner) as Hfall.
  { intros self inner e Hnested Hself. unfold paramValueOf. by rewrite Hnested, Hself. }
  split; [done|]. split; [|split; [done|]].
  - intros params name inner e Hparams Hlast Hname Hnested Hself.
    rewrite parseParameters_depth_siblings in Hparams. injection Hparams as <-.
    rewrite fold_store_lookup, Hlast by done. f_equal. by eapply Hfall.
  - apply parseParameters_depth_Throw.
Qed.

(** ** Building one request *)


Lemma parseToolRequest_missing (text content rest : jstring)
    (params : object) (k : jstring) :
  RegExp.exec RegExp.block_here text = Some (content, rest) ->
  parseParameters content = Ok params ->
  first_missing params = Some k ->
  parseToolRequest text = Throw (XmlParseError (missing_message k)).
Proof.
  intros Hexec Hparams. unfold parseToolRequest. rewrite Hexec, Hparams. simpl.
  unfold first_missing, required_keys. simpl.
  destruct (truthy (get params (str "server_name"))); simpl; [|by intros [= <-]].
  destruct (truthy (get params (str "tool_name"))); simpl; [|by intros [= <-]].
  destruct (truthy (get params (str "arguments"))); simpl; [done|by intros [= <-]].
Qed.

Lemma parseToolRequest_complete (text content rest : jstring)
    (params : object) :
  RegExp.exec RegExp.block_here text = Some (content, rest) ->
  parseParameters content = Ok params ->
  first_missing params = None ->
  parseToolRequest text =
    (toolArguments <-
       match get params (str "arguments") with
       | VStr s =>
           try_catch (JSON.parse s)
             (fun _ => Throw (XmlParseError (str "Invalid JSON in tool arguments")))
       | v => Ok v
       end ;;
     _ <- validateToolRequest (candidate params toolArguments text) ;;
     Ok (candidate params toolArguments text)).
Proof.
  intros Hexec Hparams. unfold parseToolRequest. rewrite Hexec, Hparams. simpl.
  unfold first_missing, required_keys. simpl.
  destruct (truthy (get params (str "server_name"))); simpl; [|done].
  destruct (truthy (get params (str "tool_name"))); simpl; [|done].
  destruct (truthy (get params (str "arguments"))); simpl; [done|done].
Qed.

Lemma first_missing_at (params : object)
    (earlier : list jstring) (k : jstring) (later : list jstring) :
  required_keys = earlier ++ k :: later ->
  Forall (fun k' => truthy (get params k') = true) earlier ->
  truthy (get params k) = false ->
  first_missing params = Some k.
Proof.
  unfold first_missing. intros -> Hearlier Hk.
  induction Hearlier as [|k' earlier Hk' _ IH]; simpl.
  - by rewrite Hk.
  - by rewrite Hk'.
Qed.

Lemma first_missing_None (params : object) :
  first_missing params = None ->
  Forall (fun k => truthy (get params k) = true) required_keys.
Proof.
  unfold first_missing. intros Hnone.
  apply Forall_forall. intros k Hk.
  pose proof (find_none _ _ Hnone k) as H.
  destruct (truthy (get params k)) eqn:Hget; [done|].
  apply list_elem_of_In, H in Hk. simpl in Hk. by rewrite Hget in Hk.
Qed.

Lemma parseToolRequest_Ok_complete (text content rest : jstring)
    (params : object) (request : ParsedToolRequest) :
  RegExp.exec RegExp.block_here text = Some (content, rest) ->
  parseParameters content = Ok params ->
  parseToolRequest text = Ok request ->
  first_missing params = None.
Proof.
  intros Hexec Hparams Hok.
  destruct (first_missing params) as [k|] eqn:Hk; [|done].
  by rewrite (parseToolRequest_missing _ _ _ _ _ Hexec Hparams Hk) in Hok.
Qed.

(** X17.  [parseToolRequest] reads [server_name], [tool_name] and
    [arguments] from the tree in this order and stops at the first read
    that is falsy, with the "Missing" error that names this key, whatever
    the later keys hold.  In a tree built without a pair called [__proto__],
    a key with no pair of its own reads [undefined] and so counts as
    missing.  A build that returns a request found all three reads
    truthy. *)
Theorem required_keys_checked_in_order (text content rest : jstring)
    (params : object) :
  RegExp.exec RegExp.block_here text = Some (content, rest) ->
  parseParameters content = Ok params ->
  (forall earlier k later,
     required_keys = earlier ++ k :: later ->
     Forall (fun k' => truthy (get params k') = true) earlier ->
     truthy (get params k) = false ->
     parseToolRequest text = Throw (XmlParseError (missing_message k))) /\
  (forall earlier k later,
     required_keys = earlier ++ k :: later ->
     Forall (fun k' => truthy (get params k') = true) earlier ->
     plain_names (siblings content) ->
     last_occurrence k (siblings content) = None ->
     get params k = VUndefined /\
     parseToolRequest text = Throw (XmlParseError (missing_message k))) /\
  (forall request,
     parseToolRequest text = Ok request ->
     Forall (fun k => truthy (get params k) = true) required_keys) /\
  map missing_message required_keys =
    [str "Missing server_name in tool request";
     str "Missing tool_name in tool request";
     str "Missing arguments in tool request"].
Proof.
  intros Hexec Hparams.
  assert (forall earlier k later,
     required_keys = earlier ++ k :: later ->
     Forall (fun k' => truthy (get params k') = true) earlier ->
     truthy (get params k) = false ->
     parseToolRequest text = Throw (XmlParseError (missing_message k))) as Hfirst.
  { intros earlier k later Hkeys Hearlier Hfalsy.
    eapply parseToolRequest_missing; [done..|]. by eapply first_missing_at. }
  split; [done|]. split; [|split; [|done]].
  - intros earlier k later Hkeys Hearlier Hplain Hlast.
    assert (get params k = VUndefined) as Hget.
    { destruct (parseParameters_plain _ _ k Hparams Hplain) as [_ ->].
      rewrite (parseParameters_lookup _ _ k Hparams), Hlast; [done|].
      apply proto_key_required. rewrite Hkeys. apply elem_of_app. right. by left. }
    split; [done|]. eapply Hfirst; [done..|]. by rewrite Hget.
  - intros request Hok.
    by eapply first_missing_None, parseToolRequest_Ok_complete.
Qed.

(** C3.  Once the three keys have passed their check: when [arguments] is
    a string, [parseToolRequest] parses it with [JSON.parse]; a failure of
    that parse is the error "Invalid JSON in tool arguments", and a result
    becomes the arguments of the request that goes on to validation.  When
    [arguments] is not a string, it is itself the arguments of the request
    that goes on to validation, and of the request returned. *)
Theorem arguments_text_parsed_tree_kept (text content rest : jstring)
    (params : object) :
  RegExp.exec RegExp.block_here text = Some (content, rest) ->
  parseParameters content = Ok params ->
  first_missing params = None ->
  (forall s, get params (str "arguments") = VStr s ->
     (forall e, JSON.parse s = Throw e ->
        parseToolRequest text =
          Throw (XmlParseError (str "Invalid JSON in tool arguments"))) /\
     (forall v, JSON.parse s = Ok v ->
        parseToolRequest text =
          (_ <- validateToolRequest (candidate params v text) ;;
           Ok (candidate params v text)))) /\
  (typeof (get params (str "arguments")) <> str "string" ->
     parseToolRequest text =
       (_ <- validateToolRequest
               (candidate params (get params (str "arguments")) text) ;;
        Ok (candidate params (get params (str "arguments")) text)) /\
     forall request, parseToolRequest text = Ok request ->
       arguments request = get params (str "arguments")).
Proof.
  intros Hexec Hparams Hcomplete.
  rewrite (parseToolRequest_complete _ _ _ _ Hexec Hparams Hcomplete). split.
  - intros s ->. split.
    + by intros e ->.
    + by intros v ->.
  - intros Htype.
    assert (forall (k : any -> result ParsedToolRequest),
      (toolArguments <-
         match get params (str "arguments") with
         | VStr s =>
             try_catch (JSON.parse s)
               (fun _ => Throw (XmlParseError (str "Invalid JSON in tool arguments")))
         | v => Ok v
         end ;; k toolArguments) = k (get params (str "arguments"))) as ->
      by (intros k; by destruct (get params (str "arguments"))).
    split; [done|]. intros request.
    destruct (validateToolRequest _); [|done]. simpl. by intros [= <-].
Qed.

(** C10.  A required key whose last pair in the block holds plain content
    that normalizes to a falsy value is in the tree, and yet, the keys
    before it passing their check, the build stops with the "Missing" error
    that names this key, the error of an absent key.  The contents [false],
    [0] and the blank ones normalize to the falsy values [false], [0] and
    the empty string. *)
Theorem falsy_required_value_counts_as_missing (text content rest : jstring)
    (params : object) (earlier : list jstring) (k : jstring)
    (later : list jstring) (inner : jstring) :
  RegExp.exec RegExp.block_here text = Some (content, rest) ->
  parseParameters content = Ok params ->
  required_keys = earlier ++ k :: later ->
  Forall (fun k' => truthy (get params k') = true) earlier ->
  last_occurrence k (siblings content) = Some inner ->
  hasNestedTags inner = false ->
  truthy (normalizeValue inner) = false ->
  own params !! k = Some (normalizeValue inner) /\
  parseToolRequest text = Throw (XmlParseError (missing_message k)) /\
  normalizeValue (str "false") = VBool false /\
  normalizeValue (str "0") = VNum (S754_zero false) /\
  (forall blank, trim blank = [] -> normalizeValue blank = VStr []).
Proof.
  intros Hexec Hparams Hkeys Hearlier Hlast Hflat Hfalsy.
  assert (own params !! k = Some (normalizeValue inner)) as Hk.
  { rewrite (parseParameters_lookup _ _ k Hparams), Hlast.
    - simpl. unfold paramValue, paramValueOf. by rewrite Hflat.
    - apply proto_key_required. rewrite Hkeys. apply elem_of_app. right. by left. }
  split; [done|]. split; [|split; [|split]].
  - eapply parseToolRequest_missing; [done..|].
    eapply first_missing_at; [done..|]. by rewrite (get_own _ _ _ Hk).
  - by vm_compute.
  - by vm_compute.
  - intros blank Hblank. unfold normalizeValue. by rewrite Hblank.
Qed.

(** ** Validation *)

Lemma isLower_spec (c : N) : RegExp.isLower c = true <-> lower_letter c.
Proof. unfold RegExp.isLower, lower_letter. rewrite andb_true_iff, !N.leb_le. done. Qed.

Lemma isDigit_spec (c : N) : Num.isDigit c = true <-> decimal_digit c.
Proof. unfold Num.isDigit, decimal_digit. rewrite andb_true_iff, !N.leb_le. done. Qed.

Lemma name_tail_spec (extra : N) (r : jstring) :
  forallb (fun d => RegExp.isLower d || Num.isDigit d || (d =? extra)%N) r = true <->
  Forall (fun d => lower_letter d \/ decimal_digit d \/ d = extra) r.
Proof.
  induction r as [|d r IH]; simpl; [by split|].
  rewrite andb_true_iff, IH, Forall_cons, !orb_true_iff, isLower_spec, isDigit_spec,
    N.eqb_eq. tauto.
Qed.

Lemma name_pattern_spec (extra : N) (s : jstring) :
  match s with
  | c :: r =>
      RegExp.isLower c &&
      forallb (fun d => RegExp.isLower d || Num.isDigit d || (d =? extra)%N) r
  | [] => false
  end = true <->
  exists c r, s = c :: r /\ lower_letter c /\
    Forall (fun d => lower_letter d \/ decimal_digit d \/ d = extra) r.
Proof.
  destruct s as [|c r].
  - split; [done | by intros (c & r & ? & _)].
  - rewrite andb_true_iff, isLower_spec, name_tail_spec. split.
    + intros [Hc Hr]. by exists c, r.
    + by intros (c' & r' & [= <- <-] & Hc & Hr).
Qed.

Lemma serverNamePattern_spec (s : jstring) :
  RegExp.serverNamePattern s = true <-> server_name_format s.
Proof. apply name_pattern_spec. Qed.

Lemma toolNamePattern_spec (s : jstring) :
  RegExp.toolNamePattern s = true <-> tool_name_format s.
Proof. apply name_pattern_spec. Qed.

Lemma structured_spec (v : any) :
  negb (truthy v) || negb (bool_decide (typeof v = str "object")) = false <->
  is_structured v.
Proof.
  unfold is_structured. destruct v as [| |b|x|s|l|p m]; simpl;
    try (split; [done | by intros [(? & ? & ?)|[? ?]]]).
  - rewrite orb_true_r. split; [done | by intros [(? & ? & ?)|[? ?]]].
  - rewrite orb_true_r. split; [done | by intros [(? & ? & ?)|[? ?]]].
  - rewrite orb_true_r. split; [done | by intros [(? & ? & ?)|[? ?]]].
  - split; [intros _; right; by eexists | done].
  - split; [intros _; left; by eexists _, _ | done].
Qed.

Lemma truthy_VStr (s : jstring) : truthy (VStr s) = false <-> s = [].
Proof.
  simpl. rewrite negb_false_iff, bool_decide_eq_true. done.
Qed.

(** C4.  On a request whose names are strings, [validateToolRequest] runs
    five checks in a fixed order and stops at the first that fails: the tool
    name is not empty, the server name is not empty, the arguments are an
    object or an array, the server name has the format
    [^[a-z][a-z0-9-]*$], the tool name has the format [^[a-z][a-z0-9_]*$].
    Each check has an error of its own.  The server name [Server1] fails
    the fourth check, and arguments that are a string fail the third. *)
Theorem validate_checks_in_order (tn sn : jstring) (args : any) (text : jstring) :
  let request := {| toolName := VStr tn; serverName := VStr sn;
                    arguments := args; raw := text |} in
  (tn = [] -> validateToolRequest request = Throw missing_tool_name) /\
  (tn <> [] -> sn = [] -> validateToolRequest request = Throw missing_server_name) /\
  (tn <> [] -> sn <> [] -> ~ is_structured args ->
     validateToolRequest request = Throw invalid_arguments) /\
  (tn <> [] -> sn <> [] -> is_structured args -> ~ server_name_format sn ->
     validateToolRequest request = Throw (invalid_server_name sn)) /\
  (tn <> [] -> sn <> [] -> is_structured args -> server_name_format sn ->
     ~ tool_name_format tn ->
     validateToolRequest request = Throw (invalid_tool_name tn)) /\
  (tn <> [] -> sn <> [] -> is_structured args -> server_name_format sn ->
     tool_name_format tn ->
     validateToolRequest request = Ok tt) /\
  NoDup [missing_tool_name; missing_server_name; invalid_arguments;
         invalid_server_name sn; invalid_tool_name tn] /\
  (tn <> [] -> is_structured args ->
     validateToolRequest {| toolName := VStr tn; serverName := VStr (str "Server1");
                            arguments := args; raw := text |}
       = Throw (invalid_server_name (str "Server1"))) /\
  (forall s, tn <> [] -> sn <> [] ->
     validateToolRequest {| toolName := VStr tn; serverName := VStr sn;
                            arguments := VStr s; raw := text |}
       = Throw invalid_arguments).
Proof.
  assert (forall tn sn args,
    validateToolRequest {| toolName := VStr tn; serverName := VStr sn;
                           arguments := args; raw := text |} =
    if truthy (VStr tn) then
      if truthy (VStr sn) then
        if negb (truthy args) || negb (bool_decide (typeof args = str "object"))
        then Throw invalid_arguments
        else if RegExp.serverNamePattern sn then
               if RegExp.toolNamePattern tn then Ok tt
               else Throw (invalid_tool_name tn)
             else Throw (invalid_server_name sn)
      else Throw missing_server_name
    else Throw missing_tool_name) as Hunfold.
  { intros tn' sn' args'. unfold validateToolRequest. simpl.
    destruct (negb (bool_decide (tn' = []))); [|done]. simpl.
    destruct (negb (bool_decide (sn' = []))); [|done]. simpl.
    destruct (_ || _); [done|].
    destruct (RegExp.serverNamePattern sn'); [|done]. simpl.
    by destruct (RegExp.toolNamePattern tn'). }
  assert (forall s : jstring, s <> [] -> truthy (VStr s) = true) as Htruthy.
  { intros s Hs. destruct (truthy (VStr s)) eqn:E; [done|]. by apply truthy_VStr in E. }
  assert (forall v, is_structured v ->
    negb (truthy v) || negb (bool_decide (typeof v = str "object")) = false) as Hstruct
    by (intros v; apply structured_spec).
  assert (forall v, ~ is_structured v ->
    negb (truthy v) || negb (bool_decide (typeof v = str "object")) = true) as Hscalar.
  { intros v Hv. destruct (_ || _) eqn:E; [done|]. by apply structured_spec in E. }
  assert (forall s, ~ server_name_format s -> RegExp.serverNamePattern s = false) as Hsn.
  { intros s Hs. destruct (RegExp.serverNamePattern s) eqn:E; [|done].
    by apply serverNamePattern_spec in E. }
  assert (forall s, ~ tool_name_format s -> RegExp.toolNamePattern s = false) as Htn.
  { intros s Hs. destruct (RegExp.toolNamePattern s) eqn:E; [|done].
    by apply toolNamePattern_spec in E. }
  simpl. repeat split.
  - intros ->. by rewrite Hunfold.
  - intros Ht ->. by rewrite Hunfold, Htruthy.
  - intros Ht Hs Ha. by rewrite Hunfold, !Htruthy, Hscalar.
  - intros Ht Hs Ha Hf. by rewrite Hunfold, !Htruthy, Hstruct, Hsn.
  - intros Ht Hs Ha Hf Hg. apply serverNamePattern_spec in Hf.
    by rewrite Hunfold, !Htruthy, Hstruct, Hf, Htn.
  - intros Ht Hs Ha Hf Hg. apply serverNamePattern_spec in Hf.
    apply toolNamePattern_spec in Hg.
    by rewrite Hunfold, !Htruthy, Hstruct, Hf, Hg.
  - unfold missing_tool_name, missing_server_name, invalid_arguments,
      invalid_server_name, invalid_tool_name.
    repeat (apply NoDup_cons; split;
            [rewrite ?elem_of_cons, elem_of_nil; vm_compute; intros H;
             repeat (destruct H as [H|H]; [discriminate H|]); exact H|]).
    apply NoDup_nil_2.
  - intros Ht Ha. by rewrite Hunfold, !Htruthy, Hstruct.
  - intros s Ht Hs. rewrite Hunfold, !Htruthy by done. by rewrite Hscalar by by intros [(? & ? & ?)|[? ?]].
Qed.

(** ** Normalization *)

Lemma endsWith_app (s p : jstring) :
  endsWith s p = true <-> exists r, s = r ++ p.
Proof.
  unfold endsWith. rewrite startsWith_app. split.
  - intros [r Hr]. exists (rev r).
    rewrite <- (rev_involutive s), Hr, rev_app_distr, rev_involutive. done.
  - intros [r ->]. exists (rev r). by rewrite rev_app_distr.
Qed.

Lemma bracketed_spec (t : jstring) :
  (startsWith t (str "{") && endsWith t (str "}"))
  || (startsWith t (str "[") && endsWith t (str "]")) = true <-> bracketed t.
Proof.
  unfold bracketed, enclosed.
  rewrite orb_true_iff, !andb_true_iff, !startsWith_app, !endsWith_app. done.
Qed.

(** The numbers of the examples are the binary64 values of the integers. *)
Lemma of_Z_small :
  Num.of_Z 1 = binary_normalize 53 1024 1 0 false /\
  Num.of_Z 2 = binary_normalize 53 1024 2 0 false /\
  Num.of_Z 3 = binary_normalize 53 1024 3 0 false /\
  Num.of_Z 42 = binary_normalize 53 1024 42 0 false.
Proof. by vm_compute. Qed.

(** C5.  [normalizeValue] tries its rules on the trimmed text in the order
    empty, boolean, number, structured, text, and the first rule that
    applies gives the value.  The examples: [" 42 "] is the number 42,
    ["TRUE"] the boolean true, the text of an object with [a] bound to 1 is
    that object, ["[1,2,3]"] is the array of 1, 2 and 3, and ["hello"] is
    the text itself. *)
Theorem normalize_rules_in_order :
  (forall s, let t := trim s in
     (t = [] -> normalizeValue s = VStr []) /\
     (t <> [] -> toLowerCase t = str "true" -> normalizeValue s = VBool true) /\
     (t <> [] -> toLowerCase t = str "false" -> normalizeValue s = VBool false) /\
     (t <> [] -> toLowerCase t <> str "true" -> toLowerCase t <> str "false" ->
        (Num.isNaN (Num.Number t) = false -> normalizeValue s = VNum (Num.Number t)) /\
        (Num.isNaN (Num.Number t) = true ->
           (forall v, bracketed t -> JSON.parse t = Ok v -> normalizeValue s = v) /\
           (bracketed t -> (forall e, JSON.parse t = Throw e -> normalizeValue s = VStr t)) /\
           (~ bracketed t -> normalizeValue s = VStr t)))) /\
  normalizeValue (str " 42 ") = VNum (Num.of_Z 42) /\
  normalizeValue (str "TRUE") = VBool true /\
  normalizeValue (str "{" ++ [34%N] ++ str "a" ++ [34%N] ++ str ":1}")
    = VObj None {[ str "a" := VNum (Num.of_Z 1) ]} /\
  normalizeValue (str "[1,2,3]")
    = VArr [VNum (Num.of_Z 1); VNum (Num.of_Z 2); VNum (Num.of_Z 3)] /\
  normalizeValue (str "hello") = VStr (str "hello").
Proof.
  split; [|by vm_compute].
  intros s t. unfold normalizeValue. fold t. cbn [truthy].
  split; [|split; [|split; [|]]].
  - intros ->. by rewrite bool_decide_eq_true_2.
  - intros Ht Hl. by rewrite (bool_decide_eq_false_2 (t = [])), (bool_decide_eq_true_2 _ Hl).
  - intros Ht Hl.
    rewrite (bool_decide_eq_false_2 (t = [])) by done. cbn [negb andb].
    rewrite bool_decide_eq_false_2 by (by rewrite Hl). by rewrite bool_decide_eq_true_2.
  - intros Ht Htrue Hfalse.
    rewrite (bool_decide_eq_false_2 (t = [])) by done. cbn [negb andb].
    rewrite !bool_decide_eq_false_2 by done. split.
    + by intros ->.
    + intros ->. cbn [negb andb]. repeat split.
      * intros v Hb%bracketed_spec Hv. by rewrite Hb, Hv.
      * intros Hb%bracketed_spec e Hv. by rewrite Hb, Hv.
      * intros Hb. destruct (_ || _) eqn:E; [|done]. by apply bracketed_spec in E.
Qed.

(** ** The number rule *)

(** *** [trim] *)

Lemma trimStart_head (s : jstring) (c : N) (r : jstring) :
  trimStart s = c :: r -> isWhiteSpace c = false.
Proof.
  induction s as [|d s IH]; simpl; [done|].
  destruct (isWhiteSpace d) eqn:Hd; [done|]. by intros [= <- <-].
Qed.

Lemma trimStart_fixed (c : N) (r : jstring) :
  isWhiteSpace c = false -> trimStart (c :: r) = c :: r.
Proof. simpl. by intros ->. Qed.

Lemma trimStart_idemp (s : jstring) : trimStart (trimStart s) = trimStart s.
Proof.
  destruct (trimStart s) as [|c r] eqn:Hs; [done|].
  apply trimStart_fixed. by eapply trimStart_head.
Qed.

Lemma trimStart_snoc (l : jstring) (c : N) :
  isWhiteSpace c = false -> trimStart (l ++ [c]) = trimStart l ++ [c].
Proof.
  intros Hc. induction l as [|d l IH]; simpl; [by rewrite Hc|].
  by destruct (isWhiteSpace d).
Qed.

Lemma trimEnd_cons (c : N) (r : jstring) :
  isWhiteSpace c = false -> trimEnd (c :: r) = c :: trimEnd r.
Proof.
  intros Hc. unfold trimEnd. simpl.
  by rewrite trimStart_snoc, rev_app_distr.
Qed.

Lemma trimEnd_idemp (s : jstring) : trimEnd (trimEnd s) = trimEnd s.
Proof. unfold trimEnd. by rewrite rev_involutive, trimStart_idemp. Qed.

Lemma trim_idemp (s : jstring) : trim (trim s) = trim s.
Proof.
  unfold trim at 1. assert (trimStart (trim s) = trim s) as ->.
  { unfold trim. destruct (trimStart s) as [|c r] eqn:Hs; [done|].
    pose proof (trimStart_head _ _ _ Hs) as Hc.
    rewrite trimEnd_cons by done. by apply trimStart_fixed. }
  apply trimEnd_idemp.
Qed.

(** *** [toLowerCase] and the booleans *)

Lemma lowerChar_lower (c x : N) :
  (97 <= x <= 122)%N -> lowerChar c = x -> c = x \/ c = (x - 32)%N.
Proof.
  unfold lowerChar. intros Hx.
  destruct ((65 <=? c)%N && (c <=? 90)%N); intros <-; [right|left]; lia.
Qed.

Lemma boolean_word_not_number (t : jstring) :
  toLowerCase t = str "true" \/ toLowerCase t = str "false" ->
  Num.isNaN (Num.Number t) = true.
Proof.
  intros [H|H].
  - do 5 (destruct t as [|? t]; try done).
    injection H as H1 H2 H3 H4.
    apply lowerChar_lower in H1 as [->| ->]; [| |done]; 
    apply lowerChar_lower in H2 as [->| ->]; try done;
    apply lowerChar_lower in H3 as [->| ->]; try done;
    apply lowerChar_lower in H4 as [->| ->]; try done; by vm_compute.
  - do 6 (destruct t as [|? t]; try done).
    injection H as H1 H2 H3 H4 H5.
    apply lowerChar_lower in H1 as [->| ->]; [| |done];
    apply lowerChar_lower in H2 as [->| ->]; try done;
    apply lowerChar_lower in H3 as [->| ->]; try done;
    apply lowerChar_lower in H4 as [->| ->]; try done;
    apply lowerChar_lower in H5 as [->| ->]; try done; by vm_compute.
Qed.

(** *** [JSON.parse] of a text in braces or brackets *)

Lemma parseMembers_object (pv : jstring -> option (any * jstring)) (fuel : nat)
    (s : jstring) (acc : gmap jstring any) (v : any) (r : jstring) :
  JSON.parseMembers pv fuel s acc = Some (v, r) -> exists m, v = VObj None m.
Proof.
  revert s acc. induction fuel as [|f IH]; intros s acc; simpl; [done|].
  destruct (JSON.skipWS s) as [|q r0]; [done|].
  destruct (if (q =? 34)%N then _ else _) as [[k r1]|]; [|done].
  destruct (JSON.skipWS r1) as [|colon r2]; [done|].
  destruct (if (colon =? 58)%N then _ else _) as [[v' r3]|]; [|done].
  destruct (JSON.skipWS r3) as [|c r4]; [done|].
  destruct (c =? 44)%N; [apply IH|].
  destruct (c =? 125)%N; [|done]. intros [= <- _]. by eexists.
Qed.

Lemma parseElements_array (pv : jstring -> option (any * jstring)) (fuel : nat)
    (s : jstring) (acc : list any) (v : any) (r : jstring) :
  JSON.parseElements pv fuel s acc = Some (v, r) -> exists l, v = VArr l.
Proof.
  revert s acc. induction fuel as [|f IH]; intros s acc; simpl; [done|].
  destruct (pv s) as [[v' r0]|]; [|done].
  destruct (JSON.skipWS r0) as [|c r1]; [done|].
  destruct (c =? 44)%N; [apply IH|].
  destruct (c =? 93)%N; [|done]. intros [= <- _]. by eexists.
Qed.

Lemma parse_bracketed_structured (t : jstring) (v : any) :
  bracketed t -> JSON.parse t = Ok v -> is_structured v.
Proof.
  unfold JSON.parse. intros Hb.
  destruct (JSON.parseValue _ t) as [[v' r]|] eqn:Hv; [|done].
  destruct (JSON.skipWS r); [|done]. intros [= <-].
  simpl in Hv. destruct Hb as [[[r0 ->] _]|[[r0 ->] _]]; simpl in Hv.
  - destruct (JSON.skipWS r0) as [|d r'] eqn:Hr0; [done|].
    destruct (d =? 125)%N.
    + injection Hv as <- _. left. by eexists _, _.
    + left. eexists. by eapply parseMembers_object.
  - destruct (JSON.skipWS r0) as [|d r'] eqn:Hr0; [done|].
    destruct (d =? 93)%N.
    + injection Hv as <- _. right. by eexists.
    + right. by eapply parseElements_array.
Qed.

(** *** Digits *)

Ltac digit_cases :=
  unfold Num.digitValue, decimal_digit, hex_digit, octal_digit, binary_digit;
  repeat match goal with
    | |- context [(?a <=? ?b)%N] => destruct (N.leb_spec a b)
    end; simpl;
  repeat match goal with
    | |- context [(?a <? ?b)%Z] => destruct (Z.ltb_spec a b)
    end;
  (split; [intros [? ?] | intros ?]); try done; try lia; by eexists.

Lemma digitValue_10 (c : N) : is_Some (Num.digitValue 10 c) <-> decimal_digit c.
Proof. digit_cases. Qed.

Lemma digitValue_16 (c : N) : is_Some (Num.digitValue 16 c) <-> hex_digit c.
Proof. digit_cases. Qed.

Lemma digitValue_8 (c : N) : is_Some (Num.digitValue 8 c) <-> octal_digit c.
Proof. digit_cases. Qed.

Lemma digitValue_2 (c : N) : is_Some (Num.digitValue 2 c) <-> binary_digit c.
Proof. digit_cases. Qed.

Section Radix.

Variable radix : Z.
Variable P : N -> Prop.
Hypothesis digit_P : forall c, is_Some (Num.digitValue radix c) <-> P c.

Lemma digitsValue_from_spec (acc : Z) (s : jstring) :
  is_Some (Num.digitsValue_from radix acc s) <-> Forall P s.
Proof.
  revert acc. induction s as [|c s IH]; intros acc; simpl.
  - split; [done | by eexists].
  - rewrite Forall_cons, <- digit_P.
    destruct (Num.digitValue radix c) as [v|].
    + rewrite IH. split; [by split; [eexists|] | by intros [_ ?]].
    + split; [by intros [? ?] | by intros [[? ?] _]].
Qed.

Lemma digitsValue_spec (s : jstring) :
  is_Some (Num.digitsValue radix s) <-> s <> [] /\ Forall P s.
Proof.
  unfold Num.digitsValue. destruct s as [|c s].
  - split; [by intros [? ?] | by intros [? _]].
  - rewrite digitsValue_from_spec. split; [by split | by intros [_ ?]].
Qed.

End Radix.

Lemma decimal_digitsValue (s : jstring) :
  is_Some (Num.digitsValue 10 s) <-> DecimalDigits s.
Proof. apply digitsValue_spec, digitValue_10. Qed.

Lemma spanDigits_spec (s ds r : jstring) :
  Num.spanDigits s = (ds, r) ->
  s = ds ++ r /\ Forall decimal_digit ds /\
  forall c r', r = c :: r' -> ~ decimal_digit c.
Proof.
  revert ds r. induction s as [|c s IH]; intros ds r; simpl.
  - intros [= <- <-]. by repeat split.
  - destruct (Num.isDigit c) eqn:Hc.
    + destruct (Num.spanDigits s) as [ds' r0]. intros [= <- <-].
      destruct (IH _ _ eq_refl) as (-> & Hds & Hr). repeat split; [|done].
      apply Forall_cons. split; [by apply isDigit_spec | done].
    + intros [= <- <-]. repeat split; [done|].
      intros c' r' [= <- <-] Hd%isDigit_spec. congruence.
Qed.

Lemma spanDigits_app (ds r : jstring) :
  Forall decimal_digit ds -> (forall c r', r = c :: r' -> ~ decimal_digit c) ->
  Num.spanDigits (ds ++ r) = (ds, r).
Proof.
  intros Hds Hr. induction Hds as [|c ds Hc _ IH]; simpl.
  - destruct r as [|c r]; [done|]. simpl.
    destruct (Num.isDigit c) eqn:Hc; [|done].
    apply isDigit_spec in Hc. by destruct (Hr c r).
  - apply isDigit_spec in Hc. by rewrite Hc, IH.
Qed.

(** *** Exponents *)

Lemma is_Some_option_map {A B : Type} (f : A -> B) (o : option A) :
  is_Some (option_map f o) <-> is_Some o.
Proof.
  destruct o as [a|]; simpl; split; intros [x Hx];
    first [discriminate Hx | by eexists].
Qed.

Lemma SignedInteger_spec (s : jstring) :
  is_Some (Num.SignedInteger s) <->
  exists sg ds, s = sg ++ ds /\ sign_opt sg /\ DecimalDigits ds.
Proof.
  unfold Num.SignedInteger. destruct s as [|c r].
  - split; [by intros [? ?]|]. intros (sg & ds & Hs & _ & Hne & _).
    symmetry in Hs. by apply app_eq_nil in Hs as [_ ->].
  - destruct (N.eqb_spec c 43) as [->|H43]; [|destruct (N.eqb_spec c 45) as [->|H45]].
    + rewrite decimal_digitsValue. split.
      * intros Hr. exists [43%N], r. split; [done|]. split; [right; by left | done].
      * intros (sg & ds & Hs & [-> | [-> | ->]] & Hds); simpl in Hs.
        -- subst ds. destruct Hds as [_ Hds]. apply Forall_cons in Hds as [Hd _].
           unfold decimal_digit in Hd. lia.
        -- by injection Hs as <-.
        -- done.
    + rewrite is_Some_option_map, decimal_digitsValue. split.
      * intros Hr. exists [45%N], r. split; [done|]. split; [right; by right | done].
      * intros (sg & ds & Hs & [-> | [-> | ->]] & Hds); simpl in Hs.
        -- subst ds. destruct Hds as [_ Hds]. apply Forall_cons in Hds as [Hd _].
           unfold decimal_digit in Hd. lia.
        -- done.
        -- by injection Hs as <-.
    + rewrite decimal_digitsValue. split.
      * intros Hr. exists [], (c :: r). split; [done|]. split; [by left | done].
      * intros (sg & ds & Hs & [-> | [-> | ->]] & Hds); simpl in Hs; [by subst|congruence..].
Qed.

Lemma ExponentPart_opt_spec (s : jstring) :
  is_Some (Num.ExponentPart_opt s) <-> s = [] \/ ExponentPart s.
Proof.
  unfold Num.ExponentPart_opt, ExponentPart. destruct s as [|c r].
  - split; [by left | by eexists].
  - destruct ((c =? 101)%N || (c =? 69)%N) eqn:Hc.
    + rewrite SignedInteger_spec. split.
      * intros (sg & ds & -> & Hsg & Hds). right. exists c, sg, ds.
        split; [done|]. split; [|done].
        apply orb_true_iff in Hc as [?%N.eqb_eq|?%N.eqb_eq]; [by left | by right].
      * intros [|(c' & sg & ds & [= <- ->] & _ & Hsg & Hds)]; [done|]. by exists sg, ds.
    + split; [by intros [? ?]|].
      intros [|(c' & sg & ds & [= <- ->] & Hc' & _)]; [done|]. exfalso.
      apply orb_false_iff in Hc as [?%N.eqb_neq ?%N.eqb_neq]. by destruct Hc'.
Qed.

Lemma exponent_head (ex : jstring) :
  ex = [] \/ ExponentPart ex ->
  forall c r, ex = c :: r -> ~ decimal_digit c /\ c <> 46%N.
Proof.
  intros [-> | (c' & sg & ds & -> & Hc & _)] c r; [done|].
  intros [= <- _]. unfold decimal_digit. destruct Hc as [->| ->]; split; lia.
Qed.

(** *** Decimal literals *)

Lemma round_ratio_not_nan (neg : bool) (n d : Z) :
  Num.isNaN (Num.round_ratio neg n d) = false.
Proof.
  unfold Num.round_ratio. cbv zeta.
  match goal with |- context [if (?a =? ?b)%Z then _ else _] => destruct (a =? b)%Z end.
  - match goal with |- context [match ?m with Z.pos _ => _ | _ => _ end] =>
      destruct m end; try done.
    by match goal with |- context [if ?b then _ else _] => destruct b end.
  - match goal with |- context [match ?m with Z.pos _ => _ | _ => _ end] =>
      destruct m end; try done.
    by match goal with |- context [if ?b then _ else _] => destruct b end.
Qed.

Lemma of_decimal_not_nan (neg : bool) (digits exp10 : Z) :
  Num.isNaN (Num.of_decimal neg digits exp10) = false.
Proof.
  unfold Num.of_decimal. destruct (digits <=? 0)%Z; [done|].
  destruct (0 <=? exp10)%Z; apply round_ratio_not_nan.
Qed.

Lemma StrUnsignedDecimalLiteral_spec (s : jstring) :
  is_Some (Num.StrUnsignedDecimalLiteral s) <-> unsigned_decimal s.
Proof.
  unfold Num.StrUnsignedDecimalLiteral, unsigned_decimal. split.
  - destruct (Num.spanDigits s) as [ip r1] eqn:Hip.
    apply spanDigits_spec in Hip as (-> & Hip & Hr1).
    destruct r1 as [|c r].
    + destruct ip as [|d ip]; [by intros [? ?]|]. intros _.
      exists (d :: ip), []. split; [done|]. split; [by left|]. by right.
    + destruct (N.eqb_spec c 46) as [->|Hc].
      * destruct (Num.spanDigits r) as [fp r2] eqn:Hfp.
        apply spanDigits_spec in Hfp as (-> & Hfp & Hr2).
        intros Hsome. exists (ip ++ 46%N :: fp), r2.
        split; [by rewrite <- app_assoc|].
        assert (is_Some (Num.ExponentPart_opt r2) /\ (ip <> [] \/ fp <> []))
          as [Hex Hne].
        { destruct ip as [|d ip], fp as [|d' fp]; try (by destruct Hsome);
            (destruct (Num.digitsValue_from 10 0 _); [|by destruct Hsome]);
            (destruct (Num.ExponentPart_opt r2); [|by destruct Hsome]);
            (split; [by eexists|]); first [by left | by right]. }
        split; [by apply ExponentPart_opt_spec|]. left. by exists ip, fp.
      * intros Hsome. exists ip, (c :: r). split; [done|].
        assert (is_Some (Num.ExponentPart_opt (c :: r)) /\ ip <> []) as [Hex Hne].
        { destruct ip as [|d ip]; [by destruct Hsome|].
          destruct (Num.digitsValue_from 10 0 _); [|by destruct Hsome].
          destruct (Num.ExponentPart_opt (c :: r)); [|by destruct Hsome].
          split; [by eexists | done]. }
        split; [by apply ExponentPart_opt_spec|]. by right.
  - intros (m & ex & -> & Hex & Hm).
    pose proof (exponent_head _ Hex) as Hhead.
    apply ExponentPart_opt_spec in Hex as [e He].
    destruct Hm as [(ip & fp & -> & Hip & Hfp & Hne)|[Hne Hm]].
    + rewrite <- app_assoc. simpl.
      rewrite spanDigits_app; [|done|].
      2:{ intros c r' [= <- _]. unfold decimal_digit. lia. }
      rewrite N.eqb_refl, spanDigits_app; [|done|].
      2:{ intros c r' Hc. by apply (Hhead c r'). }
      assert (is_Some (Num.digitsValue_from 10 0 (ip ++ fp))) as [z Hz].
      { apply (digitsValue_from_spec _ _ digitValue_10), Forall_app. by split. }
      rewrite Hz, He.
      destruct ip as [|d ip], fp as [|d' fp]; try (by eexists). by destruct Hne.
    + rewrite spanDigits_app; [|done|].
      2:{ intros c r' Hc. by apply (Hhead c r'). }
      assert (is_Some (Num.digitsValue_from 10 0 (m ++ []))) as [z Hz].
      { rewrite app_nil_r. by apply (digitsValue_from_spec _ _ digitValue_10). }
      destruct ex as [|c r].
      * rewrite Hz, He. destruct m; [done | by eexists].
      * destruct (Hhead c r eq_refl) as [_ Hc].
        apply N.eqb_neq in Hc. rewrite Hc, Hz, He. destruct m; [done | by eexists].
Qed.

Lemma unsigned_head (u : jstring) :
  u = str "Infinity" \/ unsigned_decimal u ->
  exists c r, u = c :: r /\ c <> 43%N /\ c <> 45%N.
Proof.
  intros [->|(m & ex & -> & _ & Hm)]; [by eexists _, _|].
  destruct Hm as [(ip & fp & -> & Hip & _)|[Hne Hm]].
  - destruct Hip as [|d ip Hd _]; simpl.
    + by eexists _, _.
    + unfold decimal_digit in Hd. eexists _, _. split; [done|]. lia.
  - destruct Hm as [|d m Hd _]; [done|]. simpl.
    unfold decimal_digit in Hd. eexists _, _. split; [done|]. lia.
Qed.

Lemma StrUnsignedLiteral_spec (neg : bool) (u : jstring) :
  Num.isNaN (Num.StrUnsignedLiteral neg u) = false <->
  u = str "Infinity" \/ unsigned_decimal u.
Proof.
  unfold Num.StrUnsignedLiteral. rewrite <- StrUnsignedDecimalLiteral_spec.
  destruct (bool_decide_reflect (u = str "Infinity")) as [->|Hu].
  - split; [by left | done].
  - destruct (Num.StrUnsignedDecimalLiteral u) as [[m e]|].
    + rewrite of_decimal_not_nan. split; [right; by eexists | done].
    + split; [done|]. by intros [?|[? ?]].
Qed.

Lemma StrDecimalLiteral_spec (s : jstring) :
  Num.isNaN (Num.StrDecimalLiteral s) = false <->
  decimal_literal s \/ infinity_literal s.
Proof.
  assert (decimal_literal s \/ infinity_literal s <->
          exists sg u, s = sg ++ u /\ sign_opt sg /\
            (u = str "Infinity" \/ unsigned_decimal u)) as ->.
  { unfold decimal_literal, infinity_literal. split.
    - intros [(sg & u & -> & Hsg & Hu)|(sg & -> & Hsg)]; exists sg; eauto.
    - intros (sg & u & -> & Hsg & [->|Hu]); [right | left]; eauto. }
  unfold Num.StrDecimalLiteral. destruct s as [|c r].
  - rewrite StrUnsignedLiteral_spec. split.
    + intros Hu. exists [], []. split; [done|]. split; [by left | done].
    + intros (sg & u & Hs & _ & Hu). symmetry in Hs.
      by apply app_eq_nil in Hs as [_ ->].
  - destruct (N.eqb_spec c 43) as [->|H43]; [|destruct (N.eqb_spec c 45) as [->|H45]];
      rewrite StrUnsignedLiteral_spec; split.
    + intros Hu. exists [43%N], r. split; [done|]. split; [right; by left | done].
    + intros (sg & u & Hs & [-> | [-> | ->]] & Hu); simpl in Hs.
      * subst u. by destruct (unsigned_head _ Hu) as (c & r' & [= <- _] & ? & _).
      * by injection Hs as <-.
      * done.
    + intros Hu. exists [45%N], r. split; [done|]. split; [right; by right | done].
    + intros (sg & u & Hs & [-> | [-> | ->]] & Hu); simpl in Hs.
      * subst u. by destruct (unsigned_head _ Hu) as (c & r' & [= <- _] & _ & ?).
      * done.
      * by injection Hs as <-.
    + intros Hu. exists [], (c :: r). split; [done|]. split; [by left | done].
    + intros (sg & u & Hs & [-> | [-> | ->]] & Hu); simpl in Hs;
        [by subst | congruence..].
Qed.

(** *** Literals in another radix *)

Lemma NonDecimalIntegerLiteral_Some (s : jstring) (o : option Z) :
  Num.NonDecimalIntegerLiteral s = Some o ->
  exists c r, s = 48%N :: c :: r /\
    (((c = 120%N \/ c = 88%N) /\ o = Num.digitsValue 16 r)
     \/ ((c = 111%N \/ c = 79%N) /\ o = Num.digitsValue 8 r)
     \/ ((c = 98%N \/ c = 66%N) /\ o = Num.digitsValue 2 r)).
Proof.
  unfold Num.NonDecimalIntegerLiteral.
  destruct s as [|z [|c r]]; [done..|].
  destruct (N.eqb_spec z 48) as [->|]; [simpl|done].
  destruct (N.eqb_spec c 120) as [->|]; simpl.
  { intros [= <-]. eexists _, _. split; [done|]. left. split; [by left | done]. }
  destruct (N.eqb_spec c 88) as [->|]; simpl.
  { intros [= <-]. eexists _, _. split; [done|]. left. split; [by right | done]. }
  destruct (N.eqb_spec c 111) as [->|]; simpl.
  { intros [= <-]. eexists _, _. split; [done|]. right. left. split; [by left | done]. }
  destruct (N.eqb_spec c 79) as [->|]; simpl.
  { intros [= <-]. eexists _, _. split; [done|]. right. left. split; [by right | done]. }
  destruct (N.eqb_spec c 98) as [->|]; simpl.
  { intros [= <-]. eexists _, _. split; [done|]. right. right. split; [by left | done]. }
  destruct (N.eqb_spec c 66) as [->|]; simpl; [|done].
  intros [= <-]. eexists _, _. split; [done|]. right. right. split; [by right | done].
Qed.

Lemma NonDecimalIntegerLiteral_None (s : jstring) :
  Num.NonDecimalIntegerLiteral s = None -> ~ radix_literal s.
Proof.
  intros Hnone (p & ds & -> & _ & Hp). revert Hnone.
  unfold Num.NonDecimalIntegerLiteral. simpl.
  destruct Hp as [[[-> | ->] _]|[[[-> | ->] _]|[[-> | ->] _]]]; done.
Qed.

Lemma radix_prefix_not_decimal (c : N) (r : jstring) :
  c ∈ [120; 88; 111; 79; 98; 66]%N ->
  Num.isNaN (Num.StrDecimalLiteral (48%N :: c :: r)) = true.
Proof.
  intros Hc. repeat (apply elem_of_cons in Hc as [->|Hc]; [by vm_compute|]).
  by apply elem_of_nil in Hc.
Qed.

Lemma StrNumericLiteral_spec (s : jstring) :
  Num.isNaN (Num.StrNumericLiteral s) = false <-> numeric_literal s.
Proof.
  unfold Num.StrNumericLiteral, numeric_literal.
  destruct (Num.NonDecimalIntegerLiteral s) as [o|] eqn:Hs.
  - apply NonDecimalIntegerLiteral_Some in Hs as (c & r & -> & Hc).
    assert (~ (decimal_literal (48%N :: c :: r) \/ infinity_literal (48%N :: c :: r)))
      as Hnot.
    { intros Hd%StrDecimalLiteral_spec.
      rewrite radix_prefix_not_decimal in Hd; [done|].
      destruct Hc as [[[-> | ->] _]|[[[-> | ->] _]|[[-> | ->] _]]];
        repeat first [by left | right]. }
    assert (radix_literal (48%N :: c :: r) <-> is_Some o) as Hradix.
    { unfold radix_literal. split.
      - intros (p & ds & [= <- <-] & Hne & Hds).
        destruct Hc as [[Hc ->]|[[Hc ->]|[Hc ->]]];
          [apply (digitsValue_spec _ _ digitValue_16)
          |apply (digitsValue_spec _ _ digitValue_8)
          |apply (digitsValue_spec _ _ digitValue_2)];
          (split; [done|]);
          destruct Hds as [[[-> | ->] Hds]|[[[-> | ->] Hds]|[[-> | ->] Hds]]];
          first [done | by destruct Hc].
      - intros Ho. exists c, r. split; [done|].
        destruct Hc as [[Hc ->]|[[Hc ->]|[Hc ->]]];
          [apply (digitsValue_spec _ _ digitValue_16) in Ho as [? ?]
          |apply (digitsValue_spec _ _ digitValue_8) in Ho as [? ?]
          |apply (digitsValue_spec _ _ digitValue_2) in Ho as [? ?]];
          (split; [done|]); [left | right; left | right; right]; done. }
    destruct o as [z|].
    + rewrite of_decimal_not_nan. split; [|done]. intros _. right. right.
      apply Hradix. by eexists.
    + split; [done|]. intros [Hd|[Hi|Hr]]; [by destruct Hnot; left
                                          |by destruct Hnot; right|].
      apply Hradix in Hr. by destruct Hr.
  - rewrite StrDecimalLiteral_spec. split; [tauto|].
    intros [?|[?|Hr]]; [tauto | tauto |]. by apply NonDecimalIntegerLiteral_None in Hr.
Qed.

Lemma numeric_literal_not_empty (t : jstring) : numeric_literal t -> t <> [].
Proof.
  intros [(sg & u & -> & _ & Hu)|[(sg & -> & _)|(p & ds & -> & _)]]; [| |done].
  - destruct (unsigned_head u) as (c & r & -> & _); [by right|]. by destruct sg.
  - by destruct sg.
Qed.

(** [Number] on a trimmed text that is not empty. *)
Lemma Number_spec (s : jstring) :
  trim s <> [] ->
  Num.isNaN (Num.Number (trim s)) = false <-> numeric_literal (trim s).
Proof.
  intros Ht. unfold Num.Number. rewrite trim_idemp.
  destruct (trim s) as [|c r] eqn:Hs; [done|]. apply StrNumericLiteral_spec.
Qed.

Lemma normalizeValue_number (s : jstring) :
  numeric_literal (trim s) ->
  normalizeValue s = VNum (Num.Number (trim s)) /\
  Num.isNaN (Num.Number (trim s)) = false.
Proof.
  intros Hlit. pose proof (numeric_literal_not_empty _ Hlit) as Hne.
  pose proof (proj2 (Number_spec s Hne) Hlit) as Hnum. split; [|done].
  unfold normalizeValue. cbn [truthy].
  rewrite (bool_decide_eq_false_2 (trim s = [])) by done. cbn [negb andb].
  rewrite (bool_decide_eq_false_2 (toLowerCase (trim s) = str "true")).
  2:{ intros H. rewrite boolean_word_not_number in Hnum; [done | by left]. }
  rewrite (bool_decide_eq_false_2 (toLowerCase (trim s) = str "false")).
  2:{ intros H. rewrite boolean_word_not_number in Hnum; [done | by right]. }
  by rewrite Hnum.
Qed.

Lemma normalizeValue_number_inv (s : jstring) (x : spec_float) :
  normalizeValue s = VNum x -> numeric_literal (trim s).
Proof.
  unfold normalizeValue. cbn [truthy].
  destruct (bool_decide_reflect (trim s = [])) as [|Hne]; [done|]. cbn [negb andb].
  destruct (bool_decide _); [done|]. destruct (bool_decide _); [done|].
  destruct (Num.isNaN (Num.Number (trim s))) eqn:Hnum; cbn [negb andb].
  - destruct (_ || _) eqn:Hb; [|done].
    apply bracketed_spec in Hb.
    destruct (JSON.parse (trim s)) as [v|] eqn:Hv; [|done].
    intros ->. by destruct (parse_bracketed_structured _ _ Hb Hv) as [(? & ? & ?)|[? ?]].
  - intros _. by apply Number_spec.
Qed.

(** C6, as the code has it.  [normalizeValue] gives a number exactly when
    the trimmed text is a numeric literal of the language: a decimal
    literal with an optional sign and an optional exponent, [Infinity]
    with an optional sign, or an unsigned integer in radix 16, 8 or 2 with
    its prefix.  The number is then [Number] of the trimmed text, which is
    not [NaN] and can be infinite. *)
Theorem number_rule_accepts_numeric_literals (s : jstring) :
  ((exists x, normalizeValue s = VNum x) <-> numeric_literal (trim s)) /\
  (numeric_literal (trim s) ->
     normalizeValue s = VNum (Num.Number (trim s)) /\
     Num.isNaN (Num.Number (trim s)) = false) /\
  normalizeValue (str "1e999") = VNum (S754_infinity false).
Proof.
  split; [split|split].
  - intros [x Hx]. by eapply normalizeValue_number_inv.
  - intros Hlit. eexists. by apply normalizeValue_number.
  - apply normalizeValue_number.
  - by vm_compute.
Qed.

(** C6, as the specification words it, fails: [Infinity] is given the
    number infinity, which is not finite, and [0x1F] is given the number
    31 although it is not a decimal literal. *)
Lemma number_rule_not_finite_decimal :
  (normalizeValue (str "Infinity") = VNum (S754_infinity false) /\
   trim (str "Infinity") = str "Infinity" /\
   ~ finite_decimal (str "Infinity")) /\
  (normalizeValue (str "0x1F") = VNum (Num.of_Z 31) /\
   trim (str "0x1F") = str "0x1F" /\
   ~ finite_decimal (str "0x1F")).
Proof.
  split; (split; [by vm_compute|]); (split; [by vm_compute|]).
  - intros [_ Hfinite]. by vm_compute in Hfinite.
  - intros [Hdecimal _].
    assert (Num.isNaN (Num.StrDecimalLiteral (str "0x1F")) = false) as Hnan
      by (apply StrDecimalLiteral_spec; by left).
    by vm_compute in Hnan.
Qed.

(** ** Conversion to a string *)

Lemma size_element (l : list any) (x : any) : x ∈ l -> size x < size (VArr l).
Proof.
  intros Hx. simpl. apply Nat.lt_succ_r.
  induction Hx as [x l|x y l _ IH]; simpl; lia.
Qed.

Lemma size_own (p : option any) (m : gmap jstring any) (k : jstring) (x : any) :
  m !! k = Some x -> size x < size (VObj p m).
Proof.
  intros Hk. simpl. apply Nat.lt_succ_r.
  rewrite <- (insert_delete_id m k x Hk), map_fold_insert_L.
  - lia.
  - intros. lia.
  - apply lookup_delete_eq.
Qed.

(** Induction on the size of a value. *)
Lemma any_size_ind (P : any -> Prop) :
  (forall v, (forall w, size w < size v -> P w) -> P v) -> forall v, P v.
Proof.
  intros step v. induction (well_founded_ltof _ size v) as [v _ IH].
  apply step. intros w Hw. by apply IH.
Qed.

(** Induction along the prototype chain. *)
Lemma chain_ind (P : any -> Prop) :
  (forall v, (forall p m, v = VObj (Some p) m -> P p) -> P v) -> forall v, P v.
Proof.
  intros step. induction v as [v IH] using any_size_ind.
  apply step. intros p m ->. apply IH. simpl. lia.
Qed.

(** A value found on the chain is smaller than the object. *)
Lemma size_lookup (v : any) (k : jstring) (x : any) :
  lookup v k = Some x -> size x < size v.
Proof.
  revert x. induction v as [v IH] using chain_ind. intros x.
  destruct v as [| |b|y|s|l|p m]; try done.
  - cbn [lookup]. destruct (bool_decide _); [intros [= <-]; simpl; lia|].
    destruct (array_index k) as [i|]; [|done].
    intros Hx%list_elem_of_lookup_2. by apply size_element.
  - cbn [lookup]. destruct (m !! k) as [y|] eqn:Hk.
    + intros [= <-]. by eapply size_own.
    + destruct p as [p|]; [|done]. intros Hx%(IH p m eq_refl). simpl in *. lia.
Qed.

(** The properties [convert] collects are the ones [lookup] finds. *)
Lemma convert_lookup (v : any) (k : jstring) :
  (convert v).2 k = (fun x => (x, ToString x)) <$> lookup v k.
Proof.
  induction v as [v IH] using chain_ind.
  destruct v as [| |[|]|y|s|l|p m]; try done.
  - cbn [convert lookup snd]. destruct (bool_decide _); [done|].
    destruct (array_index k) as [i|]; [|done]. by rewrite list_lookup_fmap.
  - cbn [convert lookup snd]. rewrite lookup_fmap.
    destruct (m !! k) as [y|]; [done|]. simpl.
    destruct p as [p|]; [|done]. by apply (IH p m).
Qed.


Lemma generic_join_ext (look1 look2 : jstring -> option (any * result jstring)) :
  (forall k, look1 k = look2 k) -> generic_join look1 = generic_join look2.
Proof.
  intros Hext. unfold generic_join. rewrite Hext.
  destruct (look2 (str "length")) as [[x shown]|]; simpl.
  - destruct (ToNumber x shown) as [num|e]; [simpl|done].
    f_equal. apply map_ext. intros i. by rewrite Hext.
  - done.
Qed.

(** ToString of an ordinary object, step by step. *)
Lemma ToString_VObj (p : option any) (m : gmap jstring any) :
  ToString (VObj p m) =
  match lookup (VObj p m) (str "toString") with
  | Some _ => Throw TypeError
  | None =>
      match chain_end_of (VObj p m) with
      | ObjectPrototype => Ok (str "[object Object]")
      | ArrayPrototype =>
          match lookup (VObj p m) (str "join") with
          | Some _ => Ok (str "[object Object]")
          | None => generic_join (shown_properties (VObj p m))
          end
      | NoPrototype => Throw TypeError
      end
  end.
Proof.
  pose proof (convert_lookup (VObj p m)) as Hlook.
  unfold ToString at 1. cbn [convert fst snd] in *.
  rewrite !Hlook.
  destruct (lookup (VObj p m) (str "toString")); [done|]. cbn [fmap option_fmap option_map].
  destruct (chain_end_of (VObj p m)); try done.
  destruct (lookup (VObj p m) (str "join")); [done|]. cbn [fmap option_fmap option_map].
  apply generic_join_ext. intros k. apply Hlook.
Qed.

(** ToString of an array. *)
Lemma ToString_VArr (l : list any) :
  ToString (VArr l) = join_results (map (fun x => element_string x (ToString x)) l).
Proof.
  unfold ToString at 1. cbn [convert fst]. by rewrite map_map.
Qed.

Lemma join_results_error (l : list (result jstring)) (e : error) :
  Forall (fun r => forall e', r = Throw e' -> e' = TypeError) l ->
  join_results l = Throw e -> e = TypeError.
Proof.
  induction 1 as [|r l Hr _ IH]; [done|]. simpl.
  destruct l as [|r' l']; [apply Hr|].
  destruct r as [s|er]; cbn [bind].
  - destruct (join_results (r' :: l')) as [t|et]; cbn [bind]; [done|].
    intros [= <-]. by apply IH.
  - intros [= <-]. by apply Hr.
Qed.

(** The only error of a conversion to a string is [TypeError]. *)
Lemma ToString_error (v : any) (e : error) :
  ToString v = Throw e -> e = TypeError.
Proof.
  revert e. induction v as [v IH] using any_size_ind. intros e.
  destruct v as [| |[|]|y|s|l|p m]; try done.
  - rewrite ToString_VArr. apply join_results_error.
    apply Forall_forall. intros r (x & -> & Hx)%list_elem_of_fmap e'.
    destruct x; try done; apply IH; by apply size_element.
  - rewrite ToString_VObj.
    destruct (lookup _ (str "toString")); [by intros [= <-]|].
    destruct (chain_end_of _); [done| |by intros [= <-]].
    destruct (lookup _ (str "join")); [done|].
    assert (forall k x, lookup (VObj p m) k = Some x -> size x < size (VObj p m))
      as Hsize by (intros k x; apply size_lookup).
    unfold generic_join, shown_properties.
    generalize dependent (lookup (VObj p m)). intros look Hsize.
    assert (forall i e',
      match (fun x => (x, ToString x)) <$> look (index_key i) with
      | Some (x, shown) => element_string x shown
      | None => Ok []
      end = Throw e' -> e' = TypeError) as Helement.
    { intros i e'. destruct (look (index_key i)) as [y|] eqn:Hy; [|done].
      apply Hsize in Hy. cbn [fmap option_fmap option_map].
      destruct y; try done; by apply IH. }
    assert (forall n e',
      join_results
        (map (fun i => match (fun x => (x, ToString x)) <$> look (index_key i) with
                       | Some (x, shown) => element_string x shown
                       | None => Ok []
                       end) (seq 0 n)) = Throw e' -> e' = TypeError) as Hjoin.
    { intros n e'. apply join_results_error, Forall_forall.
      intros r (i & -> & _)%list_elem_of_fmap. apply Helement. }
    destruct (look (str "length")) as [x|] eqn:Hlen; cbn [fmap option_fmap option_map].
    + apply Hsize in Hlen.
      assert (forall e', ToNumber x (ToString x) = Throw e' -> e' = TypeError) as Hnum.
      { intros e'. destruct x as [| |b|y|s|l|q n]; try done; cbn [ToNumber].
        - destruct (ToString (VArr l)) eqn:Hs; [done|]. intros [= <-]. by eapply IH.
        - destruct (ToString (VObj q n)) eqn:Hs; [done|]. intros [= <-]. by eapply IH. }
      destruct (ToNumber x (ToString x)) as [num|en]; cbn [bind];
        [apply Hjoin | intros [= <-]; by apply Hnum].
    + cbn [bind]. apply Hjoin.
Qed.

(** ** More on batch extraction *)

#[local] Opaque RegExp.open_marker RegExp.close_marker.

Lemma lazy_until_first (p s pre post : jstring) :
  first_occurrence p s pre post -> RegExp.lazy_until p s = Some (pre, post).
Proof.
  intros Hfirst. destruct (RegExp.lazy_until p s) as [[b r]|] eqn:Hs.
  - apply lazy_until_Some in Hs.
    by destruct (first_occurrence_unique _ _ _ _ _ _ Hs Hfirst) as [-> ->].
  - destruct Hfirst as [-> _]. by eapply lazy_until_None in Hs.
Qed.

Lemma exec_block_first (text pre after body post : jstring) :
  first_occurrence RegExp.open_marker text pre after ->
  first_occurrence RegExp.close_marker after body post ->
  RegExp.exec RegExp.block_here text = Some (body, post).
Proof.
  intros Hopen Hclose.
  destruct (RegExp.exec RegExp.block_here text) as [[b r]|] eqn:Hexec.
  - apply exec_block_Some in Hexec as (pre' & after' & Hopen' & Hclose').
    destruct (first_occurrence_unique _ _ _ _ _ _ Hopen Hopen') as [_ <-].
    by destruct (first_occurrence_unique _ _ _ _ _ _ Hclose Hclose') as [<- <-].
  - destruct Hopen as [-> _], Hclose as [-> _]. by eapply exec_block_None in Hexec.
Qed.

(** In a block, the closing marker occurs at the end and nowhere before. *)
Lemma first_occurrence_cut (p body post : jstring) :
  first_occurrence p (body ++ p ++ post) body post ->
  first_occurrence p (body ++ p) body [].
Proof.
  intros [_ Hmin]. split; [by rewrite app_nil_r|].
  intros pre' post' Heq. apply (Hmin pre' (post' ++ post)).
  rewrite (app_assoc body), Heq, <- !app_assoc. done.
Qed.

Lemma exec_block_again (text content rest : jstring) :
  RegExp.exec RegExp.block_here text = Some (content, rest) ->
  RegExp.exec RegExp.block_here
    (RegExp.open_marker ++ content ++ RegExp.close_marker) = Some (content, []).
Proof.
  intros (pre & after & _ & Hclose)%exec_block_Some.
  rewrite exec_unfold. unfold RegExp.block_here.
  assert (startsWith (RegExp.open_marker ++ content ++ RegExp.close_marker)
            RegExp.open_marker = true) as -> by (apply startsWith_app; by eexists).
  rewrite drop_app_length. rewrite (lazy_until_first _ _ content []); [done|].
  apply first_occurrence_cut with rest. by destruct Hclose as [-> ?].
Qed.

Lemma blocks_elem (text b : jstring) :
  b ∈ blocks text ->
  exists content, b = RegExp.open_marker ++ content ++ RegExp.close_marker /\
    RegExp.exec RegExp.block_here b = Some (content, []).
Proof.
  unfold blocks. generalize (length text) as fuel. intros fuel. revert text.
  induction fuel as [|f IH]; intros text; simpl; [by intros ?%elem_of_nil|].
  destruct (RegExp.exec _ text) as [[content rest]|] eqn:Hexec;
    [|by intros ?%elem_of_nil].
  intros [->|Hin]%elem_of_cons; [|by eapply IH].
  exists content. split; [done|]. by eapply exec_block_again.
Qed.

Lemma blocks_nil_iff (text : jstring) :
  blocks text = [] <->
  forall pre body post,
    text <> pre ++ RegExp.open_marker ++ body ++ RegExp.close_marker ++ post.
Proof.
  rewrite blocks_unfold. split.
  - destruct (RegExp.exec _ text) as [[content rest]|] eqn:Hexec; [done|].
    intros _. by apply exec_block_None.
  - intros Hno. destruct (RegExp.exec _ text) as [[content rest]|] eqn:Hexec; [|done].
    apply exec_block_Some in Hexec as (pre & after & [-> _] & [-> _]).
    by destruct (Hno pre content rest).
Qed.

Lemma loop_Ok_tolerated (fuel : nat) (text : jstring)
    (acc requests : list ParsedToolRequest) (log0 log : list jstring) :
  parseToolRequests_loop fuel text acc log0 = (Ok requests, log) ->
  Forall (fun b => unexpectedOf b = None) (blocks_loop fuel text).
Proof.
  revert text acc log0. induction fuel as [|f IH]; intros text acc log0; cbn; [done|].
  destruct (RegExp.exec _ text) as [[content rest]|]; cbn; [|done].
  destruct (block_outcome (RegExp.open_marker ++ content ++ RegExp.close_marker))
    as [(r & -> & _ & _ & Hu)|[(m & -> & _ & _ & Hu)|(e' & -> & Hx & _)]].
  - intros H. apply Forall_cons. split; [done | by eapply IH].
  - intros H. apply Forall_cons. split; [done | by eapply IH].
  - by destruct e'.
Qed.

Lemma blocks_loop_bound (fuel : nat) (text : jstring) :
  29 * length (blocks_loop fuel text) <= length text.
Proof.
  revert text. induction fuel as [|f IH]; intros text; simpl; [lia|].
  destruct (RegExp.exec _ text) as [[content rest]|] eqn:Hexec; simpl; [|lia].
  apply exec_block_Some in Hexec as (pre & after & [-> _] & [-> _]).
  pose proof (IH rest). rewrite !length_app, open_marker_length, close_marker_length.
  lia.
Qed.

(** ** The errors of a build *)

Lemma validate_errors (request : ParsedToolRequest) (e : error) :
  validateToolRequest request = Throw e ->
  (truthy (toolName request) = false /\ e = missing_tool_name) \/
  (truthy (serverName request) = false /\ e = missing_server_name) \/
  (~ is_structured (arguments request) /\ e = invalid_arguments) \/
  (exists shown, ToString (serverName request) = Ok shown /\
     ~ server_name_format shown /\ e = invalid_server_name shown) \/
  (exists shown, ToString (toolName request) = Ok shown /\
     ~ tool_name_format shown /\ e = invalid_tool_name shown) \/
  e = TypeError.
Proof.
  unfold validateToolRequest, isValidToolName, RegExp.test.
  destruct (truthy (toolName request)); cbn [negb]; [|intros [= <-]; by left].
  destruct (truthy (serverName request)); cbn [negb]; [|intros [= <-]; right; by left].
  destruct (_ || _) eqn:Hargs.
  { intros [= <-]. right. right. left. split; [|done].
    intros H%structured_spec. congruence. }
  destruct (ToString (serverName request)) as [sn|esn] eqn:Hsn; cbn [bind].
  2:{ intros [= <-]. do 5 right. by eapply ToString_error. }
  destruct (RegExp.serverNamePattern sn) eqn:Hpat; cbn [negb].
  2:{ intros [= <-]. do 3 right. left. exists sn. split; [done|]. split; [|done].
      intros H%serverNamePattern_spec. congruence. }
  destruct (ToString (toolName request)) as [tn|etn] eqn:Htn; cbn [bind].
  2:{ intros [= <-]. do 5 right. by eapply ToString_error. }
  destruct (RegExp.toolNamePattern tn) eqn:Hpat'; cbn [negb]; [done|].
  intros [= <-]. do 4 right. left. exists tn. split; [done|]. split; [|done].
  intros H%toolNamePattern_spec. congruence.
Qed.

Lemma validate_Ok (request : ParsedToolRequest) :
  validateToolRequest request = Ok tt <->
  truthy (toolName request) = true /\ truthy (serverName request) = true /\
  is_structured (arguments request) /\
  (exists shown, ToString (serverName request) = Ok shown /\ server_name_format shown) /\
  (exists shown, ToString (toolName request) = Ok shown /\ tool_name_format shown).
Proof.
  unfold validateToolRequest, isValidToolName, RegExp.test.
  rewrite <- structured_spec.
  destruct (truthy (toolName request)); cbn [negb]; [|by split; [|intros [? _]]].
  destruct (truthy (serverName request)); cbn [negb];
    [|by split; [|intros (_ & ? & _)]].
  destruct (_ || _); [by split; [|intros (_ & _ & ? & _)]|].
  destruct (ToString (serverName request)) as [sn|esn]; cbn [bind];
    [|by split; [|intros (_ & _ & _ & (? & ? & _) & _)]].
  destruct (RegExp.serverNamePattern sn) eqn:Hsn; cbn [negb].
  2:{ split; [done|]. intros (_ & _ & _ & (s & [= <-] & H%serverNamePattern_spec) & _).
      congruence. }
  apply serverNamePattern_spec in Hsn.
  destruct (ToString (toolName request)) as [tn|etn]; cbn [bind];
    [|by split; [|intros (_ & _ & _ & _ & (? & ? & _))]].
  destruct (RegExp.toolNamePattern tn) eqn:Htn; cbn [negb].
  - apply toolNamePattern_spec in Htn. split; [|done]. intros _.
    repeat split; by eexists.
  - split; [done|]. intros (_ & _ & _ & _ & (s & [= <-] & H%toolNamePattern_spec)).
    congruence.
Qed.

(** ** What a build returns and raises *)

Lemma parseParameters_total (content : jstring) :
  exists params, parseParameters content = Ok params.
Proof. by eexists. Qed.

(** The build after the pattern has matched, step by step. *)
Lemma parseToolRequest_matched (text content rest : jstring) :
  RegExp.exec RegExp.block_here text = Some (content, rest) ->
  exists params, parseParameters content = Ok params /\
    ((exists k, first_missing params = Some k /\
        parseToolRequest text = Throw (XmlParseError (missing_message k))) \/
     (first_missing params = None /\
      ((exists s e, get params (str "arguments") = VStr s /\ JSON.parse s = Throw e /\
          parseToolRequest text = Throw invalid_json) \/
       (exists toolArguments,
          (get params (str "arguments") = toolArguments \/
           exists s, get params (str "arguments") = VStr s /\
                     JSON.parse s = Ok toolArguments) /\
          parseToolRequest text =
            (_ <- validateToolRequest (candidate params toolArguments text) ;;
             Ok (candidate params toolArguments text)))))).
Proof.
  intros Hexec. destruct (parseParameters_total content) as [params Hparams].
  exists params. split; [done|].
  destruct (first_missing params) as [k|] eqn:Hk.
  - left. exists k. split; [done|]. by eapply parseToolRequest_missing.
  - right. split; [done|].
    rewrite (parseToolRequest_complete _ _ _ _ Hexec Hparams Hk).
    destruct (get params (str "arguments")) as [| |b|x|s|l|m] eqn:Hargs;
      try (right; eexists; split; [left; reflexivity | reflexivity]).
    destruct (JSON.parse s) as [v|e] eqn:Hv.
    + right. exists v. split; [right; by exists s | done].
    + left. by exists s, e.
Qed.

Lemma first_missing_key (params : object) (k : jstring) :
  first_missing params = Some k -> k ∈ required_keys.
Proof.
  unfold first_missing. intros [H _]%find_some. by apply list_elem_of_In.
Qed.

Lemma first_missing_truthy (params : object) (k : jstring) :
  first_missing params = None -> k ∈ required_keys -> truthy (get params k) = true.
Proof.
  intros Hnone%first_missing_None Hk. by eapply Forall_forall in Hnone.
Qed.

Lemma parseToolRequest_errors (text : jstring) (e : error) :
  parseToolRequest text = Throw e -> build_error e.
Proof.
  unfold build_error.
  destruct (RegExp.exec RegExp.block_here text) as [[content rest]|] eqn:Hexec.
  - destruct (parseToolRequest_matched _ _ _ Hexec)
      as (params & _ & [(k & Hk & ->)|(Hnone & [(s & e' & _ & _ & ->)|(v & _ & ->)])]).
    + intros [= <-]. right. left. exists k. split; [by eapply first_missing_key | done].
    + intros [= <-]. right. right. by left.
    + destruct (validateToolRequest _) as [[]|e'] eqn:Hval; [done|]. cbn [bind].
      intros [= <-].
      destruct (validate_errors _ _ Hval)
        as [[Ht _]|[[Hs _]|[[_ ->]|[(s & _ & _ & ->)|[(s & _ & _ & ->)| ->]]]]].
      * simpl in Ht. rewrite (first_missing_truthy _ _ Hnone) in Ht; [done|].
        right. by left.
      * simpl in Hs. rewrite (first_missing_truthy _ _ Hnone) in Hs; [done|]. by left.
      * do 3 right. by left.
      * do 4 right. left. by exists s.
      * do 5 right. left. by exists s.
      * by do 6 right.
  - unfold parseToolRequest. rewrite Hexec. intros [= <-]. by left.
Qed.

(** ** Names of a returned request *)

Lemma digits_of_aux_head (fuel : nat) (z : Z) (acc : jstring) :
  (forall c r, acc = c :: r -> decimal_digit c) ->
  (fuel = 0 -> acc <> []) ->
  exists c r, Num.digits_of_aux fuel z acc = c :: r /\ decimal_digit c.
Proof.
  revert z acc. induction fuel as [|f IH]; intros z acc Hacc Hne; simpl.
  - destruct acc as [|c r]; [by destruct Hne|]. exists c, r. split; [done|]. by eapply Hacc.
  - assert (decimal_digit (Z.to_N (z mod 10) + 48)) as Hd.
    { unfold decimal_digit. pose proof (Z.mod_pos_bound z 10 ltac:(lia)). lia. }
    destruct (z <? 10)%Z.
    + by eexists _, _.
    + apply IH; [|done]. by intros c r [= <- _].
Qed.

Lemma digits_of_head (z : Z) :
  exists c r, Num.digits_of z = c :: r /\ decimal_digit c.
Proof. unfold Num.digits_of. by apply digits_of_aux_head. Qed.

Lemma finite_to_string_head (m : positive) (e : Z) :
  exists c r, Num.finite_to_string m e = c :: r /\ decimal_digit c.
Proof.
  unfold Num.finite_to_string.
  destruct (Num.shortest _ _ _ _ _ _ _) as [[s k] n].
  destruct (digits_of_head s) as (c & r & -> & Hc).
  assert (decimal_digit 48) as H0 by (unfold decimal_digit; lia).
  destruct ((k <=? n)%Z && (n <=? 21)%Z); [by eexists _, _|].
  destruct ((0 <? n)%Z && (n <=? 21)%Z) eqn:Hn.
  { apply andb_true_iff in Hn as [Hn%Z.ltb_lt _].
    destruct (Z.to_nat n) as [|n'] eqn:Hn'; [lia|]. by eexists _, _. }
  destruct ((-6 <? n)%Z && (n <=? 0)%Z); [by eexists _, _|].
  destruct (k =? 1)%Z; by eexists _, _.
Qed.

(** The string of a number does not begin with a lower-case letter. *)
Lemma Num_toString_head (x : spec_float) :
  exists c r, Num.toString x = c :: r /\ ~ lower_letter c.
Proof.
  assert (forall c, decimal_digit c -> ~ lower_letter c) as Hdigit
    by (unfold decimal_digit, lower_letter; lia).
  destruct x as [s|s| |s m e]; simpl.
  - eexists _, _. split; [by vm_compute|]. unfold lower_letter. lia.
  - destruct s; (eexists _, _; split; [by vm_compute|]); unfold lower_letter; lia.
  - eexists _, _. split; [by vm_compute|]. unfold lower_letter. lia.
  - destruct (finite_to_string_head m e) as (c & r & -> & Hc). destruct s.
    + eexists _, _. split; [by vm_compute|]. unfold lower_letter. lia.
    + exists c, r. split; [done | by apply Hdigit].
Qed.

Lemma format_head (extra : N) (s : jstring) :
  (exists c r, s = c :: r /\ lower_letter c /\
     Forall (fun d => lower_letter d \/ decimal_digit d \/ d = extra) r) ->
  exists c r, s = c :: r /\ lower_letter c.
Proof. intros (c & r & -> & Hc & _). by exists c, r. Qed.

Lemma accepted_name_spec (format : jstring -> Prop) (name : any) (shown : jstring) :
  (forall s, format s -> exists c r, s = c :: r /\ lower_letter c) ->
  truthy name = true -> ToString name = Ok shown -> format shown ->
  accepted_name format name.
Proof.
  intros Hhead Htruthy Hshown Hformat.
  destruct (Hhead _ Hformat) as (c & r & -> & Hc).
  assert (str "[object Object]" <> c :: r) as Hbracket.
  { intros Heq. vm_compute in Heq. injection Heq as <- _.
    unfold lower_letter in Hc. lia. }
  destruct name as [| |b|x|s|l|p m]; try done.
  - injection Hshown as Hx.
    destruct (Num_toString_head x) as (c' & r' & Hx' & Hc'). congruence.
  - by injection Hshown as ->.
  - rewrite ToString_VObj in Hshown. cbn [accepted_name].
    destruct (lookup _ (str "toString")); [done|].
    destruct (chain_end_of _); [congruence| |done].
    destruct (lookup _ (str "join")); [congruence|done].
Qed.

Lemma parseToolRequest_Ok_valid (text : jstring) (request : ParsedToolRequest) :
  parseToolRequest text = Ok request -> validateToolRequest request = Ok tt.
Proof.
  intros Hok.
  destruct (RegExp.exec RegExp.block_here text) as [[content rest]|] eqn:Hexec.
  - destruct (parseToolRequest_matched _ _ _ Hexec)
      as (params & _ & [(k & _ & Hk)|(_ & [(s & e & _ & _ & He)|(v & _ & Hv)])]);
      try congruence.
    rewrite Hv in Hok.
    destruct (validateToolRequest _) as [[]|e] eqn:Hval; [|done].
    cbn [bind] in Hok. by injection Hok as <-.
  - unfold parseToolRequest in Hok. by rewrite Hexec in Hok.
Qed.

(** X1.  A request [parseToolRequest] returns has passed
    [validateToolRequest]: it carries the text it was built from, its
    arguments are an object or an array, and each of its names converts to a
    string in the format of that name.  A name is a string in its format,
    the boolean [true], an array, or an object that inherits from an array
    and finds neither [toString] nor [join] as data; it is never a number,
    [null], [undefined] or an object of any other kind. *)
Theorem returned_request_is_valid (text : jstring) (request : ParsedToolRequest) :
  parseToolRequest text = Ok request ->
  raw request = text /\
  validateToolRequest request = Ok tt /\
  is_structured (arguments request) /\
  (exists shown, ToString (serverName request) = Ok shown /\ server_name_format shown) /\
  (exists shown, ToString (toolName request) = Ok shown /\ tool_name_format shown) /\
  accepted_name server_name_format (serverName request) /\
  accepted_name tool_name_format (toolName request).
Proof.
  intros Hok. split; [by eapply parseToolRequest_raw|].
  pose proof (parseToolRequest_Ok_valid _ _ Hok) as Hvalid.
  split; [done|].
  apply validate_Ok in Hvalid as (Ht & Hs & Hargs & (sn & Hsn & Hsnf) & (tn & Htn & Htnf)).
  split; [done|]. split; [by exists sn|]. split; [by exists tn|]. split.
  - eapply accepted_name_spec; [apply format_head|done..].
  - eapply accepted_name_spec; [apply format_head|done..].
Qed.


(** ** More properties of a batch *)

Lemma parseToolRequest_matched_errors (text content rest : jstring) (e : error) :
  RegExp.exec RegExp.block_here text = Some (content, rest) ->
  parseToolRequest text = Throw e -> e <> invalid_format.
Proof.
  intros Hexec He.
  assert (build_error e) as Hcat by (by eapply parseToolRequest_errors).
  destruct (parseToolRequest_matched _ _ _ Hexec)
    as (params & _ & [(k & Hk & Hthrow)|(Hnone & [(s & e' & _ & _ & Hthrow)|(v & _ & Hv)])]).
  - rewrite Hthrow in He. injection He as <-. apply first_missing_key in Hk.
    intros H. repeat (apply elem_of_cons in Hk as [->|Hk]; [by vm_compute in H|]).
    by apply elem_of_nil in Hk.
  - rewrite Hthrow in He. injection He as <-. intros H. by vm_compute in H.
  - rewrite Hv in He.
    destruct (validateToolRequest _) as [[]|e'] eqn:Hval; [done|]. cbn [bind] in He.
    injection He as <-.
    destruct (validate_errors _ _ Hval)
      as [[_ ->]|[[_ ->]|[[_ ->]|[(s & _ & _ & ->)|[(s & _ & _ & ->)| ->]]]]];
      intros H; by vm_compute in H.
Qed.

(** X3.  [parseToolRequest] raises "Invalid tool request format" exactly
    on a text that holds no block.  On a block that batch extraction has
    matched, its own pattern finds the same content again, so that a batch
    never logs this error. *)
Theorem invalid_format_iff_no_block (text : jstring) :
  (parseToolRequest text = Throw invalid_format <->
   forall pre body post,
     text <> pre ++ RegExp.open_marker ++ body ++ RegExp.close_marker ++ post) /\
  (forall b, b ∈ blocks text ->
     (exists content,
        b = RegExp.open_marker ++ content ++ RegExp.close_marker /\
        RegExp.exec RegExp.block_here b = Some (content, [])) /\
     parseToolRequest b <> Throw invalid_format).
Proof.
  split.
  - split.
    + intros He. destruct (RegExp.exec RegExp.block_here text) as [[content rest]|] eqn:Hexec.
      * by destruct (parseToolRequest_matched_errors _ _ _ _ Hexec He).
      * by apply exec_block_None.
    + intros Hno. unfold parseToolRequest.
      destruct (RegExp.exec RegExp.block_here text) as [[content rest]|] eqn:Hexec; [|done].
      apply exec_block_Some in Hexec as (pre & after & [-> _] & [-> _]).
      by destruct (Hno pre content rest).
  - intros b (content & -> & Hexec)%blocks_elem. split; [by exists content|].
    intros He. by destruct (parseToolRequest_matched_errors _ _ _ _ Hexec He).
Qed.

(** X4.  [parseToolRequests] returns no request and logs nothing exactly
    on a text that holds no block, the empty text among them. *)
Theorem extraction_empty_iff_no_block (text : jstring) :
  parseToolRequests text = (Ok [], []) <->
  forall pre body post,
    text <> pre ++ RegExp.open_marker ++ body ++ RegExp.close_marker ++ post.
Proof.
  rewrite <- blocks_nil_iff. unfold parseToolRequests. split.
  - intros Hrun.
    pose proof (loop_Ok_tolerated _ _ _ _ _ _ Hrun) as Hall.
    fold (blocks text) in Hall.
    pose proof (omap_outcomes_length _ Hall) as Hcount.
    rewrite loop_tolerated in Hrun by done. fold (blocks text) in Hrun.
    injection Hrun as Hr Hl. rewrite Hr, Hl in Hcount. simpl in Hcount.
    by destruct (blocks text).
  - intros Hnil. rewrite loop_tolerated; fold (blocks text); by rewrite Hnil.
Qed.

(** X5.  A block takes at least 29 code units, so that the blocks of a
    text, and with them the requests and diagnostics of an extraction,
    number at most the length of the text divided by 29. *)
Theorem extraction_bounded (text : jstring) :
  29 * length (blocks text) <= length text /\
  (forall requests log,
     parseToolRequests text = (Ok requests, log) ->
     29 * (length requests + length log) <= length text).
Proof.
  split; [apply blocks_loop_bound|].
  intros requests log Hrun. unfold parseToolRequests in Hrun.
  pose proof (loop_Ok_tolerated _ _ _ _ _ _ Hrun) as Hall.
  rewrite loop_tolerated in Hrun by done. injection Hrun as <- <-.
  fold (blocks text) in Hall |- *. rewrite (omap_outcomes_length _ Hall).
  apply blocks_loop_bound.
Qed.



(** X7.  Every request [parseToolRequests] returns passes
    [validateToolRequest], and the text it carries is one of the blocks of
    the input. *)
Theorem extracted_requests_are_valid (text : jstring)
    (requests : list ParsedToolRequest) (log : list jstring) :
  parseToolRequests text = (Ok requests, log) ->
  Forall (fun request =>
            validateToolRequest request = Ok tt /\
            raw request ∈ blocks text /\
            parseToolRequest (raw request) = Ok request) requests.
Proof.
  intros ->%loop_requests. simpl. fold (blocks text).
  apply Forall_forall. intros request (b & Hb & Hreq)%list_elem_of_omap.
  unfold requestOf in Hreq. destruct (parseToolRequest b) as [r|] eqn:Hr; [|done].
  injection Hreq as ->.
  rewrite (parseToolRequest_raw _ _ Hr). split; [by eapply parseToolRequest_Ok_valid | done].
Qed.

(** ** More on normalization *)

Lemma trimStart_app_ws (p s : jstring) :
  Forall (fun c => isWhiteSpace c = true) p -> trimStart (p ++ s) = trimStart s.
Proof. induction 1 as [|c p Hc _ IH]; simpl; [done|]. by rewrite Hc. Qed.

Lemma trimStart_all_ws (p : jstring) :
  Forall (fun c => isWhiteSpace c = true) p -> trimStart p = [].
Proof. intros Hp. rewrite <- (app_nil_r p). by rewrite trimStart_app_ws. Qed.

Lemma trimEnd_app_ws (s p : jstring) :
  Forall (fun c => isWhiteSpace c = true) p -> trimEnd (s ++ p) = trimEnd s.
Proof.
  intros Hp. unfold trimEnd. rewrite rev_app_distr, trimStart_app_ws; [done|].
  apply Forall_forall. intros c Hc%list_elem_of_In%in_rev%list_elem_of_In.
  by eapply Forall_forall in Hp.
Qed.

Lemma trimStart_app_r (s p : jstring) :
  trimStart s <> [] -> trimStart (s ++ p) = trimStart s ++ p.
Proof.
  induction s as [|c s IH]; simpl; [done|]. destruct (isWhiteSpace c); [apply IH | done].
Qed.

Lemma trimStart_ws_or (s : jstring) :
  trimStart s = [] -> Forall (fun c => isWhiteSpace c = true) s.
Proof.
  induction s as [|c s IH]; simpl; [done|].
  destruct (isWhiteSpace c) eqn:Hc; [|done]. intros H. apply Forall_cons. auto.
Qed.

Lemma trim_padded (p1 s p2 : jstring) :
  Forall (fun c => isWhiteSpace c = true) p1 ->
  Forall (fun c => isWhiteSpace c = true) p2 ->
  trim (p1 ++ s ++ p2) = trim s.
Proof.
  intros H1 H2. unfold trim. rewrite trimStart_app_ws by done.
  destruct (trimStart s) as [|c r] eqn:Hs.
  - rewrite trimStart_all_ws; [done|]. apply Forall_app. split; [|done].
    by apply trimStart_ws_or.
  - rewrite trimStart_app_r by (by rewrite Hs). rewrite Hs. by apply trimEnd_app_ws.
Qed.

(** X8.  White space around a value does not change what [normalizeValue]
    makes of it. *)
Theorem normalize_ignores_padding (p1 s p2 : jstring) :
  Forall (fun c => isWhiteSpace c = true) p1 ->
  Forall (fun c => isWhiteSpace c = true) p2 ->
  normalizeValue (p1 ++ s ++ p2) = normalizeValue s /\
  normalizeValue (trim s) = normalizeValue s.
Proof.
  intros H1 H2. unfold normalizeValue. by rewrite trim_padded, trim_idemp.
Qed.

(** X9.  [normalizeValue] never gives [undefined], [null] or [NaN].  A
    text it gives is the trimmed content; a boolean is the trimmed content
    read without regard to case; a number is [Number] of the trimmed
    content; an object or array is what [JSON.parse] makes of the trimmed
    content, which is then in braces or in brackets. *)
Theorem normalize_range (s : jstring) :
  normalizeValue s <> VUndefined /\ normalizeValue s <> VNull /\
  (forall t, normalizeValue s = VStr t -> t = trim s) /\
  (forall b, normalizeValue s = VBool b ->
     toLowerCase (trim s) = if b then str "true" else str "false") /\
  (forall x, normalizeValue s = VNum x ->
     x = Num.Number (trim s) /\ Num.isNaN x = false) /\
  (is_structured (normalizeValue s) ->
     bracketed (trim s) /\ JSON.parse (trim s) = Ok (normalizeValue s)).
Proof.
  assert (forall v : any, ~ is_structured v -> v <> VUndefined -> v <> VNull ->
    (forall t, v = VStr t -> t = trim s) ->
    (forall b, v = VBool b ->
       toLowerCase (trim s) = if b then str "true" else str "false") ->
    (forall x, v = VNum x -> x = Num.Number (trim s) /\ Num.isNaN x = false) ->
    v <> VUndefined /\ v <> VNull /\
    (forall t, v = VStr t -> t = trim s) /\
    (forall b, v = VBool b ->
       toLowerCase (trim s) = if b then str "true" else str "false") /\
    (forall x, v = VNum x -> x = Num.Number (trim s) /\ Num.isNaN x = false) /\
    (is_structured v -> bracketed (trim s) /\ JSON.parse (trim s) = Ok v)) as Hscalar.
  { intros v Hv H1 H2 H3 H4 H5. do 5 (split; [done|]). intros Hs. by destruct Hv. }
  assert (forall t, ~ is_structured (VStr t)) as Htext by (by intros t [(? & ? & ?)|[? ?]]).
  unfold normalizeValue. cbn [truthy].
  destruct (bool_decide_reflect (trim s = [])) as [Hempty|Hne]; cbn [negb andb].
  { apply Hscalar; try done. by intros t [= <-]. }
  destruct (bool_decide_reflect (toLowerCase (trim s) = str "true")) as [Ht|Ht].
  { apply Hscalar; try done; [by intros [(? & ? & ?)|[? ?]] | by intros b [= <-]]. }
  destruct (bool_decide_reflect (toLowerCase (trim s) = str "false")) as [Hf|Hf].
  { apply Hscalar; try done; [by intros [(? & ? & ?)|[? ?]] | by intros b [= <-]]. }
  destruct (Num.isNaN (Num.Number (trim s))) eqn:Hnan; cbn [negb andb].
  2:{ apply Hscalar; try done; [by intros [(? & ? & ?)|[? ?]] | by intros x [= <-]]. }
  destruct (_ || _) eqn:Hb.
  2:{ apply Hscalar; try done. by intros t [= <-]. }
  apply bracketed_spec in Hb.
  destruct (JSON.parse (trim s)) as [v|e] eqn:Hv.
  2:{ apply Hscalar; try done. by intros t [= <-]. }
  destruct (parse_bracketed_structured _ _ Hb Hv) as [(p & m & ->)|[l ->]];
    repeat split; done.
Qed.

(** ** Matching pairs *)

Lemma name_until_gt_app (name rest : jstring) :
  name <> [] -> 62%N ∉ name ->
  RegExp.name_until_gt (name ++ 62%N :: rest) = Some (name, rest).
Proof.
  induction name as [|c name IH]; [done|]. intros _ Hgt.
  apply not_elem_of_cons in Hgt as [Hc Hname].
  change (RegExp.name_until_gt ((c :: name) ++ 62%N :: rest)) with
    (if (c =? 62)%N then None
     else match name ++ 62%N :: rest with
          | d :: s'' =>
              if (d =? 62)%N then Some ([c], s'')
              else match RegExp.name_until_gt (name ++ 62%N :: rest) with
                   | Some (n, r) => Some (c :: n, r)
                   | None => None
                   end
          | [] => None
          end).
  destruct (N.eqb_spec c 62) as [|_]; [congruence|].
  destruct name as [|d name].
  - simpl. by rewrite ?N.eqb_refl.
  - rewrite IH; [|done..]. simpl.
    apply not_elem_of_cons in Hname as [Hd _].
    by destruct (N.eqb_spec d 62) as [|_]; [congruence|].
Qed.

Lemma tag_pair_app (name inner rest : jstring) :
  tag_pair name inner ++ rest = 60%N :: name ++ 62%N :: inner ++ closing_tag name ++ rest.
Proof.
  unfold tag_pair. cbn [app]. f_equal. rewrite <- app_assoc. cbn [app]. f_equal.
  by rewrite <- app_assoc.
Qed.

Lemma tag_here_Some_first (s name body rest : jstring) :
  RegExp.tag_here s = Some (name, body, rest) ->
  name <> [] /\ (62%N ∉ name) /\
  s = tag_pair name body ++ rest /\
  first_occurrence (closing_tag name) (body ++ closing_tag name ++ rest) body rest.
Proof.
  rewrite tag_pair_app. unfold RegExp.tag_here, closing_tag.
  destruct s as [|c s]; [done|].
  destruct (N.eqb_spec c 60) as [->|Hc]; [|done].
  destruct (RegExp.name_until_gt s) as [[n s2]|] eqn:Hn; [|done].
  destruct (RegExp.lazy_until _ s2) as [[b r]|] eqn:Hb; [|done].
  intros [= <- <- <-]. apply name_until_gt_Some in Hn as (-> & Hne & Hgt).
  apply lazy_until_Some in Hb. pose proof Hb as [-> _].
  do 3 (split; [done|]). done.
Qed.

Lemma tag_here_pair (name body rest s : jstring) :
  name <> [] -> 62%N ∉ name ->
  first_occurrence (closing_tag name) s body rest ->
  RegExp.tag_here (60%N :: name ++ 62%N :: s) = Some (name, body, rest).
Proof.
  intros Hne Hgt Hfirst. unfold RegExp.tag_here. rewrite N.eqb_refl.
  rewrite name_until_gt_app by done.
  fold (closing_tag name). by rewrite (lazy_until_first _ _ _ _ Hfirst).
Qed.

Lemma tag_here_head (s : jstring) :
  is_Some (RegExp.tag_here s) -> exists r, s = 60%N :: r.
Proof.
  unfold RegExp.tag_here. destruct s as [|c s]; [by intros [? ?]|].
  destruct (N.eqb_spec c 60) as [->|]; [by eexists | by intros [? ?]].
Qed.

Lemma exec_tag_after_prose (pre s : jstring) :
  60%N ∉ pre ->
  RegExp.exec RegExp.tag_here (pre ++ s) = RegExp.exec RegExp.tag_here s.
Proof.
  induction pre as [|c pre IH]; [done|].
  intros [Hc Hpre]%not_elem_of_cons. simpl app. rewrite exec_unfold.
  destruct (RegExp.tag_here (c :: pre ++ s)) eqn:Hhere; [|by apply IH].
  destruct (tag_here_head (c :: pre ++ s)) as [r [= ->]]; [by eexists | done].
Qed.

Lemma exec_tag_no_lt (s : jstring) :
  60%N ∉ s -> RegExp.exec RegExp.tag_here s = None.
Proof.
  intros Hs. rewrite <- (app_nil_r s), exec_tag_after_prose by done.
  by rewrite exec_unfold.
Qed.

(** Content without [<] holds the closing tag nowhere. *)
Lemma flat_first_occurrence (name inner rest : jstring) :
  60%N ∉ inner ->
  first_occurrence (closing_tag name) (inner ++ closing_tag name ++ rest) inner rest.
Proof.
  intros Hflat. split; [done|]. intros pre' post' Heq.
  destruct (decide (length inner <= length pre')) as [|Hlt]; [done|]. exfalso.
  symmetry in Heq. apply app_eq_le in Heq as (x & -> & Hx); [|lia].
  destruct x as [|c x]; [rewrite app_nil_r in Hlt; lia|].
  unfold closing_tag in Hx at 1. change (str "</") with [60%N; 47%N] in Hx.
  injection Hx as <- _. apply Hflat, elem_of_app. right. by left.
Qed.

Lemma siblings_after_pair (prose name inner rest : jstring) :
  60%N ∉ prose -> name <> [] -> 62%N ∉ name ->
  first_occurrence (closing_tag name) (inner ++ closing_tag name ++ rest) inner rest ->
  RegExp.exec RegExp.tag_here (prose ++ tag_pair name inner ++ rest)
    = Some (name, inner, rest) /\
  siblings (prose ++ tag_pair name inner ++ rest) = (name, inner) :: siblings rest.
Proof.
  intros Hprose Hne Hgt Hfirst.
  assert (RegExp.exec RegExp.tag_here (prose ++ tag_pair name inner ++ rest)
          = Some (name, inner, rest)) as Hexec.
  { rewrite exec_tag_after_prose, exec_unfold by done.
    rewrite tag_pair_app. by rewrite (tag_here_pair name inner rest). }
  split; [done|]. by rewrite siblings_unfold, Hexec.
Qed.

(** X10.  A complete pair that follows text without [<] is the next match
    of [parseParameters]: a non-empty name without [>], any content in which
    the closing tag of that name occurs nowhere before the end (content
    without [<], for one), and the closing tag.  The search then resumes
    after the closing tag. *)
Theorem pair_is_next_sibling (prose name inner rest : jstring) :
  60%N ∉ prose -> name <> [] -> 62%N ∉ name ->
  (60%N ∉ inner \/
   first_occurrence (closing_tag name) (inner ++ closing_tag name ++ rest) inner rest) ->
  RegExp.exec RegExp.tag_here (prose ++ tag_pair name inner ++ rest)
    = Some (name, inner, rest) /\
  siblings (prose ++ tag_pair name inner ++ rest) = (name, inner) :: siblings rest.
Proof.
  intros Hprose Hne Hgt [Hflat|Hfirst]; apply siblings_after_pair; try done.
  by apply flat_first_occurrence.
Qed.

(** ** Nested tags *)

Lemma exec_tag_has_pair (s : jstring) :
  is_Some (RegExp.exec RegExp.tag_here s) <-> has_pair s.
Proof.
  split.
  - intros [[[n b] r] (pre & suf & -> & Hhere & _)%exec_Some].
    apply tag_here_Some_first in Hhere as (Hne & Hgt & -> & _).
    by exists pre, n, b, r.
  - intros (pre & n & i & rest & -> & Hne & Hgt).
    destruct (RegExp.exec RegExp.tag_here (pre ++ tag_pair n i ++ rest)) eqn:Hexec;
      [by eexists|].
    pose proof (exec_None _ _ Hexec pre _ eq_refl) as Hhere.
    rewrite tag_pair_app in Hhere. unfold RegExp.tag_here in Hhere.
    rewrite N.eqb_refl, name_until_gt_app in Hhere by done.
    fold (closing_tag n) in Hhere.
    destruct (RegExp.lazy_until (closing_tag n) (i ++ closing_tag n ++ rest))
      as [[b r]|] eqn:Hlazy; [done|].
    by eapply lazy_until_None in Hlazy.
Qed.

Lemma trimStart_decompose (s : jstring) :
  exists p, s = p ++ trimStart s /\ Forall (fun c => isWhiteSpace c = true) p.
Proof.
  induction s as [|c s (p & Hs & Hp)]; [by exists []|]. simpl.
  destruct (isWhiteSpace c) eqn:Hc.
  - exists (c :: p). split; [by rewrite Hs at 1 | by apply Forall_cons].
  - by exists [].
Qed.

Lemma trim_decompose (s : jstring) :
  exists p1 p2, s = p1 ++ trim s ++ p2 /\
    Forall (fun c => isWhiteSpace c = true) p1 /\
    Forall (fun c => isWhiteSpace c = true) p2.
Proof.
  destruct (trimStart_decompose s) as (p1 & Hs & Hp1).
  destruct (trimStart_decompose (rev (trimStart s))) as (q & Hq & Hq').
  exists p1, (rev q). split; [|split; [done|]].
  - unfold trim, trimEnd. rewrite <- rev_app_distr, <- Hq, rev_involutive. done.
  - apply Forall_forall. intros c Hc%list_elem_of_In%in_rev%list_elem_of_In.
    by eapply Forall_forall in Hq'.
Qed.

Lemma app_eq_ge {A : Type} (a b c d : list A) :
  a ++ b = c ++ d -> length b <= length d -> exists x, d = x ++ b /\ a = c ++ x.
Proof.
  intros Heq Hlen. apply (f_equal (@rev A)) in Heq. rewrite !rev_app_distr in Heq.
  apply app_eq_le in Heq as (x & Hd & Ha); [|by rewrite !length_rev].
  exists (rev x). split.
  - by rewrite <- (rev_involutive d), Hd, rev_app_distr, rev_involutive.
  - by rewrite <- (rev_involutive a), Ha, rev_app_distr, rev_involutive.
Qed.

Lemma has_pair_trim (s : jstring) : has_pair (trim s) <-> has_pair s.
Proof.
  destruct (trim_decompose s) as (p1 & p2 & Hs & Hp1 & Hp2).
  remember (trim s) as t eqn:Et. clear Et. split.
  - intros (pre & n & i & rest & Ht & Hne & Hgt).
    exists (p1 ++ pre), n, i, (rest ++ p2). split; [|done].
    rewrite Hs at 1. rewrite Ht, <- !app_assoc. done.
  - intros (pre & n & i & rest & Hpair & Hne & Hgt).
    rewrite Hpair in Hs.
    assert (exists pre', pre = p1 ++ pre' /\ t ++ p2 = pre' ++ tag_pair n i ++ rest)
      as (pre' & -> & Hs').
    { destruct (decide (length p1 <= length pre)) as [Hle|Hgt'].
      - symmetry in Hs. apply app_eq_le in Hs as (x & -> & Hx); [|done]. by exists x.
      - apply app_eq_le in Hs as (x & -> & Hx); [|lia]. exfalso.
        destruct x as [|c x]; [rewrite app_nil_r in Hgt'; lia|].
        rewrite tag_pair_app in Hx. injection Hx as <- _.
        apply Forall_app in Hp1 as [_ Hp1]. by apply Forall_cons in Hp1 as [? _]. }
    clear Hs.
    assert (exists rest', rest = rest' ++ p2 /\ t = pre' ++ tag_pair n i ++ rest')
      as (rest' & -> & Ht).
    { rewrite (app_assoc pre') in Hs'.
      destruct (decide (length p2 <= length rest)) as [Hle|Hgt'].
      - apply app_eq_ge in Hs' as (x & -> & Hx); [|done]. exists x.
        by rewrite <- app_assoc in Hx.
      - symmetry in Hs'. apply app_eq_ge in Hs' as (x & -> & Hx); [|lia]. exfalso.
        destruct x as [|c x _] using rev_ind; [simpl in Hgt'; lia|].
        unfold tag_pair, closing_tag in Hx. change (str ">") with [62%N] in Hx.
        rewrite !app_comm_cons, !app_assoc in Hx.
        apply app_inj_tail in Hx as [_ <-].
        apply Forall_app in Hp2 as [Hp2 _]. apply Forall_app in Hp2 as [_ Hp2].
        by apply Forall_cons in Hp2 as [? _]. }
    by exists pre', n, i, rest'.
Qed.

Lemma hasNestedTags_spec (s : jstring) : hasNestedTags s = true <-> has_pair s.
Proof.
  rewrite <- has_pair_trim, <- exec_tag_has_pair. unfold hasNestedTags.
  destruct (RegExp.exec RegExp.tag_here (trim s)); split;
    first [done | by eexists | by intros [? ?]].
Qed.

Lemma siblings_nil_iff (s : jstring) : siblings s = [] <-> ~ has_pair s.
Proof.
  rewrite <- exec_tag_has_pair, siblings_unfold.
  destruct (RegExp.exec RegExp.tag_here s) as [[[n v] r]|]; split;
    first [done | by intros _ [? ?] | intros H; destruct H; by eexists].
Qed.



Lemma last_occurrence_Some (name v : jstring) (l : list (jstring * jstring)) :
  (name, v) ∈ l -> is_Some (last_occurrence name l).
Proof.
  intros Hin. unfold last_occurrence.
  assert ((name, v) ∈ filter (fun p : jstring * jstring => p.1 = name) l) as Hf
    by (by apply list_elem_of_filter).
  destruct (filter _ l) as [|p l'] using rev_ind; [by apply elem_of_nil in Hf|].
  rewrite last_snoc. by eexists.
Qed.

Lemma siblings_names (content name inner : jstring) :
  (name, inner) ∈ siblings content -> name <> [] /\ 62%N ∉ name.
Proof.
  unfold siblings. generalize (length content) as fuel. intros fuel. revert content.
  induction fuel as [|f IH]; intros content; simpl; [by intros ?%elem_of_nil|].
  destruct (RegExp.exec RegExp.tag_here content) as [[[n v] r]|] eqn:Hexec;
    [|by intros ?%elem_of_nil].
  intros [[= -> ->]|Hin]%elem_of_cons; [|by eapply IH].
  apply exec_Some in Hexec as (pre & suf & _ & Hhere & _).
  by apply tag_here_Some_first in Hhere as (? & ? & _).
Qed.

(** X11.  [hasNestedTags] holds exactly when the content holds a complete
    pair somewhere, the trimming it does changing nothing, and this is
    exactly when the loop of [parseParameters] finds a sibling.  For content
    with nested tags the value stored is the tree of the recursive call
    when the stack has room for that call, which is truthy, and the
    normalized content when it has not: only then is the fallback taken.
    Content without nested tags has the empty tree and is stored as the
    scalar [normalizeValue] makes of it, whatever the recursive call
    would do. *)
Theorem nested_tags_are_parsed_as_tree (depth : nat) (content : jstring) :
  (hasNestedTags content = true <-> has_pair content) /\
  (hasNestedTags content = true <-> siblings content <> []) /\
  (hasNestedTags content = true ->
     exists tree, parseParameters_depth (S depth) content = Ok tree /\
       paramValueOf (parseParameters_depth (S depth)) content = VObject tree /\
       truthy (paramValueOf (parseParameters_depth (S depth)) content) = true) /\
  (hasNestedTags content = true ->
     paramValueOf (parseParameters_depth 0) content = normalizeValue content) /\
  (hasNestedTags content = false ->
     parseParameters_depth (S depth) content = Ok empty_object /\
     forall self, paramValueOf self content = normalizeValue content).
Proof.
  assert (hasNestedTags content = true <-> siblings content <> []) as Hsib.
  { split.
    - by intros Hn%hasNestedTags_spec Hs%siblings_nil_iff.
    - intros Hs. destruct (hasNestedTags content) eqn:Hn; [done|]. exfalso.
      apply Hs, siblings_nil_iff. intros Hp%hasNestedTags_spec. congruence. }
  split; [apply hasNestedTags_spec|]. split; [done|]. split; [|split].
  - intros Hn. eexists. split; [apply parseParameters_depth_siblings|].
    unfold paramValueOf. by rewrite Hn, parseParameters_depth_siblings.
  - intros Hn. unfold paramValueOf. by rewrite Hn.
  - intros Hn. split.
    + rewrite parseParameters_depth_siblings.
      destruct (siblings content) eqn:Hs; [done|].
      assert (hasNestedTags content = true) by (by apply Hsib). congruence.
    + intros self. unfold paramValueOf. by rewrite Hn.
Qed.

(** X12.  The own keys of the tree [parseParameters] returns are names of
    the siblings it matched: every key is a non-empty name without [>] and
    is bound to the value of one of its pairs, and every matched name, the
    name [__proto__] apart, is a key. *)
Theorem tree_keys_are_sibling_names (content : jstring)
    (params : object) :
  parseParameters content = Ok params ->
  (forall k v, own params !! k = Some v ->
     k <> [] /\ (62%N ∉ k) /\
     exists inner, (k, inner) ∈ siblings content /\ v = paramValue inner) /\
  (forall k inner, (k, inner) ∈ siblings content -> k <> str "__proto__" ->
     is_Some (own params !! k)).
Proof.
  intros Hparams. split.
  - intros k v Hk. rewrite parseParameters_siblings in Hparams.
    injection Hparams as <-.
    apply fold_store_own in Hk as [(inner & Hin & ->)|Hk]; [|done].
    destruct (siblings_names _ _ _ Hin) as [Hne Hgt].
    split; [done|]. split; [done|]. by exists inner.
  - intros k inner Hin Hk. rewrite (parseParameters_lookup _ _ k Hparams) by done.
    destruct (last_occurrence_Some _ _ _ Hin) as [v ->]. by eexists.
Qed.

(** ** A well-formed block *)

Lemma printable_not_ws (c : N) : (33 <= c <= 126)%N -> isWhiteSpace c = false.
Proof.
  intros Hc. unfold isWhiteSpace.
  repeat match goal with
    | |- context [(?a =? ?b)%N] => destruct (N.eqb_spec a b); [lia|]
    | |- context [(?a <=? ?b)%N] => destruct (N.leb_spec a b); [|]
    end; simpl; try done; lia.
Qed.

Lemma trim_fixed (s : jstring) :
  Forall (fun c => isWhiteSpace c = false) s -> trim s = s.
Proof.
  intros Hs.
  assert (forall l : jstring, Forall (fun c => isWhiteSpace c = false) l ->
            trimStart l = l) as Hstart.
  { intros [|c l] Hl; [done|]. apply Forall_cons in Hl as [Hc _]. simpl. by rewrite Hc. }
  unfold trim, trimEnd. rewrite (Hstart s Hs), Hstart, rev_involutive; [done|].
  apply Forall_forall. intros c Hc%list_elem_of_In%in_rev%list_elem_of_In.
  by eapply Forall_forall in Hs.
Qed.

Lemma numeric_literal_head (t : jstring) :
  numeric_literal t ->
  exists c r, t = c :: r /\
    (decimal_digit c \/ c = 43%N \/ c = 45%N \/ c = 46%N \/ c = 73%N).
Proof.
  assert (forall u, unsigned_decimal u ->
            exists c r, u = c :: r /\ (decimal_digit c \/ c = 46%N)) as Hu.
  { intros u (m & ex & -> & _ & [(ip & fp & -> & Hip & _)|[Hne Hm]]).
    - destruct Hip as [|d ip Hd _]; simpl; eexists _, _; eauto.
    - destruct Hm as [|d m Hd _]; [done|]. simpl. eexists _, _; eauto. }
  intros [(sg & u & -> & Hsg & Hdec)|[(sg & -> & Hsg)|(p & ds & -> & _)]].
  - destruct (Hu _ Hdec) as (c & r & -> & Hc).
    destruct Hsg as [-> | [-> | ->]]; simpl; eexists _, _; split; try done; tauto.
  - destruct Hsg as [-> | [-> | ->]]; eexists _, _; (split; [by vm_compute|]); tauto.
  - eexists _, _. split; [done|]. left. unfold decimal_digit. lia.
Qed.

(** A name in one of the two formats, other than [true] and [false], is
    text for [normalizeValue] and holds no [<]. *)
Lemma name_kept_as_text (extra : N) (s : jstring) :
  extra = 45%N \/ extra = 95%N ->
  (exists c r, s = c :: r /\ lower_letter c /\
     Forall (fun d => lower_letter d \/ decimal_digit d \/ d = extra) r) ->
  s <> str "true" -> s <> str "false" ->
  normalizeValue s = VStr s /\ hasNestedTags s = false /\ (60%N ∉ s).
Proof.
  intros Hextra (c & r & -> & Hc & Hr) Htrue Hfalse.
  assert (Forall (fun d => (33 <= d <= 126)%N /\ ~ (65 <= d <= 90)%N /\ d <> 60%N)
            (c :: r)) as Hchars.
  { apply Forall_cons. split; [unfold lower_letter in Hc; lia|].
    eapply Forall_impl; [done|]. unfold lower_letter, decimal_digit. intros d. lia. }
  assert (trim (c :: r) = c :: r) as Htrim.
  { apply trim_fixed. eapply Forall_impl; [done|].
    intros d (Hd & _). by apply printable_not_ws. }
  assert (toLowerCase (c :: r) = c :: r) as Hlower.
  { unfold toLowerCase. clear -Hchars. induction Hchars as [|d l (_ & Hd & _) _ IH]; [done|].
    simpl. rewrite IH. unfold lowerChar.
    destruct (N.leb_spec 65 d), (N.leb_spec d 90); simpl; try done. lia. }
  assert (60%N ∉ c :: r) as Hflat.
  { intros Hin. eapply Forall_forall in Hchars; [|done]. by destruct Hchars as (_ & _ & ?). }
  split; [|split; [|done]].
  - unfold normalizeValue. rewrite Htrim, Hlower. cbn [truthy].
    rewrite (bool_decide_eq_false_2 (c :: r = [])) by done. cbn [negb andb].
    rewrite !bool_decide_eq_false_2 by done.
    destruct (Num.isNaN (Num.Number (c :: r))) eqn:Hnan; cbn [negb andb].
    + destruct (_ || _) eqn:Hb; [|done]. apply bracketed_spec in Hb.
      unfold lower_letter in Hc.
      destruct Hb as [[[? [= -> _]] _]|[[? [= -> _]] _]]; lia.
    + rewrite <- Htrim in Hnan. apply Number_spec in Hnan; [|by rewrite Htrim].
      rewrite Htrim in Hnan.
      apply numeric_literal_head in Hnan as (c' & r' & [= <- <-] & Hhead).
      unfold lower_letter, decimal_digit in *. lia.
  - unfold hasNestedTags. rewrite Htrim. by rewrite exec_tag_no_lt.
Qed.

Lemma siblings_no_lt (s : jstring) : 60%N ∉ s -> siblings s = [].
Proof. intros Hs. by rewrite siblings_unfold, exec_tag_no_lt. Qed.

Lemma paramValue_name (extra : N) (s : jstring) :
  extra = 45%N \/ extra = 95%N ->
  (exists c r, s = c :: r /\ lower_letter c /\
     Forall (fun d => lower_letter d \/ decimal_digit d \/ d = extra) r) ->
  s <> str "true" -> s <> str "false" ->
  paramValue s = VStr s /\ (60%N ∉ s) /\ s <> [].
Proof.
  intros Hextra Hformat Htrue Hfalse.
  destruct (name_kept_as_text extra s Hextra Hformat Htrue Hfalse) as (Hv & Hnested & Hflat).
  split; [|split; [done|]].
  - unfold paramValue, paramValueOf. by rewrite Hnested.
  - by destruct Hformat as (c & r & -> & _).
Qed.

(** X13.  Round trip.  A block that holds the pairs [server_name],
    [tool_name] and [arguments] in this order, separated by text without
    [<], whose two names are in their formats and are not the words [true]
    and [false], and whose [arguments] content gives an object or an array,
    is built into the request with these two names as strings, that value as
    arguments and the block as raw text. *)
Theorem well_formed_block_round_trip (w0 w1 w2 w3 sn tn inner : jstring) :
  let content :=
    w0 ++ tag_pair (str "server_name") sn ++
    w1 ++ tag_pair (str "tool_name") tn ++
    w2 ++ tag_pair (str "arguments") inner ++ w3 in
  let text := RegExp.open_marker ++ content ++ RegExp.close_marker in
  60%N ∉ w0 -> 60%N ∉ w1 -> 60%N ∉ w2 -> 60%N ∉ w3 ->
  server_name_format sn -> sn <> str "true" -> sn <> str "false" ->
  tool_name_format tn -> tn <> str "true" -> tn <> str "false" ->
  first_occurrence (closing_tag (str "arguments"))
    (inner ++ closing_tag (str "arguments") ++ w3) inner w3 ->
  is_structured (paramValue inner) ->
  first_occurrence RegExp.close_marker (content ++ RegExp.close_marker) content [] ->
  parseToolRequest text =
    Ok {| toolName := VStr tn; serverName := VStr sn;
          arguments := paramValue inner; raw := text |}.
Proof.
  intros content text Hw0 Hw1 Hw2 Hw3 Hsn Hsn1 Hsn2 Htn Htn1 Htn2 Hinner Hargs Hclose.
  destruct (paramValue_name 45 sn (or_introl eq_refl) Hsn Hsn1 Hsn2) as (Hvsn & Hfsn & Hnsn).
  destruct (paramValue_name 95 tn (or_intror eq_refl) Htn Htn1 Htn2) as (Hvtn & Hftn & Hntn).
  assert (RegExp.exec RegExp.block_here text = Some (content, [])) as Hexec.
  { apply exec_block_first with [] (content ++ RegExp.close_marker); [|done].
    split; [done|]. intros. simpl. lia. }
  assert (siblings content =
          [(str "server_name", sn); (str "tool_name", tn); (str "arguments", inner)])
    as Hsiblings.
  { unfold content.
    destruct (siblings_after_pair w0 (str "server_name") sn
                (w1 ++ tag_pair (str "tool_name") tn ++
                 w2 ++ tag_pair (str "arguments") inner ++ w3)) as [_ ->];
      [done|done|apply (bool_decide_unpack _); by vm_compute
      |by apply flat_first_occurrence|].
    destruct (siblings_after_pair w1 (str "tool_name") tn
                (w2 ++ tag_pair (str "arguments") inner ++ w3)) as [_ ->];
      [done|done|apply (bool_decide_unpack _); by vm_compute
      |by apply flat_first_occurrence|].
    destruct (siblings_after_pair w2 (str "arguments") inner w3) as [_ ->];
      [done|done|apply (bool_decide_unpack _); by vm_compute
      |done|].
    by rewrite (siblings_no_lt w3). }
  pose proof (parseParameters_siblings content) as Hparams.
  set (params := fold_left _ (siblings content) empty_object) in Hparams.
  assert (forall k v, k <> str "__proto__" ->
            last_occurrence k (siblings content) = Some v ->
            get params k = paramValue v) as Hget.
  { intros k v Hk Hlast. apply get_own.
    by rewrite (parseParameters_lookup _ _ k Hparams), Hlast. }
  assert (get params (str "server_name") = VStr sn) as Hgsn.
  { rewrite (Hget _ sn); [done | by vm_compute | by rewrite Hsiblings; vm_compute]. }
  assert (get params (str "tool_name") = VStr tn) as Hgtn.
  { rewrite (Hget _ tn); [done | by vm_compute | by rewrite Hsiblings; vm_compute]. }
  assert (get params (str "arguments") = paramValue inner) as Hgargs.
  { rewrite (Hget _ inner); [done | by vm_compute | by rewrite Hsiblings; vm_compute]. }
  assert (truthy (VStr sn) = true /\ truthy (VStr tn) = true) as [Htsn Httn].
  { simpl. by rewrite !bool_decide_eq_false_2. }
  assert (truthy (paramValue inner) = true) as Htargs
    by (by destruct Hargs as [(? & ? & ->)|[? ->]]).
  assert (first_missing params = None) as Hcomplete.
  { unfold first_missing, required_keys. simpl.
    by rewrite Hgsn, Hgtn, Hgargs, Htsn, Httn, Htargs. }
  rewrite (parseToolRequest_complete _ _ _ _ Hexec Hparams Hcomplete), Hgargs.
  assert (candidate params (paramValue inner) text =
          {| toolName := VStr tn; serverName := VStr sn;
             arguments := paramValue inner; raw := text |}) as Hcandidate
    by (unfold candidate; by rewrite Hgsn, Hgtn).
  assert (validateToolRequest (candidate params (paramValue inner) text) = Ok tt) as Hvalid.
  { apply validate_Ok. rewrite Hcandidate. simpl.
    split; [done|]. split; [done|]. split; [done|]. split; by eexists. }
  replace (match paramValue inner with VStr s => _ | v => Ok v end)
    with (Ok (paramValue inner) : result any)
    by (by destruct Hargs as [(? & ? & ->)|[? ->]]).
  cbn [bind]. rewrite Hvalid. cbn [bind]. by rewrite Hcandidate.
Qed.

(** ** Extraction, block by block *)



Lemma first_unexpected (bs : list jstring) :
  Forall (fun b => unexpectedOf b = None) bs \/
  exists bs1 b bs2 e, bs = bs1 ++ b :: bs2 /\
    Forall (fun b => unexpectedOf b = None) bs1 /\ unexpectedOf b = Some e.
Proof.
  induction bs as [|b bs IH]; [by left|].
  destruct (unexpectedOf b) as [e|] eqn:Hb.
  - right. exists [], b, bs, e. by split; [|split; [apply List.Forall_nil|]].
  - destruct IH as [Hall|(bs1 & b' & bs2 & e & -> & Hbs1 & Hb')].
    + left. by apply List.Forall_cons.
    + right. exists (b :: bs1), b', bs2, e. split; [done|]. split; [|done].
      by apply List.Forall_cons.
Qed.

Lemma parseToolRequests_blocks (text : jstring) :
  (Forall (fun b => unexpectedOf b = None) (blocks text) ->
   parseToolRequests text =
     (Ok (omap requestOf (blocks text)), omap diagnosticOf (blocks text))) /\
  (forall bs1 b bs2 e,
     blocks text = bs1 ++ b :: bs2 ->
     Forall (fun b => unexpectedOf b = None) bs1 ->
     unexpectedOf b = Some e ->
     parseToolRequests text = (Throw e, omap diagnosticOf bs1)).
Proof.
  split.
  - intros Hall. unfold parseToolRequests. by rewrite loop_tolerated.
  - intros bs1 b bs2 e Hbs Hbs1 Hb. unfold parseToolRequests.
    by rewrite (loop_aborted _ _ _ _ bs1 b bs2 e).
Qed.

(** The loop of [parseToolRequests], one block at a time. *)
Lemma parseToolRequests_unfold (text content rest : jstring) :
  RegExp.exec RegExp.block_here text = Some (content, rest) ->
  parseToolRequests text =
    match parseToolRequest (RegExp.open_marker ++ content ++ RegExp.close_marker) with
    | Ok request =>
        (match (parseToolRequests rest).1 with
         | Ok requests => Ok (request :: requests)
         | Throw e => Throw e
         end, (parseToolRequests rest).2)
    | Throw (XmlParseError message) =>
        ((parseToolRequests rest).1,
         (str "Skipping invalid tool request: " ++ message) :: (parseToolRequests rest).2)
    | Throw e => (Throw e, [])
    end.
Proof.
  intros Hexec.
  pose proof (blocks_unfold text) as Hblocks. rewrite Hexec in Hblocks.
  set (b := RegExp.open_marker ++ content ++ RegExp.close_marker) in *.
  destruct (parseToolRequests_blocks text) as [Hok Hthrow].
  destruct (parseToolRequests_blocks rest) as [Hok' Hthrow'].
  rewrite Hblocks in Hok, Hthrow.
  destruct (block_outcome b)
    as [(r & Hr & Hreq & Hdiag & Hun)|[(m & Hr & Hreq & Hdiag & Hun)
       |(e & Hr & Hx & Hreq & Hdiag & Hun)]]; rewrite Hr.
  - destruct (first_unexpected (blocks rest)) as [Hall|(bs1 & b' & bs2 & e & Hbs & Hbs1 & Hb')].
    + rewrite Hok by (by apply List.Forall_cons). rewrite (Hok' Hall). simpl.
      by rewrite Hreq, Hdiag.
    + rewrite (Hthrow (b :: bs1) b' bs2 e);
        [|by rewrite Hbs|by apply List.Forall_cons|done].
      rewrite (Hthrow' bs1 b' bs2 e) by done. simpl. by rewrite Hdiag.
  - destruct (first_unexpected (blocks rest)) as [Hall|(bs1 & b' & bs2 & e & Hbs & Hbs1 & Hb')].
    + rewrite Hok by (by apply List.Forall_cons). rewrite (Hok' Hall). simpl.
      by rewrite Hreq, Hdiag.
    + rewrite (Hthrow (b :: bs1) b' bs2 e);
        [|by rewrite Hbs|by apply List.Forall_cons|done].
      rewrite (Hthrow' bs1 b' bs2 e) by done. simpl. by rewrite Hdiag.
  - rewrite (Hthrow [] b (blocks rest) e); [|done|by apply List.Forall_nil|done].
    by destruct e.
Qed.

(** X14.  The loop of [parseToolRequests], one block at a time: when the
    text holds a first opening marker and, after it, a first closing marker,
    the result is the outcome of [parseToolRequest] on that block combined
    with the result for the text after the closing marker.  A request is put
    before the requests of the rest, a parse failure puts its message before
    the log of the rest, and any other error ends the extraction there. *)
Theorem extraction_block_by_block (prose content tail : jstring) :
  first_occurrence RegExp.open_marker
    (prose ++ RegExp.open_marker ++ content ++ RegExp.close_marker ++ tail)
    prose (content ++ RegExp.close_marker ++ tail) ->
  first_occurrence RegExp.close_marker
    (content ++ RegExp.close_marker ++ tail) content tail ->
  parseToolRequests
    (prose ++ RegExp.open_marker ++ content ++ RegExp.close_marker ++ tail) =
    match parseToolRequest (RegExp.open_marker ++ content ++ RegExp.close_marker) with
    | Ok request =>
        (match (parseToolRequests tail).1 with
         | Ok requests => Ok (request :: requests)
         | Throw e => Throw e
         end, (parseToolRequests tail).2)
    | Throw (XmlParseError message) =>
        ((parseToolRequests tail).1,
         (str "Skipping invalid tool request: " ++ message) :: (parseToolRequests tail).2)
    | Throw e => (Throw e, [])
    end.
Proof.
  intros Hopen Hclose. apply parseToolRequests_unfold.
  by eapply exec_block_first.
Qed.

(** ** [JSON.parse] and structured values *)

Ltac solve_suffix :=
  repeat first [reflexivity | apply suffix_cons_r | apply suffix_app_r].

Lemma skipWS_suffix (s : jstring) : JSON.skipWS s `suffix_of` s.
Proof.
  induction s as [|c s IH]; simpl; [done|].
  destruct (JSON.isWhiteSpace c); [by apply suffix_cons_r | done].
Qed.

Lemma skipWS_all (s : jstring) :
  JSON.skipWS s = [] -> Forall (fun c => isWhiteSpace c = true) s.
Proof.
  induction s as [|c s IH]; simpl; [by intros; apply List.Forall_nil|].
  destruct (JSON.isWhiteSpace c) eqn:Hc; [|done]. intros Hs.
  apply List.Forall_cons; [|by apply IH].
  unfold JSON.isWhiteSpace in Hc. unfold isWhiteSpace.
  repeat match type of Hc with
    | context [(c =? ?n)%N] => destruct (N.eqb_spec c n) as [->|]; [done|]
    end.
  done.
Qed.

Lemma skipWS_fixed (c : N) (s : jstring) :
  isWhiteSpace c = false -> JSON.skipWS (c :: s) = c :: s.
Proof.
  intros Hc. simpl. destruct (JSON.isWhiteSpace c) eqn:Hj; [|done].
  pose proof (skipWS_all [c]) as H. simpl in H. rewrite Hj in H.
  specialize (H eq_refl). apply Forall_cons in H as [H _]. congruence.
Qed.

Lemma parseString_suffix (n : nat) (s acc k r : jstring) :
  length s <= n -> JSON.parseString s acc = Some (k, r) -> r `suffix_of` s.
Proof.
  revert s acc. induction n as [|n IH]; intros s acc Hlen;
    (destruct s as [|c s]; [done|]); simpl in Hlen; [lia|].
  simpl. destruct (c =? 34)%N; [intros [= _ <-]; solve_suffix|].
  destruct (c =? 92)%N.
  - destruct s as [|e s]; [done|]. simpl in Hlen.
    assert (forall acc', JSON.parseString s acc' = Some (k, r) ->
              r `suffix_of` c :: e :: s) as Hrec.
    { intros acc' H%IH; [solve_suffix; done | lia]. }
    destruct (_ || _); [apply Hrec|].
    repeat (destruct (e =? _)%N; [apply Hrec|]).
    destruct (e =? 117)%N; [|done].
    destruct s as [|h1 [|h2 [|h3 [|h4 s]]]]; try done.
    destruct (JSON.hex4 h1 h2 h3 h4); [|done].
    intros H%IH; [|simpl in *; lia]. by do 6 apply suffix_cons_r.
  - destruct (c <? 32)%N; [done|].
    intros H%IH; [by apply suffix_cons_r | lia].
Qed.

Lemma spanDigits_suffix (s ds r : jstring) :
  Num.spanDigits s = (ds, r) -> r `suffix_of` s.
Proof. intros (-> & _)%spanDigits_spec. solve_suffix. Qed.

Lemma suffix_via (a b c : jstring) : a `suffix_of` b -> b `suffix_of` c -> a `suffix_of` c.
Proof. intros. by etrans. Qed.

Lemma suffix_via_cons (x : N) (a b c : jstring) :
  a `suffix_of` b -> (x :: b) `suffix_of` c -> a `suffix_of` c.
Proof. intros Ha Hb%suffix_cons_l. by etrans. Qed.

Lemma parseNumber_suffix (s : jstring) (x : spec_float) (r : jstring) :
  JSON.parseNumber s = Some (x, r) -> r `suffix_of` s.
Proof.
  unfold JSON.parseNumber.
  set (start := match s with
                | c :: r0 => if (c =? 45)%N then (true, r0) else (false, s)
                | [] => (false, s)
                end).
  assert (start.2 `suffix_of` s) as Hstart.
  { unfold start. destruct s as [|c r0]; [done|].
    destruct (c =? 45)%N; simpl; solve_suffix. }
  destruct start as [neg u]. simpl in Hstart.
  repeat (cbv beta iota zeta;
    match goal with
    | |- context [Num.spanDigits ?u] =>
        let H := fresh "Hspan" in
        destruct (Num.spanDigits u) as [? ?] eqn:H; apply spanDigits_suffix in H
    | |- context [match ?l with [] => _ | _ :: _ => _ end] => is_var l; destruct l
    | |- context [if ?b then _ else _] => destruct b
    | |- context [match ?o with Some _ => _ | None => _ end] => destruct o
    end); try done; intros [= _ <-];
  eauto 14 using suffix_via, suffix_via_cons.
Qed.

Section CompositeSuffix.

Variable pv : jstring -> option (any * jstring).
Hypothesis pv_suffix : forall s v r, pv s = Some (v, r) -> r `suffix_of` s.

(** What [parseElements] consumes ends with the bracket that closes the
    array. *)
Lemma parseElements_closed (fuel : nat) (s : jstring) (acc : list any)
    (v : any) (r : jstring) :
  JSON.parseElements pv fuel s acc = Some (v, r) -> (93%N :: r) `suffix_of` s.
Proof.
  revert s acc. induction fuel as [|f IH]; intros s acc; simpl; [done|].
  destruct (pv s) as [[v' r0]|] eqn:Hv; [|done]. apply pv_suffix in Hv.
  pose proof (skipWS_suffix r0) as Hws.
  destruct (JSON.skipWS r0) as [|c r1]; [done|].
  destruct (N.eqb_spec c 44) as [->|_].
  - intros H%IH. etrans; [done|]. etrans; [|done]. etrans; [|done]. solve_suffix.
  - destruct (N.eqb_spec c 93) as [->|_]; [|done].
    intros [= _ <-]. by etrans.
Qed.

(** What [parseMembers] consumes ends with the brace that closes the
    object. *)
Lemma parseMembers_closed (fuel : nat) (s : jstring) (acc : gmap jstring any)
    (v : any) (r : jstring) :
  JSON.parseMembers pv fuel s acc = Some (v, r) -> (125%N :: r) `suffix_of` s.
Proof.
  revert s acc. induction fuel as [|f IH]; intros s acc; simpl; [done|].
  pose proof (skipWS_suffix s) as Hws0.
  destruct (JSON.skipWS s) as [|q r0]; [done|].
  destruct (q =? 34)%N; [|done].
  destruct (JSON.parseString r0 []) as [[k r1]|] eqn:Hk; [|done].
  apply (parseString_suffix (length r0)) in Hk; [|done].
  pose proof (skipWS_suffix r1) as Hws1.
  destruct (JSON.skipWS r1) as [|colon r2]; [done|].
  destruct (colon =? 58)%N; [|done].
  destruct (pv r2) as [[v' r3]|] eqn:Hv; [|done]. apply pv_suffix in Hv.
  pose proof (skipWS_suffix r3) as Hws3.
  destruct (JSON.skipWS r3) as [|c r4]; [done|].
  assert ((c :: r4) `suffix_of` s) as Hc.
  { etrans; [done|]. etrans; [done|]. etrans; [|done]. apply suffix_cons_r.
    etrans; [|done]. etrans; [|done]. solve_suffix. }
  destruct (N.eqb_spec c 44) as [->|_].
  - intros H%IH. etrans; [done|]. etrans; [|done]. solve_suffix.
  - destruct (N.eqb_spec c 125) as [->|_]; [|done]. by intros [= _ <-].
Qed.

End CompositeSuffix.

Lemma parseValue_suffix (fuel : nat) (s : jstring) (v : any) (r : jstring) :
  JSON.parseValue fuel s = Some (v, r) -> r `suffix_of` s.
Proof.
  revert s v r. induction fuel as [|f IH]; intros s v r; [done|].
  cbn [JSON.parseValue].
  pose proof (skipWS_suffix s) as Hws.
  destruct (JSON.skipWS s) as [|c r0]; [done|].
  intros Hv. etrans; [|done]. clear Hws. revert Hv.
  destruct (c =? 123)%N.
  { pose proof (skipWS_suffix r0) as Hws.
    destruct (JSON.skipWS r0) as [|d r']; [done|].
    destruct (d =? 125)%N.
    - intros [= _ <-]. apply suffix_cons_r. etrans; [|done]. solve_suffix.
    - intros H%parseMembers_closed; [|done]. apply suffix_cons_r.
      etrans; [|done]. solve_suffix. }
  destruct (c =? 91)%N.
  { pose proof (skipWS_suffix r0) as Hws.
    destruct (JSON.skipWS r0) as [|d r']; [done|].
    destruct (d =? 93)%N.
    - intros [= _ <-]. apply suffix_cons_r. etrans; [|done]. solve_suffix.
    - intros H%parseElements_closed; [|done]. apply suffix_cons_r.
      etrans; [|done]. solve_suffix. }
  destruct (c =? 34)%N.
  { destruct (JSON.parseString r0 []) as [[k r']|] eqn:Hk; [|done].
    apply (parseString_suffix (length r0)) in Hk; [|done].
    intros [= _ <-]. by apply suffix_cons_r. }
  destruct (startsWith _ _); [intros [= _ <-]; apply (suffix_drop (c :: r0) 4)|].
  destruct (startsWith _ _); [intros [= _ <-]; apply (suffix_drop (c :: r0) 5)|].
  destruct (startsWith _ _); [intros [= _ <-]; apply (suffix_drop (c :: r0) 4)|].
  destruct (JSON.parseNumber _) as [[x r']|] eqn:Hx; [|done].
  intros [= _ <-]. by apply parseNumber_suffix in Hx.
Qed.

Lemma trim_head (s : jstring) (c : N) (r : jstring) :
  trim s = c :: r -> isWhiteSpace c = false.
Proof.
  unfold trim. destruct (trimStart s) as [|c' u] eqn:Hu; [done|].
  apply trimStart_head in Hu. rewrite trimEnd_cons by done. by intros [= <- _].
Qed.

Lemma trim_last (s r : jstring) (d : N) :
  trim s = r ++ [d] -> isWhiteSpace d = false.
Proof.
  unfold trim, trimEnd. intros H%(f_equal (@rev N)).
  rewrite rev_involutive, rev_app_distr in H. simpl in H.
  by apply trimStart_head in H.
Qed.

(** A trimmed text that is closed by [c] and then holds white space only
    ends with [c]. *)
Lemma trim_closed (s r : jstring) (c : N) :
  (c :: r) `suffix_of` trim s -> Forall (fun d => isWhiteSpace d = true) r ->
  exists pre, trim s = pre ++ [c].
Proof.
  intros [pre Hpre] Hr. exists pre. rewrite Hpre. do 2 f_equal.
  destruct r as [|d r _] using rev_ind; [done|]. exfalso.
  apply Forall_app in Hr as [_ [Hd _]%Forall_cons].
  change (pre ++ c :: r ++ [d]) with (pre ++ (c :: r) ++ [d]) in Hpre.
  rewrite app_assoc in Hpre. apply trim_last in Hpre. congruence.
Qed.

(** [JSON.parse] gives an object or an array only for a text in braces or
    in brackets, white space aside. *)
Lemma parse_structured_bracketed (s : jstring) (v : any) :
  JSON.parse (trim s) = Ok v -> is_structured v -> bracketed (trim s).
Proof.
  unfold JSON.parse.
  destruct (JSON.parseValue _ (trim s)) as [[v' r]|] eqn:Hv; [|done].
  destruct (JSON.skipWS r) eqn:Hr; [|done]. apply skipWS_all in Hr.
  intros [= <-] Hstruct.
  destruct (trim s) as [|c t] eqn:Ht; [done|].
  pose proof (trim_head _ _ _ Ht) as Hc.
  cbn [JSON.parseValue] in Hv. rewrite skipWS_fixed in Hv by done.
  rewrite <- Ht in *. clear Hc.
  assert (forall close, (close :: r) `suffix_of` t ->
            exists pre, trim s = pre ++ [close]) as Hclosed.
  { intros close Hclose. apply trim_closed with r; [|done].
    rewrite Ht. by apply suffix_cons_r. }
  destruct (N.eqb_spec c 123) as [->|_].
  { left. split; [by eexists|]. apply Hclosed.
    pose proof (skipWS_suffix t) as Hws.
    destruct (JSON.skipWS t) as [|d r']; [done|].
    destruct (N.eqb_spec d 125) as [->|_].
    - injection Hv as _ <-. done.
    - eapply parseMembers_closed; [|done].
      intros. by eapply parseValue_suffix. }
  destruct (N.eqb_spec c 91) as [->|_].
  { right. split; [by eexists|]. apply Hclosed.
    pose proof (skipWS_suffix t) as Hws.
    destruct (JSON.skipWS t) as [|d r']; [done|].
    destruct (N.eqb_spec d 93) as [->|_].
    - injection Hv as _ <-. done.
    - eapply parseElements_closed; [|done].
      intros. by eapply parseValue_suffix. }
  exfalso. revert Hv.
  destruct (c =? 34)%N.
  { destruct (JSON.parseString t []) as [[k r']|]; [|done].
    intros [= <- _]. by destruct Hstruct as [(? & ? & ?)|[? ?]]. }
  repeat (destruct (startsWith _ _);
          [intros [= <- _]; by destruct Hstruct as [(? & ? & ?)|[? ?]]|]).
  destruct (JSON.parseNumber _) as [[x r']|]; [|done].
  intros [= <- _]. by destruct Hstruct as [(? & ? & ?)|[? ?]].
Qed.

(** A text [normalizeValue] keeps as text is not JSON for an object or an
    array. *)
Lemma normalize_text_not_structured (inner s : jstring) (v : any) :
  normalizeValue inner = VStr s -> s <> [] ->
  JSON.parse s = Ok v -> ~ is_structured v.
Proof.
  intros Hnorm Hne Hparse Hstruct. revert Hnorm. unfold normalizeValue.
  destruct (negb (truthy (VStr (trim inner)))); [by intros [= <-]|].
  destruct (bool_decide _); [done|]. destruct (bool_decide _); [done|].
  destruct (_ && _); [done|].
  destruct (_ || _) eqn:Hb.
  - apply bracketed_spec in Hb.
    destruct (JSON.parse (trim inner)) as [v0|e] eqn:Hp.
    + intros ->. apply parse_bracketed_structured in Hp; [|done].
      by destruct Hp as [(? & ? & ?)|[? ?]].
    + intros [= <-]. congruence.
  - intros [= <-]. apply parse_structured_bracketed in Hparse; [|done].
    apply bracketed_spec in Hparse. congruence.
Qed.

Lemma paramValue_text (inner s : jstring) :
  paramValue inner = VStr s -> normalizeValue inner = VStr s.
Proof.
  unfold paramValue, paramValueOf.
  destruct (hasNestedTags inner); [|done].
  by destruct (parseParameters_depth stack inner).
Qed.

Lemma parseToolRequest_text_arguments (text content rest : jstring)
    (params : object) (s : jstring) :
  RegExp.exec RegExp.block_here text = Some (content, rest) ->
  parseParameters content = Ok params ->
  first_missing params = None ->
  own params !! str "arguments" = Some (VStr s) ->
  parseToolRequest text =
    Throw (match JSON.parse s with
           | Ok _ => invalid_arguments
           | Throw _ => invalid_json
           end).
Proof.
  intros Hexec Hparams Hcomplete Hown.
  pose proof (get_own _ _ _ Hown) as Hargs.
  rewrite (parseToolRequest_complete _ _ _ _ Hexec Hparams Hcomplete), Hargs.
  destruct (JSON.parse s) as [v|e] eqn:Hparse; [|done]. cbn [try_catch bind].
  apply first_missing_None in Hcomplete.
  assert (truthy (get params (str "server_name")) = true /\
          truthy (get params (str "tool_name")) = true /\
          truthy (get params (str "arguments")) = true) as (Hsn & Htn & Ha).
  { unfold required_keys in Hcomplete.
    apply Forall_cons in Hcomplete as [? Hcomplete].
    apply Forall_cons in Hcomplete as [? Hcomplete].
    by apply Forall_cons in Hcomplete as [? _]. }
  assert (s <> []) as Hne.
  { intros ->. rewrite Hargs in Ha. by vm_compute in Ha. }
  assert (~ is_structured v) as Hv.
  { rewrite (parseParameters_lookup _ _ (str "arguments") Hparams) in Hown
      by (by vm_compute).
    destruct (last_occurrence _ _) as [inner|]; [|done].
    injection Hown as Hinner. apply paramValue_text in Hinner.
    by eapply normalize_text_not_structured. }
  rewrite <- structured_spec in Hv. apply not_false_is_true in Hv.
  unfold validateToolRequest, candidate. cbn [toolName serverName arguments].
  by rewrite Htn, Hsn, Hv.
Qed.

(** X15.  Arguments that [parseParameters] stored in the tree as text never
    give a request: once the three keys have passed their check, the build
    stops with "Invalid JSON in tool arguments" when [JSON.parse] rejects the
    text, and with "Invalid or missing arguments in tool request" when it
    accepts it, because a text whose JSON is an object or an array was
    already parsed by [normalizeValue].  When a request is returned and
    [arguments] is an own property of the tree, that property is an object
    or an array and is the arguments of the request.  (Text that the tree
    inherits through a replaced prototype was not normalized and can still
    be parsed into arguments.) *)
Theorem text_arguments_never_build (text content rest : jstring)
    (params : object) :
  RegExp.exec RegExp.block_here text = Some (content, rest) ->
  parseParameters content = Ok params ->
  (forall s, first_missing params = None ->
     own params !! str "arguments" = Some (VStr s) ->
     parseToolRequest text =
       Throw (match JSON.parse s with
              | Ok _ => invalid_arguments
              | Throw _ => invalid_json
              end)) /\
  (forall request v, parseToolRequest text = Ok request ->
     own params !! str "arguments" = Some v ->
     is_structured v /\ arguments request = v).
Proof.
  intros Hexec Hparams. split.
  - intros s. by eapply parseToolRequest_text_arguments.
  - intros request v Hok Hown.
    pose proof (parseToolRequest_Ok_complete _ _ _ _ _ Hexec Hparams Hok) as Hcomplete.
    pose proof (parseToolRequest_Ok_valid _ _ Hok) as Hvalid.
    apply validate_Ok in Hvalid as (_ & _ & Hstruct & _).
    assert (forall s, v <> VStr s) as Htree.
    { intros s ->.
      by rewrite (parseToolRequest_text_arguments _ _ _ _ _ Hexec Hparams Hcomplete Hown)
        in Hok. }
    assert (arguments request = v) as Hsame.
    { rewrite (parseToolRequest_complete _ _ _ _ Hexec Hparams Hcomplete) in Hok.
      rewrite (get_own _ _ _ Hown) in Hok.
      destruct v as [| |b|x|s|l|p m]; try (by destruct (Htree s));
        cbn [bind] in Hok;
        (destruct (validateToolRequest _); [by injection Hok as <- | done]). }
    split; [by rewrite <- Hsame | done].
Qed.


End Parser.

(** ** The theorems at sample inputs *)

#[local] Existing Instance Sample.engine.

Ltac all_computed :=
  repeat (apply Forall_cons; split; [by vm_compute|]); by apply Forall_nil.

Ltac no_such_unit := apply (bool_decide_unpack _); by vm_compute.

Lemma extraction_isolates_parse_failures_witness :
  (exists r1 r2 m,
     parseToolRequests Sample.three_blocks = (Ok [r1; r2], [m]) /\
     raw r1 = Sample.block Sample.good_inner /\
     raw r2 = Sample.block Sample.good_inner /\
     m = str "Skipping invalid tool request: Missing tool_name in tool request") /\
  parseToolRequests Sample.aborted =
    (Throw TypeError,
     [str "Skipping invalid tool request: Missing tool_name in tool request"]).
Proof.
  split.
  - destruct (extraction_isolates_parse_failures Sample.three_blocks) as [Hok _].
    assert (blocks Sample.three_blocks =
            [Sample.block Sample.good_inner; Sample.block Sample.no_tool_inner;
             Sample.block Sample.good_inner]) as Hblocks by (by vm_compute).
    destruct Hok as [-> _].
    + rewrite Hblocks. all_computed.
    + rewrite Hblocks. vm_compute. do 3 eexists. repeat split.
  - destruct (extraction_isolates_parse_failures Sample.aborted) as [_ Habort].
    rewrite (Habort [Sample.block Sample.no_tool_inner]
               (Sample.block Sample.odd_server_inner)
               [Sample.block Sample.good_inner] TypeError).
    + by vm_compute.
    + by vm_compute.
    + all_computed.
    + by vm_compute.
Defined.

Lemma extraction_nearest_closing_marker_in_order_witness :
  Blocks Sample.reopened
    [RegExp.open_marker ++ str "A" ++ RegExp.open_marker ++ str "B"
     ++ RegExp.close_marker] /\
  (exists r1 r2 m,
     parseToolRequests Sample.three_blocks = (Ok [r1; r2], [m]) /\
     map raw [r1; r2] = [Sample.block Sample.good_inner; Sample.block Sample.good_inner]).
Proof.
  split.
  - destruct (extraction_nearest_closing_marker_in_order Sample.reopened) as [H _].
    vm_compute in H. vm_compute. exact H.
  - destruct (extraction_nearest_closing_marker_in_order Sample.three_blocks)
      as (_ & _ & -> & _).
    vm_compute. do 3 eexists. by split.
Defined.

Lemma nested_failure_falls_back_witness :
  exists params,
    parseParameters_depth 1 Sample.nested = Ok params /\
    own params !! str "a" = Some (VStr (Sample.tag "b" (str "1"))) /\
    parseParameters_depth 0 (Sample.tag "b" (str "1")) = Throw RangeError.
Proof.
  destruct (nested_failure_falls_back 0 Sample.nested) as (Heq & _ & Hown & Hzero & _).
  eexists. split; [exact Heq|]. split; [|apply Hzero].
  rewrite (Hown _ (str "a") (Sample.tag "b" (str "1")) RangeError Heq).
  - by vm_compute.
  - by vm_compute.
  - by vm_compute.
  - by vm_compute.
  - apply Hzero.
Defined.

Lemma arguments_text_parsed_tree_kept_witness :
  parseToolRequest (Sample.block Sample.text_arguments_inner)
    = Throw (XmlParseError (str "Invalid JSON in tool arguments")) /\
  (forall request,
     parseToolRequest (Sample.block Sample.good_inner) = Ok request ->
     arguments request = VObj None {[ str "path" := VStr (str "a.txt") ]}).
Proof.
  split.
  - pose proof (parseParameters_siblings Sample.text_arguments_inner) as Hparams.
    destruct (arguments_text_parsed_tree_kept
                (Sample.block Sample.text_arguments_inner)
                Sample.text_arguments_inner [] _
                ltac:(by vm_compute) Hparams ltac:(by vm_compute)) as (Htext & _).
    destruct (Htext (str "all of them") ltac:(by vm_compute)) as [Hfail _].
    apply (Hfail SyntaxError). by vm_compute.
  - intros request Hrequest.
    pose proof (parseParameters_siblings Sample.good_inner) as Hparams.
    destruct (arguments_text_parsed_tree_kept
                (Sample.block Sample.good_inner) Sample.good_inner [] _
                ltac:(by vm_compute) Hparams ltac:(by vm_compute)) as (_ & Htree).
    destruct Htree as [_ Hkept]; [by vm_compute|].
    rewrite (Hkept _ Hrequest). by vm_compute.
Defined.

Lemma validate_checks_in_order_witness :
  validateToolRequest {| toolName := VStr (str "do_it");
                         serverName := VStr (str "Server1");
                         arguments := VObj None ∅; raw := [] |}
    = Throw (invalid_server_name (str "Server1")) /\
  validateToolRequest {| toolName := VStr (str "do_it");
                         serverName := VStr (str "srv-1");
                         arguments := VStr (str "{}"); raw := [] |}
    = Throw invalid_arguments.
Proof.
  split.
  - destruct (validate_checks_in_order (str "do_it") (str "Server1") (VObj None ∅) [])
      as (_ & _ & _ & _ & _ & _ & _ & H & _).
    apply H; [done | left; by eexists _, _].
  - destruct (validate_checks_in_order (str "do_it") (str "srv-1") (VObj None ∅) [])
      as (_ & _ & _ & _ & _ & _ & _ & _ & H).
    by apply H.
Defined.

Lemma falsy_required_value_counts_as_missing_witness :
  parseToolRequest (Sample.block Sample.false_server_inner)
    = Throw (XmlParseError (str "Missing server_name in tool request")) /\
  parseToolRequest (Sample.block Sample.zero_tool_inner)
    = Throw (XmlParseError (str "Missing tool_name in tool request")) /\
  parseToolRequest (Sample.block Sample.blank_arguments_inner)
    = Throw (XmlParseError (str "Missing arguments in tool request")).
Proof.
  split; [|split].
  - pose proof (parseParameters_siblings Sample.false_server_inner) as Hparams.
    apply (falsy_required_value_counts_as_missing
             (Sample.block Sample.false_server_inner) Sample.false_server_inner [] _
             [] (str "server_name") [str "tool_name"; str "arguments"] (str "false")
             ltac:(by vm_compute) Hparams eq_refl ltac:(all_computed)
             ltac:(by vm_compute) ltac:(by vm_compute) ltac:(by vm_compute)).
  - pose proof (parseParameters_siblings Sample.zero_tool_inner) as Hparams.
    apply (falsy_required_value_counts_as_missing
             (Sample.block Sample.zero_tool_inner) Sample.zero_tool_inner [] _
             [str "server_name"] (str "tool_name") [str "arguments"] (str "0")
             ltac:(by vm_compute) Hparams eq_refl ltac:(all_computed)
             ltac:(by vm_compute) ltac:(by vm_compute) ltac:(by vm_compute)).
  - pose proof (parseParameters_siblings Sample.blank_arguments_inner) as Hparams.
    apply (falsy_required_value_counts_as_missing
             (Sample.block Sample.blank_arguments_inner) Sample.blank_arguments_inner [] _
             [str "server_name"; str "tool_name"] (str "arguments") [] (str "  ")
             ltac:(by vm_compute) Hparams eq_refl ltac:(all_computed)
             ltac:(by vm_compute) ltac:(by vm_compute) ltac:(by vm_compute)).
Defined.

(** C2.  The block whose only [server_name] lies inside a pair called
    [__proto__] has no top-level key [server_name]: the tree has no such
    own property.  The build reads the name through the prototype that the
    pair installed and returns a request, where the specification has the build
    stop with "Missing server_name in tool request". *)
Theorem inherited_key_passes_required_check :
  (exists params,
     parseParameters Sample.inherited_server_inner = Ok params /\
     own params !! str "server_name" = None /\
     (forall inner, (str "server_name", inner) ∉ siblings Sample.inherited_server_inner) /\
     get params (str "server_name") = VStr (str "srv-1")) /\
  parseToolRequest (Sample.block Sample.inherited_server_inner) =
    Ok {| toolName := VStr (str "do_it");
          serverName := VStr (str "srv-1");
          arguments := VObj None {[ str "path" := VStr (str "a.txt") ]};
          raw := Sample.block Sample.inherited_server_inner |}.
Proof.
  split; [|by vm_compute].
  eexists. split; [by vm_compute|]. split; [by vm_compute|]. split; [|by vm_compute].
  intros inner Hin. vm_compute in Hin.
  repeat (apply elem_of_cons in Hin as [Hin|Hin]; [discriminate Hin|]).
  by apply elem_of_nil in Hin.
Qed.

(** C8.  Of two sibling pairs called [__proto__], an array and then text,
    the tree keeps neither as a key: it has no own property at all.  The
    value of the first pair stays as the prototype of the tree, where the
    specification has the name bound to the value of the last pair and the earlier
    value gone. *)
Theorem proto_pair_is_not_stored :
  siblings Sample.repeated_proto =
    [(str "__proto__", str "[1]"); (str "__proto__", str "x")] /\
  parseParameters Sample.repeated_proto = Ok (Some (VArr [VNum (Num.of_Z 1)]), ∅) /\
  (forall params, parseParameters Sample.repeated_proto = Ok params ->
     own params !! str "__proto__" <> Some (paramValue (str "x")) /\
     prototype params = Some (paramValue (str "[1]"))).
Proof.
  split; [by vm_compute|]. split; [by vm_compute|].
  intros params Hparams. vm_compute in Hparams. injection Hparams as <-.
  split; by vm_compute.
Qed.

(** ** Further theorems at sample inputs *)


Lemma returned_request_is_valid_witness :
  exists request,
    parseToolRequest (Sample.block Sample.array_server_inner) = Ok request /\
    serverName request = VObj (Some (VArr [VStr (str "abc")])) ∅ /\
    ToString (serverName request) = Ok (str "abc") /\
    validateToolRequest request = Ok tt /\
    accepted_name server_name_format (serverName request).
Proof.
  destruct (parseToolRequest (Sample.block Sample.array_server_inner))
    as [request|e] eqn:Hrun; [|by vm_compute in Hrun].
  exists request.
  destruct (returned_request_is_valid _ _ Hrun) as (_ & Hvalid & _ & _ & _ & Hserver & _).
  split; [done|]. vm_compute in Hrun. injection Hrun as <-.
  split; [by vm_compute|]. split; [by vm_compute|]. by split.
Defined.

Lemma required_keys_checked_in_order_witness :
  parseToolRequest (Sample.block Sample.no_tool_inner)
  = Throw (XmlParseError (str "Missing tool_name in tool request")).
Proof.
  pose proof (parseParameters_siblings Sample.no_tool_inner) as Hparams.
  destruct (required_keys_checked_in_order
              (Sample.block Sample.no_tool_inner) Sample.no_tool_inner [] _
              ltac:(by vm_compute) Hparams) as (_ & Habsent & _).
  apply (Habsent [str "server_name"] (str "tool_name") [str "arguments"]).
  - done.
  - all_computed.
  - apply plain_names_check. by vm_compute.
  - by vm_compute.
Defined.

Lemma repeated_sibling_keeps_last_witness :
  exists params,
    parseParameters Sample.repeated = Ok params /\
    own params !! str "a" = Some (VNum (Num.of_Z 2)).
Proof.
  destruct (repeated_sibling_keeps_last Sample.repeated) as (params & Hp & _ & Hlast & _).
  exists params. split; [done|].
  destruct (Hlast (str "a") (str "1") (str "2") [] [(str "b", str "x")] []) as [-> _].
  - by vm_compute.
  - by vm_compute.
  - intros v. apply not_elem_of_nil.
  - by vm_compute.
Defined.



Lemma extracted_requests_are_valid_witness :
  exists requests log,
    parseToolRequests Sample.three_blocks = (Ok requests, log) /\
    Forall (fun request => validateToolRequest request = Ok tt) requests.
Proof.
  destruct (parseToolRequests Sample.three_blocks) as [[requests|e] log] eqn:Hrun;
    [|by vm_compute in Hrun].
  exists requests, log. split; [done|].
  eapply Forall_impl; [exact (extracted_requests_are_valid _ _ _ Hrun)|].
  by intros request [Hvalid _].
Defined.

Lemma normalize_ignores_padding_witness :
  normalizeValue (str "  " ++ str "42" ++ str " ") = normalizeValue (str "42").
Proof.
  apply (normalize_ignores_padding (str "  ") (str "42") (str " ")); all_computed.
Defined.

Lemma pair_is_next_sibling_witness :
  siblings (str "see " ++ tag_pair (str "a") (str "1") ++ str ".")
    = (str "a", str "1") :: siblings (str ".").
Proof.
  apply (pair_is_next_sibling (str "see ") (str "a") (str "1") (str ".")).
  - no_such_unit.
  - done.
  - no_such_unit.
  - left. no_such_unit.
Defined.

Lemma tree_keys_are_sibling_names_witness :
  exists params,
    parseParameters Sample.repeated = Ok params /\ is_Some (own params !! str "b").
Proof.
  pose proof (parseParameters_siblings Sample.repeated) as Hparams.
  eexists. split; [exact Hparams|].
  destruct (tree_keys_are_sibling_names _ _ Hparams) as [_ Hkeys].
  apply (Hkeys (str "b") (str "x")); [no_such_unit | by vm_compute].
Defined.

Lemma text_arguments_never_build_witness :
  parseToolRequest
    (Sample.block
       (Sample.tag "server_name" (str "srv-1") ++ Sample.tag "tool_name" (str "do_it")
        ++ Sample.tag "arguments" (str "null")))
  = Throw invalid_arguments.
Proof.
  pose proof (parseParameters_siblings
                (Sample.tag "server_name" (str "srv-1")
                 ++ Sample.tag "tool_name" (str "do_it")
                 ++ Sample.tag "arguments" (str "null"))) as Hparams.
  destruct (text_arguments_never_build
              (Sample.block
                 (Sample.tag "server_name" (str "srv-1")
                  ++ Sample.tag "tool_name" (str "do_it")
                  ++ Sample.tag "arguments" (str "null")))
              _ [] _ ltac:(by vm_compute) Hparams) as [Htext _].
  rewrite (Htext (str "null")); by vm_compute.
Defined.

Lemma well_formed_block_round_trip_witness :
  parseToolRequest
    (RegExp.open_marker ++
     (str " " ++ tag_pair (str "server_name") (str "srv-1") ++
      str " " ++ tag_pair (str "tool_name") (str "do_it") ++
      str " " ++ tag_pair (str "arguments") (tag_pair (str "path") (str "a.txt")) ++
      str " ") ++ RegExp.close_marker)
  = Ok {| toolName := VStr (str "do_it"); serverName := VStr (str "srv-1");
          arguments := paramValue (tag_pair (str "path") (str "a.txt"));
          raw := RegExp.open_marker ++
            (str " " ++ tag_pair (str "server_name") (str "srv-1") ++
             str " " ++ tag_pair (str "tool_name") (str "do_it") ++
             str " " ++ tag_pair (str "arguments") (tag_pair (str "path") (str "a.txt")) ++
             str " ") ++ RegExp.close_marker |}.
Proof.
  apply (well_formed_block_round_trip (str " ") (str " ") (str " ") (str " ")
           (str "srv-1") (str "do_it") (tag_pair (str "path") (str "a.txt"))).
  - no_such_unit.
  - no_such_unit.
  - no_such_unit.
  - no_such_unit.
  - apply serverNamePattern_spec. by vm_compute.
  - by vm_compute.
  - by vm_compute.
  - apply toolNamePattern_spec. by vm_compute.
  - by vm_compute.
  - by vm_compute.
  - apply lazy_until_Some. by vm_compute.
  - left. eexists _, _. by vm_compute.
  - apply lazy_until_Some. by vm_compute.
Defined.

Lemma extraction_block_by_block_witness :
  exists request,
    parseToolRequest (Sample.block Sample.good_inner) = Ok request /\
    parseToolRequests
      (str "First " ++ RegExp.open_marker ++ Sample.good_inner ++ RegExp.close_marker
       ++ str ".") = (Ok [request], []).
Proof.
  destruct (parseToolRequest (Sample.block Sample.good_inner)) as [request|e] eqn:Hrun;
    [|by vm_compute in Hrun].
  exists request. split; [done|].
  rewrite (extraction_block_by_block (str "First ") Sample.good_inner (str ".")).
  - unfold Sample.block in Hrun. rewrite Hrun. by vm_compute.
  - apply lazy_until_Some. by vm_compute.
  - apply lazy_until_Some. by vm_compute.
Defined.
